(** * Step extraction over cell tracks: a shallow embedding of [src/steps.py]

    The module under study turns a table of tracked positions into a table
    of displacement steps at a given lag, concatenates such tables for
    several lags and summarises them per lag.

    Conventions of the embedding.

    - A pandas [DataFrame] of tracks is a list of column names together with
      the list of its rows; a row carries the values of the five columns the
      code reads.  A column whose name is absent from [columns] is never
      read: validation rejects the table first.
    - Integer columns ([cell_id], [frame], [tau_frames]) are [Z]; a [frame]
      column of pandas holds 64-bit integers.  The code carries [frame_end]
      through a float64 column between [shift] and the final [astype(int)]:
      that column is a column of binary64 values ([spec_float]), the frame
      is rounded on its way in and cast back on its way out, so that a frame
      index above 2^53 in magnitude can come back changed.
    - Float columns are IEEE binary64 values ([PrimFloat.float]), so NaN and
      the infinities are values a row can hold and the arithmetic is the
      one Python performs.
    - A raised exception is a value of [error]; the constructor records
      which [raise] (or which library call) produced it.  A column label
      that occurs twice makes [sort_values] and the [DataFrame] constructor
      raise; a lag that does not fit a C [int] makes the grouped [shift]
      raise.  Exhaustion of memory is not modelled.
    - [sort_values] on several keys is pandas' lexicographic sort, which is
      stable; it is written here as an insertion sort that keeps rows with
      equal keys in their original order.
    - The [median] aggregation is pandas' [median_linear]: NaN values are
      skipped and the middle values are found by the in-place selection
      [kth_smallest_c], run once for an odd count and twice, on the same
      array, for an even one. *)

From Stdlib Require Import String Ascii ZArith List Bool Lia Floats.
From Stdlib Require Import Sorting.Permutation Sorting.Sorted.
Import ListNotations.

Local Open Scope string_scope.
Local Open Scope list_scope.
Local Open Scope Z_scope.

(** ** Data model *)

Module Track.
Record t : Set := mk
    { cell_id : Z; frame : Z; t_min : float; x_um : float; y_um : float }.
End Track.

(** The [steps] frame as built at line 55: [frame_end] is still the float64
    column produced by [shift]. *)
Module RawStep.
Record t : Set := mk
    { cell_id : Z; frame_start : Z; t_start_min : float;
      frame_end : spec_float; t_end_min : float;
      dx_um : float; dy_um : float;
      tau_frames : Z; tau_min : float }.
End RawStep.

Module Step.
Record t : Set := mk
    { cell_id : Z; frame_start : Z; t_start_min : float;
      frame_end : Z; t_end_min : float;
      dx_um : float; dy_um : float;
      tau_frames : Z; tau_min : float }.
End Step.

Module Summary.
Record t : Set := mk
    { tau_frames : Z; n_steps : nat; n_cells : nat; median_tau_min : float }.
End Summary.

Record DataFrame : Set := mkDataFrame
  { columns : list string; rows : list Track.t }.

(** ** Errors *)

Inductive error : Set :=
| MissingColumns (names : list string)  (* "tracks is missing required columns: [...]" *)
| InvalidLag                            (* "tau_frames must be >= 1" *)
| LabelNotUnique (label : string)       (* "The column label '...' is not unique." *)
| ShiftOverflow                         (* the period of [shift] does not fit a C int *)
| NotOneDimensional                     (* [pd.DataFrame] given a two-dimensional column *)
| NoObjectsToConcatenate                (* raised by [pd.concat] on an empty list *)
| IntCastingNaN.                        (* raised by [astype(int)] on a NaN or an infinity *)

Definition result (A : Type) : Type := (error + A)%type.

Definition ret {A : Type} (a : A) : result A := inr a.

Definition raise {A : Type} (e : error) : result A := inl e.

Definition bind {A B : Type} (m : result A) (k : A -> result B) : result B :=
  match m with
  | inl e => inl e
  | inr a => k a
  end.

Notation "x <- m ;; k" := (bind m (fun x => k))
  (at level 61, m at next level, right associativity).

Fixpoint mapM {A B : Type} (f : A -> result B) (l : list A) : result (list B) :=
  match l with
  | [] => ret []
  | a :: l' => b <- f a ;; bs <- mapM f l' ;; ret (b :: bs)
  end.

(** ** Validator *)

Definition REQUIRED_TRACK_COLS : list string :=
  ["cell_id"; "frame"; "t_min"; "x_um"; "y_um"].

Definition mem (c : string) (s : list string) : bool :=
  existsb (String.eqb c) s.

(** Python's [a - b] on sets. *)
Definition set_difference (a b : list string) : list string :=
  filter (fun c => negb (mem c b)) a.

Fixpoint insert_sorted (c : string) (l : list string) : list string :=
  match l with
  | [] => [c]
  | d :: l' => if String.leb c d then c :: l else d :: insert_sorted c l'
  end.

(** Python's [sorted] on a collection of strings. *)
Definition sorted (l : list string) : list string :=
  fold_right insert_sorted [] l.

Definition validate_tracks (tracks : DataFrame) : result unit :=
  let missing := set_difference REQUIRED_TRACK_COLS (columns tracks) in
  match missing with
  | [] => ret tt
  | _ :: _ => raise (MissingColumns (sorted missing))
  end.

(** ** Step extractor *)

(** The sort key of [sort_values(["cell_id", "frame"])]. *)
Definition key (r : Track.t) : Z * Z := (Track.cell_id r, Track.frame r).

Definition key_lt (a b : Track.t) : bool :=
  (Track.cell_id a <? Track.cell_id b)
  || ((Track.cell_id a =? Track.cell_id b) && (Track.frame a <? Track.frame b)).

Definition key_le (a b : Track.t) : bool := negb (key_lt b a).

Fixpoint insert_row (r : Track.t) (l : list Track.t) : list Track.t :=
  match l with
  | [] => [r]
  | h :: l' => if key_le r h then r :: l else h :: insert_row r l'
  end.

Definition sort_values (l : list Track.t) : list Track.t :=
  fold_right insert_row [] l.

Definition same_cell (r q : Track.t) : bool :=
  Track.cell_id q =? Track.cell_id r.

(** [groupby("cell_id")[...].shift(-n)]: next to every row, the row [n]
    places later inside the row's own group, when there is one. *)
Fixpoint groupby_shift (n : nat) (l : list Track.t) : list (option Track.t) :=
  match l with
  | [] => []
  | r :: rest => nth_error (filter (same_cell r) l) n :: groupby_shift n rest
  end.

(** A shifted float column holds NaN where the group has no such row. *)
Definition shifted (col : Track.t -> float) (fut : option Track.t) : float :=
  match fut with
  | Some q => col q
  | None => nan
  end.

(** A 64-bit integer stored in a float64 column: the nearest binary64
    value, ties to even. *)
Definition int64_to_float64 (z : Z) : spec_float :=
  binary_normalize prec emax z 0 false.

(** The shifted [frame] column: NaN has to be stored, so the integers of the
    column become float64 values. *)
Definition shifted_frame (fut : option Track.t) : spec_float :=
  match fut with
  | Some q => int64_to_float64 (Track.frame q)
  | None => S754_nan
  end.

Definition raw_step (tau_frames : Z) (r : Track.t) (fut : option Track.t)
  : RawStep.t :=
  let x_future := shifted Track.x_um fut in
  let y_future := shifted Track.y_um fut in
  let t_future := shifted Track.t_min fut in
  let f_future := shifted_frame fut in
  let dx := (x_future - Track.x_um r)%float in
  let dy := (y_future - Track.y_um r)%float in
  {| RawStep.cell_id := Track.cell_id r;
     RawStep.frame_start := Track.frame r;
     RawStep.t_start_min := Track.t_min r;
     RawStep.frame_end := f_future;
     RawStep.t_end_min := t_future;
     RawStep.dx_um := dx;
     RawStep.dy_um := dy;
     RawStep.tau_frames := tau_frames;
     RawStep.tau_min := (t_future - Track.t_min r)%float |}.

Definition notna (f : float) : bool := negb (is_nan f).

Definition notna_frame (f : spec_float) : bool :=
  match f with
  | S754_nan => false
  | _ => true
  end.

(** [dropna(subset=["dx_um", "dy_um", "frame_end", "t_end_min"])]. *)
Definition dropna (steps : list RawStep.t) : list RawStep.t :=
  filter (fun s => notna (RawStep.dx_um s) && notna (RawStep.dy_um s)
                   && notna_frame (RawStep.frame_end s)
                   && notna (RawStep.t_end_min s))
         steps.

Definition in_int64 (v : Z) : bool := (- 2 ^ 63 <=? v) && (v <? 2 ^ 63).

(** The cast of a finite float64 value to a 64-bit integer: the value
    itself when it fits (a finite value of the column is an integer), the
    least 64-bit integer otherwise. *)
Definition float64_to_int64 (f : spec_float) : Z :=
  match f with
  | S754_zero _ => 0
  | S754_finite s m e =>
      let v := cond_Zopp s (Z.shiftl (Zpos m) e) in
      if in_int64 v then v else - 2 ^ 63
  | _ => - 2 ^ 63
  end.

Definition is_finite_frame (f : spec_float) : bool :=
  match f with
  | S754_zero _ | S754_finite _ _ _ => true
  | _ => false
  end.

(** [steps["frame_end"].astype(int)], row by row: pandas refuses a column
    that holds a NaN or an infinity. *)
Definition astype_int (s : RawStep.t) : result Step.t :=
  if is_finite_frame (RawStep.frame_end s) then
    ret {| Step.cell_id := RawStep.cell_id s;
           Step.frame_start := RawStep.frame_start s;
           Step.t_start_min := RawStep.t_start_min s;
           Step.frame_end := float64_to_int64 (RawStep.frame_end s);
           Step.t_end_min := RawStep.t_end_min s;
           Step.dx_um := RawStep.dx_um s;
           Step.dy_um := RawStep.dy_um s;
           Step.tau_frames := RawStep.tau_frames s;
           Step.tau_min := RawStep.tau_min s |}
  else raise IntCastingNaN.

(** A label that names more than one column of the table. *)
Definition repeated (c : string) (cols : list string) : bool :=
  Nat.ltb 1 (count_occ string_dec cols c).

(** The look-up of a sort key by its label, as [sort_values] does it. *)
Definition get_label (cols : list string) (c : string) : result unit :=
  if repeated c cols then raise (LabelNotUnique c) else ret tt.

Definition compute_steps_for_tau (tracks : DataFrame) (tau_frames : Z)
  : result (list Step.t) :=
  _ <- validate_tracks tracks ;;
  if tau_frames <? 1 then raise InvalidLag
  else
    _ <- mapM (get_label (columns tracks)) ["cell_id"; "frame"] ;;
    let tracks_sorted := sort_values (rows tracks) in
    (* the grouped shift takes its period as a C int *)
    if 2 ^ 31 <=? tau_frames then raise ShiftOverflow
    else
      let futures := groupby_shift (Z.to_nat tau_frames) tracks_sorted in
      (* [pd.DataFrame({...})] takes one-dimensional columns *)
      if existsb (fun c => repeated c (columns tracks)) ["t_min"; "x_um"; "y_um"]
      then raise NotOneDimensional
      else
        let steps :=
          map (fun p => raw_step tau_frames (fst p) (snd p))
              (combine tracks_sorted futures) in
        let steps := dropna steps in
        mapM astype_int steps.

(** ** Multi-lag composer *)

Definition pd_concat (frames : list (list Step.t)) : result (list Step.t) :=
  match frames with
  | [] => raise NoObjectsToConcatenate
  | _ :: _ => ret (List.concat frames)
  end.

Definition compute_steps_multi_tau (tracks : DataFrame) (taus : list Z)
  : result (list Step.t) :=
  _ <- validate_tracks tracks ;;
  all_steps <- mapM (compute_steps_for_tau tracks) taus ;;
  pd_concat all_steps.

(** ** Summarizer *)

(** [groupby("tau_frames")] sorts its group keys: the distinct lag values in
    ascending order. *)
Fixpoint insert_key (k : Z) (l : list Z) : list Z :=
  match l with
  | [] => [k]
  | h :: l' =>
      if k <? h then k :: l
      else if k =? h then l
      else h :: insert_key k l'
  end.

Definition group_keys (steps_all : list Step.t) : list Z :=
  fold_right insert_key [] (map Step.tau_frames steps_all).

Definition get_group (k : Z) (steps_all : list Step.t) : list Step.t :=
  filter (fun s => Step.tau_frames s =? k) steps_all.

(** The ["size"] aggregation. *)
Definition size (g : list Step.t) : nat := length g.

(** The ["nunique"] aggregation on an integer column. *)
Definition nunique (col : list Z) : nat := length (nodup Z.eq_dec col).

(** pandas' [kth_smallest_c] works on a C array: reads and writes by
    position. *)
Definition get (arr : list float) (i : Z) : float :=
  if i <? 0 then nan else nth (Z.to_nat i) arr nan.

Fixpoint set_nth (n : nat) (v : float) (arr : list float) {struct arr}
  : list float :=
  match arr with
  | [] => []
  | h :: t =>
      match n with
      | O => v :: t
      | S n' => h :: set_nth n' v t
      end
  end.

Definition put (arr : list float) (i : Z) (v : float) : list float :=
  if i <? 0 then arr else set_nth (Z.to_nat i) v arr.

Definition swap (arr : list float) (i j : Z) : list float :=
  put (put arr i (get arr j)) j (get arr i).

(** [while arr[i] < x: i += 1] *)
Fixpoint scan_up (fuel : nat) (arr : list float) (x : float) (i : Z) : Z :=
  match fuel with
  | O => i
  | S f => if (get arr i <? x)%float then scan_up f arr x (i + 1) else i
  end.

(** [while x < arr[j]: j -= 1] *)
Fixpoint scan_down (fuel : nat) (arr : list float) (x : float) (j : Z) : Z :=
  match fuel with
  | O => j
  | S f => if (x <? get arr j)%float then scan_down f arr x (j - 1) else j
  end.

(** The inner loop of [kth_smallest_c]: scan, swap when [i <= j], stop when
    [i > j]. *)
Fixpoint partition_loop (fuel : nat) (arr : list float) (x : float) (i j : Z)
  : list float * Z * Z :=
  match fuel with
  | O => (arr, i, j)
  | S f =>
      let i := scan_up (length arr) arr x i in
      let j := scan_down (length arr) arr x j in
      let '(arr, i, j) :=
        if i <=? j then (swap arr i j, i + 1, j - 1) else (arr, i, j) in
      if j <? i then (arr, i, j) else partition_loop f arr x i j
  end.

(** The outer loop of [kth_smallest_c]: [while left < m]. *)
Fixpoint select_loop (fuel : nat) (arr : list float) (k left m : Z)
  : list float :=
  match fuel with
  | O => arr
  | S f =>
      if left <? m then
        let x := get arr k in
        let '(arr, i, j) := partition_loop (length arr) arr x left m in
        let left := if j <? k then i else left in
        let m := if k <? i then j else m in
        select_loop f arr k left m
      else arr
  end.

(** [kth_smallest_c(arr, k, n)]: the value found at position [k], and the
    array as the selection leaves it. *)
Definition kth_smallest_c (arr : list float) (k n : Z) : float * list float :=
  let arr := select_loop (Z.to_nat n) arr k 0 (n - 1) in
  (get arr k, arr).

(** [calc_median_linear]: for an even count both selections run on the
    same array, the second one after the first. *)
Definition calc_median_linear (a : list float) (n : Z) : float :=
  if Z.odd n then fst (kth_smallest_c a (n / 2) n)
  else
    let '(hi, a) := kth_smallest_c a (n / 2) n in
    let '(lo, _) := kth_smallest_c a (n / 2 - 1) n in
    ((hi + lo) / 2)%float.

(** The ["median"] aggregation: pandas' [median_linear] copies the values
    that are not NaN and takes the median of the copy; NaN when there is
    none. *)
Definition median (col : list float) : float :=
  let tmp := filter notna col in
  match tmp with
  | [] => nan
  | _ :: _ => calc_median_linear tmp (Z.of_nat (length tmp))
  end.

Definition summary_by_tau (steps_all : list Step.t) : list Summary.t :=
  map (fun k =>
         let g := get_group k steps_all in
         {| Summary.tau_frames := k;
            Summary.n_steps := size g;
            Summary.n_cells := nunique (map Step.cell_id g);
            Summary.median_tau_min := median (map Step.tau_min g) |})
      (group_keys steps_all).

(** ** Reference definitions, written from the specification *)

(** The distinct values of a list, in order of first appearance. *)
Fixpoint distinct (l : list Z) : list Z :=
  match l with
  | [] => []
  | c :: l' => c :: filter (fun d => negb (d =? c)) (distinct l')
  end.

(** The rows of trajectory [c], in table order. *)
Definition trajectory (c : Z) (l : list Track.t) : list Track.t :=
  filter (fun r => Track.cell_id r =? c) l.

Definition partition_by_cell (l : list Track.t) : list (list Track.t) :=
  map (fun c => trajectory c l) (distinct (map Track.cell_id l)).

(** Row [i] of a partition with row [i + n], whenever the latter exists. *)
Definition pair_rows (n : nat) (p : list Track.t) : list (Track.t * Track.t) :=
  combine p (skipn n p).

Definition step_of_pair (tau_frames : Z) (p : Track.t * Track.t) : Step.t :=
  let (a, b) := p in
  {| Step.cell_id := Track.cell_id a;
     Step.frame_start := Track.frame a;
     Step.t_start_min := Track.t_min a;
     Step.frame_end := Track.frame b;
     Step.t_end_min := Track.t_min b;
     Step.dx_um := (Track.x_um b - Track.x_um a)%float;
     Step.dy_um := (Track.y_um b - Track.y_um a)%float;
     Step.tau_frames := tau_frames;
     Step.tau_min := (Track.t_min b - Track.t_min a)%float |}.

(** Sort by [(cell_id, frame)], partition by [cell_id], pair inside each
    partition, emit one step per pair. *)
Definition reference_pairs (l : list Track.t) (tau_frames : Z)
  : list (Track.t * Track.t) :=
  flat_map (pair_rows (Z.to_nat tau_frames))
           (partition_by_cell (sort_values l)).

Definition reference_steps (l : list Track.t) (tau_frames : Z) : list Step.t :=
  map (step_of_pair tau_frames) (reference_pairs l tau_frames).

(** A step none of whose [dropna] columns is NaN. *)
Definition step_notna (s : Step.t) : bool :=
  notna (Step.dx_um s) && notna (Step.dy_um s) && notna (Step.t_end_min s).

(** The row-count law: the sum over trajectories of [max(0, N_c - k)]. *)
Definition row_count_law (l : list Track.t) (k : Z) : Z :=
  fold_right Z.add 0
    (map (fun c => Z.max 0 (Z.of_nat (length (trajectory c l)) - k))
         (distinct (map Track.cell_id l))).

(** A returned step: the reference step with its [frame_end] taken through
    the float64 column and back. *)
Definition recast (s : Step.t) : Step.t :=
  {| Step.cell_id := Step.cell_id s;
     Step.frame_start := Step.frame_start s;
     Step.t_start_min := Step.t_start_min s;
     Step.frame_end := float64_to_int64 (int64_to_float64 (Step.frame_end s));
     Step.t_end_min := Step.t_end_min s;
     Step.dx_um := Step.dx_um s;
     Step.dy_um := Step.dy_um s;
     Step.tau_frames := Step.tau_frames s;
     Step.tau_min := Step.tau_min s |}.

(** [astype(int)] on a reference step. *)
Definition cast (s : Step.t) : result Step.t :=
  if is_finite_frame (int64_to_float64 (Step.frame_end s))
  then ret (recast s) else raise IntCastingNaN.

(** The steps the code keeps all have a [frame_end] that [astype(int)]
    accepts. *)
Definition castable (l : list Track.t) (tau_frames : Z) : bool :=
  forallb (fun s => is_finite_frame (int64_to_float64 (Step.frame_end s)))
          (filter step_notna (reference_steps l tau_frames)).

(** The value at rank [k] (from 0) of a list: a member of the list with at
    most [k] members below it and at most [length - 1 - k] above it. *)
Definition order_stat (vals : list float) (k : Z) (v : float) : Prop :=
  In v vals
  /\ Z.of_nat (length (filter (fun u => (u <? v)%float) vals)) <= k
  /\ Z.of_nat (length (filter (fun u => (v <? u)%float) vals))
     <= Z.of_nat (length vals) - 1 - k.

(** The statistical median of a list of numbers: the value of middle rank
    for an odd count, the mean of the two values of middle rank for an even
    one, NaN for no value. *)
Definition is_median (vals : list float) (v : float) : Prop :=
  let n := Z.of_nat (length vals) in
  match vals with
  | [] => v = nan
  | _ :: _ =>
      if Z.odd n then order_stat vals (n / 2) v
      else exists hi lo, order_stat vals (n / 2) hi
                         /\ order_stat vals (n / 2 - 1) lo
                         /\ v = ((hi + lo) / 2)%float
  end.

Definition has_required_columns (tracks : DataFrame) : Prop :=
  forall c, In c REQUIRED_TRACK_COLS -> In c (columns tracks).

(** No required label names two columns of the table. *)
Definition labels_unique (tracks : DataFrame) : Prop :=
  forall c, In c REQUIRED_TRACK_COLS -> repeated c (columns tracks) = false.

(** Every frame index fits a 64-bit integer, as in a pandas integer column. *)
Definition frames_int64 (l : list Track.t) : Prop :=
  Forall (fun r => - 2 ^ 63 <= Track.frame r < 2 ^ 63) l.

(** Every frame index is one a float64 holds exactly. *)
Definition frames_exact (l : list Track.t) : Prop :=
  Forall (fun r => Z.abs (Track.frame r) <= 2 ^ 53) l.

(** The lags the grouped [shift] accepts. *)
Definition lag_in_range (tau : Z) : Prop := 1 <= tau < 2 ^ 31.

(** The required columns a table lacks. *)
Definition is_missing (tracks : DataFrame) (c : string) : Prop :=
  In c REQUIRED_TRACK_COLS /\ ~ In c (columns tracks).

(** ** Sample tables *)

Definition pt (c f : Z) (t x y : float) : Track.t :=
  {| Track.cell_id := c; Track.frame := f;
     Track.t_min := t; Track.x_um := x; Track.y_um := y |}.

Definition tracks_of (l : list Track.t) : DataFrame :=
  {| columns := REQUIRED_TRACK_COLS; rows := l |}.

(** One trajectory, three frames, positions (0,0), (1,1), (3,3). *)
Definition three_points : DataFrame :=
  tracks_of [pt 1 0 0 0 0; pt 1 1 1 1 1; pt 1 2 2 3 3]%float.

(** The same trajectory sampled at times 0, 1.5 and 2 minutes. *)
Definition nonuniform : DataFrame :=
  tracks_of [pt 1 0 0 0 0; pt 1 1 1.5 1 1; pt 1 2 2 3 3]%float.

(** Two trajectories whose rows are interleaved and out of order. *)
Definition interleaved : DataFrame :=
  tracks_of [pt 2 1 1 5 5; pt 1 2 2 3 3; pt 2 0 0 4 4;
             pt 1 0 0 0 0; pt 1 1 1.5 1 1]%float.

(** A trajectory whose first position is not a number. *)
Definition nan_position : DataFrame :=
  tracks_of [pt 1 0 0 nan 0; pt 1 1 1 1 1]%float.

(** A trajectory whose first time stamp is not a number. *)
Definition nan_time : DataFrame :=
  tracks_of [pt 1 0 nan 0 0; pt 1 1 1 1 1; pt 1 2 6 2 2]%float.

(** A table without the [x_um] and [frame] columns, and an unrelated one. *)
Definition lacking_columns : DataFrame :=
  {| columns := ["y_um"; "label"; "t_min"; "cell_id"];
     rows := [pt 1 0 0 0 0; pt 1 1 1 1 1]%float |}.

(** All required columns, in another order, and two more. *)
Definition extra_columns : DataFrame :=
  {| columns := ["label"; "y_um"; "x_um"; "t_min"; "frame"; "cell_id"; "area"];
     rows := [pt 1 0 0 0 0; pt 1 1 1 1 1]%float |}.

(** A trajectory whose middle position is not a number, beside a clean one. *)
Definition nan_middle : DataFrame :=
  tracks_of [pt 1 0 0 0 0; pt 1 1 1 nan 1; pt 1 2 2 2 2;
             pt 2 0 0 0 0; pt 2 1 1 1 1]%float.

(** The same rows as [interleaved], in sorted order. *)
Definition interleaved_sorted : DataFrame :=
  tracks_of (sort_values (rows interleaved)).

(** A trajectory with a gap: frame 2 was not recorded. *)
Definition gapped : DataFrame :=
  tracks_of [pt 7 0 0 0 0; pt 7 1 1 1 1; pt 7 3 3 2 2]%float.

(** The required columns, [cell_id] twice. *)
Definition repeated_label : DataFrame :=
  {| columns := ["cell_id"; "frame"; "t_min"; "x_um"; "y_um"; "cell_id"];
     rows := [pt 1 0 0 0 0; pt 1 1 1 1 1]%float |}.

(** A trajectory recorded at frames 2^53 and 2^53 + 1. *)
Definition late_frames : DataFrame :=
  tracks_of [pt 1 (2 ^ 53) 0 0 0; pt 1 (2 ^ 53 + 1) 1 1 1]%float.

(** The table a call returned, empty when it raised. *)
Definition steps_of (r : result (list Step.t)) : list Step.t :=
  match r with
  | inr steps => steps
  | inl _ => []
  end.

(** Displacement and elapsed time of each step of a returned table. *)
Definition displacements (r : result (list Step.t))
  : list (float * float * float) :=
  map (fun s => (Step.dx_um s, Step.dy_um s, Step.tau_min s)) (steps_of r).

(** The steps of [three_points] at lags 1, 2 and 1 again. *)
Definition sample_steps : list Step.t :=
  steps_of (compute_steps_multi_tau three_points [1; 2; 1]).

(** A trajectory sampled at times 0, 1.5, 2 and 4 minutes. *)
Definition uneven : DataFrame :=
  tracks_of [pt 1 0 0 0 0; pt 1 1 1.5 1 1; pt 1 2 2 3 3; pt 1 3 4 4 4]%float.

(** The steps of [uneven] at lags 1 and 2: elapsed times 1.5, 0.5, 2 and
    2, 2.5. *)
Definition uneven_steps : list Step.t :=
  steps_of (compute_steps_multi_tau uneven [1; 2]).

(** The steps of [nan_time] at lag 1: elapsed times NaN and 5. *)
Definition nan_steps : list Step.t :=
  steps_of (compute_steps_for_tau nan_time 1).

(** ** Auxiliary notions used in the proofs *)

(** The rows that have a future row, each paired with it. *)
Definition with_future (ps : list (Track.t * option Track.t))
  : list (Track.t * Track.t) :=
  flat_map (fun p => match snd p with
                     | Some q => [(fst p, q)]
                     | None => []
                     end) ps.

(** The pairs the code forms on an already sorted table. *)
Definition shift_pairs (n : nat) (l : list Track.t) : list (Track.t * Track.t) :=
  with_future (combine l (groupby_shift n l)).

Definition opt_pair (r : Track.t) (o : option Track.t)
  : list (Track.t * Track.t) :=
  match o with
  | Some q => [(r, q)]
  | None => []
  end.

Definition key_eqb (k : Z * Z) (r : Track.t) : bool :=
  (Track.cell_id r =? fst k) && (Track.frame r =? snd k).

Definition KeySorted (l : list Track.t) : Prop :=
  StronglySorted (fun a b => key_le a b = true) l.

Definition KeyStrict (l : list Track.t) : Prop :=
  StronglySorted (fun a b => key_lt a b = true) l.

Definition CellSorted (l : list Track.t) : Prop :=
  StronglySorted (fun a b => Track.cell_id a <= Track.cell_id b) l.

Definition FrameStrict (p : list Track.t) : Prop :=
  StronglySorted (fun a b => Track.frame a < Track.frame b) p.

Definition sumZ (l : list Z) : Z := fold_right Z.add 0 l.

(** A row whose time stamp and coordinates are finite numbers. *)
Definition finite_row (r : Track.t) : bool :=
  is_finite (Track.x_um r) && is_finite (Track.y_um r)
  && is_finite (Track.t_min r).

(** The binary64 values that are neither NaN nor infinite. *)
Definition SFplain (x : spec_float) : Prop :=
  match x with
  | S754_zero _ | S754_finite _ _ _ => True
  | _ => False
  end.

(** ** Notions used in the proofs about the median *)

(** A rank for the binary64 values that are not NaN: the order of the
    ranks, taken lexicographically, is the order of the values. *)
Definition SFrank (f : spec_float) : Z * Z * Z :=
  match f with
  | S754_zero _ => (0, 0, 0)
  | S754_infinity false => (2, 0, 0)
  | S754_infinity true => (-2, 0, 0)
  | S754_nan => (3, 0, 0)
  | S754_finite false m e => (1, e, Zpos m)
  | S754_finite true m e => (-1, - e, Zneg m)
  end.

Definition rank_ltb (a b : Z * Z * Z) : bool :=
  let '(a1, a2, a3) := a in
  let '(b1, b2, b3) := b in
  (a1 <? b1) || ((a1 =? b1) && ((a2 <? b2) || ((a2 =? b2) && (a3 <? b3)))).

Definition frank (x : float) : Z * Z * Z := SFrank (Prim2SF x).

(** An array as [median_linear] hands it to the selection: no NaN. *)
Definition NoNaN (arr : list float) : Prop :=
  Forall (fun v => is_nan v = false) arr.

(** What one run of the inner loop of [kth_smallest_c] leaves behind. *)
Definition partitioned (arr : list float) (x : float) (left m i j : Z)
  (res : list float * Z * Z) : Prop :=
  let '(arr', i', j') := res in
  Permutation arr' arr /\
  (forall p, p < left \/ m < p -> get arr' p = get arr p) /\
  (forall p, left <= p <= m -> exists p0, left <= p0 <= m /\ get arr' p = get arr p0) /\
  j' < i' /\ i <= i' <= m + 1 /\ left - 1 <= j' <= j /\
  (forall p, left <= p < i' -> (x <? get arr' p)%float = false) /\
  (forall q, j' < q <= m -> (get arr' q <? x)%float = false) /\
  ((exists k, i <= k <= j /\ (get arr k <? x)%float = false /\
              (x <? get arr k)%float = false) -> i < i' /\ j' < j).

(** The invariants of the outer loop of [kth_smallest_c]. *)
Definition settled_left (arr : list float) (left : Z) : Prop :=
  forall p q, 0 <= p < left -> left <= q < Z.of_nat (length arr) ->
    (get arr q <? get arr p)%float = false.

Definition settled_right (arr : list float) (m : Z) : Prop :=
  forall p q, 0 <= p <= m -> m < q < Z.of_nat (length arr) ->
    (get arr q <? get arr p)%float = false.

(** The array when the selection stops: nothing before position [k] is
    above the value there, nothing after it is below. *)
Definition selected (arr : list float) (k : Z) : Prop :=
  (forall p, 0 <= p < k -> (get arr k <? get arr p)%float = false) /\
  (forall q, k < q < Z.of_nat (length arr) -> (get arr q <? get arr k)%float = false).

(** ** Order of the output, restriction to a trajectory *)

(** Steps compared by [(cell_id, frame_start)], as the sort compares rows. *)
Definition step_key_le (s t : Step.t) : Prop :=
  Step.cell_id s < Step.cell_id t
  \/ (Step.cell_id s = Step.cell_id t
      /\ Step.frame_start s <= Step.frame_start t).

Definition step_key_lt (s t : Step.t) : Prop :=
  Step.cell_id s < Step.cell_id t
  \/ (Step.cell_id s = Step.cell_id t
      /\ Step.frame_start s < Step.frame_start t).

(** The table reduced to the rows of one trajectory. *)
Definition restrict_to_cell (c : Z) (tracks : DataFrame) : DataFrame :=
  {| columns := columns tracks; rows := trajectory c (rows tracks) |}.

(** The steps of a returned table that belong to trajectory [c]. *)
Definition steps_of_cell (c : Z) (steps : list Step.t) : list Step.t :=
  filter (fun s => Step.cell_id s =? c) steps.

(** Two rows of cell 1 recorded at frame 0, among rows of cell 2. *)
Definition tied : DataFrame :=
  tracks_of [pt 1 0 0 0 0; pt 2 0 0 5 5; pt 1 0 9 9 9;
             pt 1 1 1 1 1; pt 2 1 1 6 6]%float.

(** The rows of [tied] in another order that keeps the two tied rows in
    their relative order. *)
Definition tied_moved : DataFrame :=
  tracks_of [pt 2 0 0 5 5; pt 1 0 0 0 0; pt 1 1 1 1 1;
             pt 1 0 9 9 9; pt 2 1 1 6 6]%float.

(** The trajectories of a table that have more than [tau_frames] rows. *)
Definition long_trajectories (tau_frames : Z) (l : list Track.t) : list Z :=
  filter (fun c => tau_frames <? Z.of_nat (length (trajectory c l)))
         (distinct (map Track.cell_id l)).

(** * Properties *)

(** ** The error monad *)

Lemma bind_ret {A B : Type} (a : A) (k : A -> result B) :
  (x <- ret a ;; k x) = k a.
Proof. reflexivity. Qed.

Lemma bind_raise {A B : Type} (e : error) (k : A -> result B) :
  (x <- raise e ;; k x) = raise e.
Proof. reflexivity. Qed.

Lemma mapM_total {A B : Type} (f : A -> result B) (g : A -> B) (l : list A) :
  (forall a, In a l -> f a = ret (g a)) -> mapM f l = ret (map g l).
Proof.
  induction l as [|a l IH]; intros Hf; simpl.
  - reflexivity.
  - rewrite (Hf a) by (left; reflexivity).
    rewrite bind_ret, IH by (intros b Hb; apply Hf; right; exact Hb).
    reflexivity.
Qed.

(** ** Validator *)

Lemma mem_In (c : string) (s : list string) : mem c s = true <-> In c s.
Proof.
  unfold mem. rewrite existsb_exists. split.
  - intros [d [Hd He]]. apply String.eqb_eq in He. subst d. exact Hd.
  - intros Hc. exists c. split; [exact Hc | apply String.eqb_refl].
Qed.

Lemma set_difference_In (a b : list string) (c : string) :
  In c (set_difference a b) <-> In c a /\ ~ In c b.
Proof.
  unfold set_difference. rewrite filter_In, negb_true_iff.
  rewrite <- (mem_In c b). destruct (mem c b); intuition congruence.
Qed.

Lemma missing_iff (tracks : DataFrame) (c : string) :
  In c (set_difference REQUIRED_TRACK_COLS (columns tracks))
  <-> is_missing tracks c.
Proof. apply set_difference_In. Qed.

Lemma StronglySorted_filter {A : Type} (R : A -> A -> Prop) (p : A -> bool)
      (l : list A) :
  StronglySorted R l -> StronglySorted R (filter p l).
Proof.
  induction 1 as [|a l Hs IH Hall]; simpl.
  - constructor.
  - destruct (p a); [constructor|]; try exact IH.
    rewrite Forall_forall in *. intros x Hx.
    apply filter_In in Hx. apply Hall, Hx.
Qed.

(** The order of [sorted]. *)

Lemma ascii_compare_lt_trans (a b c : ascii) :
  Ascii.compare a b = Lt -> Ascii.compare b c = Lt -> Ascii.compare a c = Lt.
Proof.
  unfold Ascii.compare. rewrite !N.compare_lt_iff. apply N.lt_trans.
Qed.

Lemma ascii_compare_refl (a : ascii) : Ascii.compare a a = Eq.
Proof. unfold Ascii.compare. apply N.compare_refl. Qed.

Lemma string_compare_lt_trans (a b c : string) :
  String.compare a b = Lt -> String.compare b c = Lt -> String.compare a c = Lt.
Proof.
  revert b c. induction a as [|x a IH]; intros [|y b] [|z c]; simpl;
    try discriminate; try reflexivity.
  destruct (Ascii.compare x y) eqn:Exy; try discriminate.
  - apply Ascii.compare_eq_iff in Exy. subst y.
    destruct (Ascii.compare x z); try discriminate; [apply IH|reflexivity].
  - intros _. destruct (Ascii.compare y z) eqn:Eyz; try discriminate.
    + apply Ascii.compare_eq_iff in Eyz. subst z. rewrite Exy. reflexivity.
    + rewrite (ascii_compare_lt_trans x y z Exy Eyz). reflexivity.
Qed.

Lemma string_leb_cases (a b : string) :
  String.leb a b = true <-> a = b \/ String.ltb a b = true.
Proof.
  unfold String.leb, String.ltb. destruct (String.compare a b) eqn:E.
  - apply String.compare_eq_iff in E. intuition.
  - intuition.
  - split; [discriminate|]. intros [-> | H]; [|discriminate].
    assert (R : String.compare b b = Eq).
    { clear E. induction b as [|x b IH]; simpl; [reflexivity|].
      rewrite ascii_compare_refl. exact IH. }
    congruence.
Qed.

Lemma string_ltb_trans (a b c : string) :
  String.ltb a b = true -> String.ltb b c = true -> String.ltb a c = true.
Proof.
  unfold String.ltb. intros H1 H2.
  destruct (String.compare a b) eqn:E1; try discriminate.
  destruct (String.compare b c) eqn:E2; try discriminate.
  rewrite (string_compare_lt_trans a b c E1 E2). reflexivity.
Qed.

Lemma string_leb_trans (a b c : string) :
  String.leb a b = true -> String.leb b c = true -> String.leb a c = true.
Proof.
  rewrite !string_leb_cases. intros [-> | H1] [-> | H2]; auto.
  right. eapply string_ltb_trans; eauto.
Qed.

Lemma insert_sorted_perm (c : string) (l : list string) :
  Permutation (insert_sorted c l) (c :: l).
Proof.
  induction l as [|d l IH]; simpl; [apply Permutation_refl|].
  destruct (String.leb c d); [apply Permutation_refl|].
  eapply Permutation_trans; [apply perm_skip, IH|apply perm_swap].
Qed.

Lemma sorted_perm (l : list string) : Permutation (sorted l) l.
Proof.
  induction l as [|c l IH]; simpl; [constructor|].
  eapply Permutation_trans; [apply insert_sorted_perm|].
  apply perm_skip, IH.
Qed.

Lemma insert_sorted_ascending (c : string) (l : list string) :
  StronglySorted (fun a b => String.leb a b = true) l ->
  StronglySorted (fun a b => String.leb a b = true) (insert_sorted c l).
Proof.
  induction 1 as [|d l Hs IH Hall]; simpl.
  - repeat constructor.
  - destruct (String.leb c d) eqn:E.
    + constructor; [constructor; assumption|].
      constructor; [exact E|].
      rewrite Forall_forall in *. intros x Hx.
      eapply string_leb_trans; [exact E|apply Hall, Hx].
    + constructor; [exact IH|].
      rewrite Forall_forall in *. intros x Hx.
      apply (Permutation_in _ (insert_sorted_perm c l)) in Hx.
      destruct Hx as [<- | Hx]; [|apply Hall, Hx].
      destruct (String.leb_total c d) as [H | H]; [congruence|exact H].
Qed.

Lemma sorted_ascending (l : list string) :
  StronglySorted (fun a b => String.leb a b = true) (sorted l).
Proof.
  induction l as [|c l IH]; simpl; [constructor|].
  apply insert_sorted_ascending, IH.
Qed.

(** An ascending list is determined by its elements. *)
Lemma ascending_unique (l1 l2 : list string) :
  StronglySorted (fun a b => String.leb a b = true) l1 ->
  StronglySorted (fun a b => String.leb a b = true) l2 ->
  Permutation l1 l2 -> l1 = l2.
Proof.
  intros H1. revert l2. induction H1 as [|a l1 Hs1 IH Hall1]; intros l2 H2 P.
  - apply Permutation_nil in P. congruence.
  - destruct H2 as [|b l2 Hs2 Hall2].
    + apply Permutation_sym, Permutation_nil in P. discriminate.
    + assert (E : a = b).
      { rewrite Forall_forall in Hall1, Hall2.
        assert (Ha : In a (b :: l2))
          by (apply (Permutation_in _ P); left; reflexivity).
        assert (Hb : In b (a :: l1))
          by (apply (Permutation_in _ (Permutation_sym P)); left; reflexivity).
        destruct Ha as [-> | Ha]; [reflexivity|].
        destruct Hb as [-> | Hb]; [reflexivity|].
        apply String.leb_antisym; [apply Hall1, Hb|apply Hall2, Ha]. }
      subst b. f_equal. apply IH; [exact Hs2|].
      eapply Permutation_cons_inv; eauto.
Qed.

(** [sorted] does not depend on the order in which a set lists its
    elements. *)
Lemma sorted_listing (l l' : list string) :
  Permutation l l' -> sorted l = sorted l'.
Proof.
  intros P. apply ascending_unique; try apply sorted_ascending.
  eapply Permutation_trans; [apply sorted_perm|].
  eapply Permutation_trans; [exact P|].
  apply Permutation_sym, sorted_perm.
Qed.

Lemma ascending_strict (l : list string) :
  NoDup l ->
  StronglySorted (fun a b => String.leb a b = true) l ->
  StronglySorted (fun a b => String.ltb a b = true) l.
Proof.
  intros Hnd Hs. induction Hs as [|a l Hs IH Hall]; [constructor|].
  inversion Hnd as [|? ? Hnotin Hnd']; subst.
  constructor; [apply IH, Hnd'|].
  rewrite Forall_forall in *. intros x Hx.
  destruct (proj1 (string_leb_cases a x) (Hall x Hx)) as [-> | H];
    [contradiction|exact H].
Qed.

Lemma sorted_strict (l : list string) :
  NoDup l -> StronglySorted (fun a b => String.ltb a b = true) (sorted l).
Proof.
  intros Hnd. apply ascending_strict; [|apply sorted_ascending].
  eapply Permutation_NoDup; [apply Permutation_sym, sorted_perm|exact Hnd].
Qed.

Lemma required_cols_NoDup : NoDup REQUIRED_TRACK_COLS.
Proof.
  unfold REQUIRED_TRACK_COLS.
  repeat (constructor; [simpl; intuition discriminate|]). constructor.
Qed.

Lemma set_difference_NoDup (a b : list string) :
  NoDup a -> NoDup (set_difference a b).
Proof. apply NoDup_filter. Qed.

Lemma validate_ok (tracks : DataFrame) :
  has_required_columns tracks -> validate_tracks tracks = ret tt.
Proof.
  intros Hreq. unfold validate_tracks.
  destruct (set_difference REQUIRED_TRACK_COLS (columns tracks)) as [|c l] eqn:E.
  - reflexivity.
  - assert (Hc : In c (set_difference REQUIRED_TRACK_COLS (columns tracks)))
      by (rewrite E; left; reflexivity).
    apply missing_iff in Hc. destruct Hc as [Hin Hout].
    contradiction (Hout (Hreq c Hin)).
Qed.

Lemma validate_missing (tracks : DataFrame) :
  (exists c, is_missing tracks c) ->
  validate_tracks tracks =
  raise (MissingColumns
           (sorted (set_difference REQUIRED_TRACK_COLS (columns tracks)))).
Proof.
  intros [c Hc]. apply missing_iff in Hc. unfold validate_tracks.
  destruct (set_difference REQUIRED_TRACK_COLS (columns tracks)) as [|d l] eqn:E.
  - contradiction.
  - reflexivity.
Qed.

Lemma has_required_columns_extra :
  has_required_columns extra_columns.
Proof.
  intros c Hc. unfold REQUIRED_TRACK_COLS in Hc. simpl in Hc. simpl.
  intuition (subst; auto 10).
Qed.

Lemma has_required_columns_tracks_of (l : list Track.t) :
  has_required_columns (tracks_of l).
Proof. intros c Hc. exact Hc. Qed.

(** C6. A table lacking required columns is rejected by [validate_tracks],
    [compute_steps_for_tau] and [compute_steps_multi_tau] alike, whatever
    the lag or the list of lags, with a [MissingColumns] error whose names
    are exactly the required columns the table lacks, in ascending order,
    in whatever order the set of missing names is listed before [sorted]
    puts it in order; a table holding every required column passes
    validation, further columns or not. *)
Theorem missing_columns_reported (tracks : DataFrame) :
  ((exists c, is_missing tracks c) ->
   exists names,
     validate_tracks tracks = raise (MissingColumns names)
     /\ (forall tau, compute_steps_for_tau tracks tau
                     = raise (MissingColumns names))
     /\ (forall taus, compute_steps_multi_tau tracks taus
                      = raise (MissingColumns names))
     /\ (forall c, In c names <-> is_missing tracks c)
     /\ StronglySorted (fun a b => String.ltb a b = true) names
     /\ (forall listing,
           Permutation listing
                       (set_difference REQUIRED_TRACK_COLS (columns tracks)) ->
           sorted listing = names))
  /\ (has_required_columns tracks -> validate_tracks tracks = ret tt).
Proof.
  split; [|apply validate_ok].
  intros Hmiss. pose proof (validate_missing tracks Hmiss) as Hv.
  exists (sorted (set_difference REQUIRED_TRACK_COLS (columns tracks))).
  split; [exact Hv|]. split; [|split; [|split; [|split]]].
  - intros tau. unfold compute_steps_for_tau. rewrite Hv. reflexivity.
  - intros taus. unfold compute_steps_multi_tau. rewrite Hv. reflexivity.
  - intros c. rewrite <- missing_iff. split; intros H.
    + apply (Permutation_in _ (sorted_perm _)), H.
    + apply (Permutation_in _ (Permutation_sym (sorted_perm _))), H.
  - apply sorted_strict, set_difference_NoDup, required_cols_NoDup.
  - intros listing P. apply sorted_listing, P.
Qed.

Lemma missing_columns_reported_witness :
  (exists names,
     validate_tracks lacking_columns = raise (MissingColumns names)
     /\ (forall tau, compute_steps_for_tau lacking_columns tau
                     = raise (MissingColumns names))
     /\ (forall taus, compute_steps_multi_tau lacking_columns taus
                      = raise (MissingColumns names))
     /\ (forall c, In c names <-> is_missing lacking_columns c)
     /\ StronglySorted (fun a b => String.ltb a b = true) names
     /\ (forall listing,
           Permutation listing
             (set_difference REQUIRED_TRACK_COLS (columns lacking_columns)) ->
           sorted listing = names))
  /\ validate_tracks extra_columns = ret tt.
Proof.
  split.
  - apply (proj1 (missing_columns_reported lacking_columns)).
    exists "x_um". split.
    + simpl. auto 10.
    + simpl. intuition discriminate.
  - apply (proj2 (missing_columns_reported extra_columns)).
    apply has_required_columns_extra.
Defined.

(** The two missing names of [lacking_columns], listed by the set in
    either order, are reported as [frame] before [x_um]. *)
Example lacking_columns_reported :
  validate_tracks lacking_columns = raise (MissingColumns ["frame"; "x_um"])
  /\ sorted ["x_um"; "frame"] = ["frame"; "x_um"]
  /\ sorted ["frame"; "x_um"] = ["frame"; "x_um"].
Proof. repeat split. Qed.

(** ** The sort of [sort_values] *)

Ltac key_cases :=
  unfold key_le, key_lt, key_eqb, key, same_cell in *; simpl in *;
  repeat match goal with
         | H : context [?a <? ?b] |- _ => destruct (Z.ltb_spec a b)
         | |- context [?a <? ?b] => destruct (Z.ltb_spec a b)
         | H : context [?a =? ?b] |- _ => destruct (Z.eqb_spec a b)
         | |- context [?a =? ?b] => destruct (Z.eqb_spec a b)
         end;
  simpl in *; try congruence; try lia.

Lemma key_le_total (a b : Track.t) : key_le a b = false -> key_le b a = true.
Proof. key_cases. Qed.

Lemma key_le_trans (a b c : Track.t) :
  key_le a b = true -> key_le b c = true -> key_le a c = true.
Proof. key_cases. Qed.

Lemma key_le_false_lt (a b : Track.t) : key_le a b = false -> key_lt b a = true.
Proof. unfold key_le. rewrite negb_false_iff. trivial. Qed.

Lemma key_lt_neq (a b : Track.t) : key_lt a b = true -> key a <> key b.
Proof. intros H E. injection E as E1 E2. key_cases. Qed.

Lemma key_le_neq_lt (a b : Track.t) :
  key_le a b = true -> key a <> key b -> key_lt a b = true.
Proof.
  intros H N.
  assert (N' : ~ (Track.cell_id a = Track.cell_id b
                  /\ Track.frame a = Track.frame b))
    by (intros [E1 E2]; apply N; unfold key; congruence).
  key_cases.
Qed.

Lemma key_lt_asym (a b : Track.t) :
  key_lt a b = true -> key_lt b a = true -> False.
Proof. key_cases. Qed.

Lemma key_le_cell (a b : Track.t) :
  key_le a b = true -> Track.cell_id a <= Track.cell_id b.
Proof. key_cases. Qed.

Lemma key_eqb_iff (k : Z * Z) (r : Track.t) : key_eqb k r = true <-> key r = k.
Proof.
  destruct k as [c f]. unfold key_eqb, key. simpl.
  rewrite andb_true_iff, !Z.eqb_eq. split.
  - intros [-> ->]. reflexivity.
  - intros E. injection E as -> ->. auto.
Qed.

Lemma insert_row_perm (r : Track.t) (l : list Track.t) :
  Permutation (insert_row r l) (r :: l).
Proof.
  induction l as [|h l IH]; simpl.
  - apply Permutation_refl.
  - destruct (key_le r h).
    + apply Permutation_refl.
    + apply perm_trans with (h :: r :: l).
      * apply perm_skip, IH.
      * apply perm_swap.
Qed.

Lemma sort_values_perm (l : list Track.t) : Permutation (sort_values l) l.
Proof.
  induction l as [|r l IH]; simpl.
  - constructor.
  - apply perm_trans with (r :: sort_values l).
    + apply insert_row_perm.
    + apply perm_skip, IH.
Qed.

Lemma sort_values_In (l : list Track.t) (r : Track.t) :
  In r (sort_values l) <-> In r l.
Proof.
  split; apply Permutation_in;
    [apply sort_values_perm | apply Permutation_sym, sort_values_perm].
Qed.

Lemma insert_row_sorted (r : Track.t) (l : list Track.t) :
  KeySorted l -> KeySorted (insert_row r l).
Proof.
  unfold KeySorted. induction 1 as [|h l Hs IH Hall]; simpl.
  - repeat constructor.
  - destruct (key_le r h) eqn:E.
    + constructor; [constructor; assumption|].
      constructor; [exact E|].
      rewrite Forall_forall in *. intros x Hx.
      apply key_le_trans with h; [exact E | apply Hall, Hx].
    + constructor; [exact IH|].
      rewrite Forall_forall in *. intros x Hx.
      apply (Permutation_in _ (insert_row_perm r l)) in Hx.
      destruct Hx as [<- | Hx]; [apply key_le_total, E | apply Hall, Hx].
Qed.

Lemma sort_values_sorted (l : list Track.t) : KeySorted (sort_values l).
Proof.
  induction l as [|r l IH]; simpl.
  - constructor.
  - apply insert_row_sorted, IH.
Qed.

Lemma StronglySorted_weaken {A : Type} (R S : A -> A -> Prop) (l : list A) :
  (forall a b, In a l -> In b l -> R a b -> S a b) ->
  StronglySorted R l -> StronglySorted S l.
Proof.
  intros Hw Hs. induction Hs as [|a l Hs IH Hall].
  - constructor.
  - constructor.
    + apply IH. intros x y Hx Hy. apply Hw; right; assumption.
    + rewrite Forall_forall in *. intros x Hx.
      apply Hw; [left; reflexivity | right; exact Hx | apply Hall, Hx].
Qed.

Lemma sort_values_cell_sorted (l : list Track.t) : CellSorted (sort_values l).
Proof.
  apply StronglySorted_weaken with (R := fun a b => key_le a b = true).
  - intros a b _ _. apply key_le_cell.
  - apply sort_values_sorted.
Qed.

(** Insertion places a row ahead of the rows that share its key. *)
Lemma insert_row_stable (k : Z * Z) (r : Track.t) (l : list Track.t) :
  filter (key_eqb k) (insert_row r l) = filter (key_eqb k) (r :: l).
Proof.
  induction l as [|h l IH].
  - reflexivity.
  - simpl insert_row. destruct (key_le r h) eqn:E.
    + reflexivity.
    + apply key_le_false_lt, key_lt_neq in E.
      simpl filter in *. rewrite IH.
      destruct (key_eqb k h) eqn:Eh, (key_eqb k r) eqn:Er; try reflexivity.
      apply key_eqb_iff in Eh, Er. congruence.
Qed.

(** C9. The sort that [compute_steps_for_tau] applies first is stable: the
    rows that share a [(cell_id, frame)] key come out of it in the order in
    which the input table lists them, and the sorted table is an ascending
    rearrangement of the input. *)
Theorem sort_values_stable (l : list Track.t) :
  (forall k, filter (key_eqb k) (sort_values l) = filter (key_eqb k) l)
  /\ KeySorted (sort_values l)
  /\ Permutation (sort_values l) l.
Proof.
  split; [|split; [apply sort_values_sorted | apply sort_values_perm]].
  intros k. induction l as [|r l IH].
  - reflexivity.
  - simpl sort_values. rewrite insert_row_stable. simpl. rewrite IH.
    reflexivity.
Qed.

(** ** Partitions and pairs *)

Lemma distinct_In (l : list Z) (c : Z) : In c (distinct l) <-> In c l.
Proof.
  induction l as [|d l IH]; simpl.
  - tauto.
  - rewrite filter_In, IH, negb_true_iff, Z.eqb_neq.
    destruct (Z.eq_dec d c); intuition congruence.
Qed.

Lemma distinct_NoDup (l : list Z) : NoDup (distinct l).
Proof.
  induction l as [|d l IH]; simpl.
  - constructor.
  - constructor.
    + rewrite filter_In, negb_true_iff, Z.eqb_neq. tauto.
    + apply NoDup_filter, IH.
Qed.

Lemma filter_neq_notin (c : Z) (D : list Z) :
  ~ In c D -> filter (fun d => negb (d =? c)) D = D.
Proof.
  intros Hc. apply forallb_filter_id, forallb_forall.
  intros d Hd. rewrite negb_true_iff, Z.eqb_neq. congruence.
Qed.

Lemma filter_neq_idem (c : Z) (D : list Z) :
  filter (fun d => negb (d =? c)) (filter (fun d => negb (d =? c)) D)
  = filter (fun d => negb (d =? c)) D.
Proof.
  apply forallb_filter_id, forallb_forall.
  intros d Hd. apply filter_In in Hd. tauto.
Qed.

Lemma trajectory_In (c : Z) (l : list Track.t) (r : Track.t) :
  In r (trajectory c l) <-> In r l /\ Track.cell_id r = c.
Proof. unfold trajectory. rewrite filter_In, Z.eqb_eq. tauto. Qed.

Lemma trajectory_nil (c : Z) (l : list Track.t) :
  ~ In c (map Track.cell_id l) -> trajectory c l = [].
Proof.
  intros Hc. destruct (trajectory c l) as [|r g] eqn:E; [reflexivity|].
  assert (Hr : In r (trajectory c l)) by (rewrite E; left; reflexivity).
  apply trajectory_In in Hr. destruct Hr as [Hr <-].
  contradiction Hc. apply in_map, Hr.
Qed.

Lemma trajectory_cons_same (r : Track.t) (l : list Track.t) :
  trajectory (Track.cell_id r) (r :: l) = r :: trajectory (Track.cell_id r) l.
Proof. unfold trajectory. simpl. rewrite Z.eqb_refl. reflexivity. Qed.

Lemma trajectory_cons_other (c : Z) (r : Track.t) (l : list Track.t) :
  Track.cell_id r <> c -> trajectory c (r :: l) = trajectory c l.
Proof.
  intros N. unfold trajectory. simpl.
  destruct (Z.eqb_spec (Track.cell_id r) c); [contradiction | reflexivity].
Qed.

Lemma partition_by_cell_cons (r : Track.t) (l : list Track.t) :
  partition_by_cell (r :: l) =
  (r :: trajectory (Track.cell_id r) l)
    :: map (fun c => trajectory c l)
           (filter (fun d => negb (d =? Track.cell_id r))
                   (distinct (map Track.cell_id l))).
Proof.
  unfold partition_by_cell. cbn [map distinct].
  rewrite trajectory_cons_same. f_equal.
  apply map_ext_in. intros c Hc. apply filter_In in Hc.
  destruct Hc as [_ Hc]. rewrite negb_true_iff, Z.eqb_neq in Hc.
  apply trajectory_cons_other. congruence.
Qed.

(** In a table sorted by cell, a row whose cell occurs further down is
    directly followed by a row of that cell. *)
Lemma cell_sorted_head (r h : Track.t) (l : list Track.t) :
  CellSorted (r :: h :: l) ->
  In (Track.cell_id r) (map Track.cell_id (h :: l)) ->
  Track.cell_id h = Track.cell_id r.
Proof.
  intros Hs Hin. apply StronglySorted_inv in Hs. destruct Hs as [Hs Hr].
  apply StronglySorted_inv in Hs. destruct Hs as [_ Hh].
  rewrite Forall_forall in Hr, Hh.
  apply in_map_iff in Hin. destruct Hin as [q [Eq Hq]].
  pose proof (Hr h (or_introl eq_refl)) as H1.
  destruct Hq as [<- | Hq]; [exact Eq|].
  pose proof (Hh q Hq) as H2. lia.
Qed.

Lemma partition_split {B : Type} (P : list Track.t -> list B)
      (r : Track.t) (l : list Track.t) :
  P [] = [] ->
  CellSorted (r :: l) ->
  exists X,
    flat_map P (partition_by_cell (r :: l))
    = P (r :: trajectory (Track.cell_id r) l) ++ X
    /\ flat_map P (partition_by_cell l)
       = P (trajectory (Track.cell_id r) l) ++ X.
Proof.
  intros HP Hs.
  exists (flat_map P (map (fun c => trajectory c l)
                          (filter (fun d => negb (d =? Track.cell_id r))
                                  (distinct (map Track.cell_id l))))).
  split.
  - rewrite partition_by_cell_cons. reflexivity.
  - destruct (in_dec Z.eq_dec (Track.cell_id r) (map Track.cell_id l))
      as [Hin | Hout].
    + destruct l as [|h l]; [contradiction|].
      pose proof (cell_sorted_head r h l Hs Hin) as Eh.
      rewrite <- Eh. rewrite partition_by_cell_cons.
      cbn [flat_map map distinct filter]. rewrite Z.eqb_refl. cbn [negb].
      rewrite filter_neq_idem, trajectory_cons_same.
      f_equal. f_equal. apply map_ext_in. intros c Hc.
      apply filter_In in Hc. destruct Hc as [_ Hc].
      rewrite negb_true_iff, Z.eqb_neq in Hc.
      symmetry. apply trajectory_cons_other. congruence.
    + rewrite (trajectory_nil _ _ Hout), HP. simpl app.
      rewrite filter_neq_notin by (rewrite distinct_In; exact Hout).
      reflexivity.
Qed.

Lemma skipn_S_tl {A : Type} (m : nat) (l : list A) :
  skipn (S m) l = tl (skipn m l).
Proof.
  revert l. induction m as [|m IH]; intros [|a l]; try reflexivity.
  rewrite skipn_cons. rewrite IH. reflexivity.
Qed.

Lemma pair_rows_nil (n : nat) : pair_rows n [] = [].
Proof. reflexivity. Qed.

Lemma pair_rows_cons (n : nat) (r : Track.t) (g : list Track.t) :
  (0 < n)%nat ->
  pair_rows n (r :: g) = opt_pair r (nth_error (r :: g) n) ++ pair_rows n g.
Proof.
  intros Hn. destruct n as [|m]; [lia|].
  unfold pair_rows. rewrite skipn_cons, skipn_S_tl. simpl nth_error.
  rewrite <- hd_error_skipn.
  destruct (skipn m g) as [|q qs]; simpl.
  - destruct g; reflexivity.
  - reflexivity.
Qed.

Lemma shift_pairs_cons (n : nat) (r : Track.t) (l : list Track.t) :
  shift_pairs n (r :: l) =
  opt_pair r (nth_error (r :: trajectory (Track.cell_id r) l) n)
  ++ shift_pairs n l.
Proof.
  unfold shift_pairs, with_future. simpl groupby_shift. simpl combine.
  simpl flat_map. unfold same_cell at 1. rewrite Z.eqb_refl.
  reflexivity.
Qed.

(** On a table sorted by cell, [groupby] and [shift] pair exactly what
    partitioning and pairing by position pair, in the same order. *)
Lemma shift_pairs_partition (n : nat) (l : list Track.t) :
  (0 < n)%nat -> CellSorted l ->
  shift_pairs n l = flat_map (pair_rows n) (partition_by_cell l).
Proof.
  intros Hn. induction l as [|r l IH]; intros Hs.
  - reflexivity.
  - destruct (partition_split (pair_rows n) r l (pair_rows_nil n) Hs)
      as [X [E1 E2]].
    rewrite shift_pairs_cons, E1, pair_rows_cons by exact Hn.
    rewrite IH by (apply StronglySorted_inv in Hs; apply Hs).
    rewrite E2, app_assoc. reflexivity.
Qed.

(** ** Differences of finite floats *)

Lemma shr_1_nonneg (mrs : shr_record) :
  0 <= shr_m mrs -> 0 <= shr_m (shr_1 mrs).
Proof.
  destruct mrs as [m r s]. simpl.
  destruct m as [|p|p]; [| destruct p | ]; simpl; lia.
Qed.

Lemma iter_pos_shr_1_nonneg (p : positive) (mrs : shr_record) :
  0 <= shr_m mrs -> 0 <= shr_m (iter_pos shr_1 p mrs).
Proof.
  revert mrs. induction p as [p IH | p IH |]; intros mrs H; simpl.
  - apply IH, IH, shr_1_nonneg, H.
  - apply IH, IH, H.
  - apply shr_1_nonneg, H.
Qed.

Lemma shr_fexp_nonneg (m e : Z) (l : location) :
  0 <= m -> 0 <= shr_m (fst (shr_fexp prec emax m e l)).
Proof.
  intros H. unfold shr_fexp, shr.
  assert (H0 : 0 <= shr_m (shr_record_of_loc m l))
    by (destruct l as [|[]]; exact H).
  destruct (fexp prec emax (Zdigits2 m + e) - e); simpl; try exact H0.
  apply iter_pos_shr_1_nonneg, H0.
Qed.

Lemma round_nearest_even_nonneg (m : Z) (l : location) :
  0 <= m -> 0 <= round_nearest_even m l.
Proof.
  intros H. destruct l as [|[]]; simpl; try lia.
  destruct (Z.even m); lia.
Qed.

Lemma binary_round_aux_not_nan (sx : bool) (mx ex : Z) (lx : location) :
  0 <= mx -> binary_round_aux prec emax sx mx ex lx <> S754_nan.
Proof.
  intros H. unfold binary_round_aux.
  pose proof (shr_fexp_nonneg mx ex lx H) as H1.
  destruct (shr_fexp prec emax mx ex lx) as [mrs' e']. simpl in H1.
  pose proof (shr_fexp_nonneg _ e' loc_Exact
                (round_nearest_even_nonneg _ (loc_of_shr_record mrs') H1))
    as H2.
  destruct (shr_fexp prec emax _ e' loc_Exact) as [mrs'' e'']. simpl in H2.
  destruct (shr_m mrs'') as [|p|p]; try discriminate; [|lia].
  destruct (e'' <=? emax - prec); discriminate.
Qed.

Lemma binary_normalize_not_nan (m e : Z) (s : bool) :
  binary_normalize prec emax m e s <> S754_nan.
Proof.
  unfold binary_normalize, binary_round.
  destruct m as [|p|p]; try discriminate;
    destruct (shl_align _ _ _) as [mz ez];
    apply binary_round_aux_not_nan; lia.
Qed.

Lemma SF64sub_not_nan (x y : spec_float) :
  SFplain x -> SFplain y -> SF64sub x y <> S754_nan.
Proof.
  unfold SF64sub, SFsub.
  destruct x as [sx|sx| |sx mx ex], y as [sy|sy| |sy my ey]; simpl;
    try tauto; intros _ _; try discriminate.
  - destruct sx, sy; discriminate.
  - apply binary_normalize_not_nan.
Qed.

Lemma Prim2SF_plain (f : float) : is_finite f = true -> SFplain (Prim2SF f).
Proof.
  unfold is_finite. rewrite negb_true_iff, orb_false_iff. intros [Hn Hi].
  unfold Prim2SF. rewrite Hn, Hi.
  destruct (is_zero f); [exact I|].
  destruct (Z.frexp f) as [r e].
  destruct (shr_fexp _ _ _ _ _) as [s e'].
  destruct (shr_m s); exact I.
Qed.

Lemma is_nan_Prim2SF (f : float) : is_nan f = true -> Prim2SF f = S754_nan.
Proof. intros H. unfold Prim2SF. rewrite H. reflexivity. Qed.

(** The difference of two finite floats may overflow, but it is a number. *)
Lemma sub_finite_notna (a b : float) :
  is_finite a = true -> is_finite b = true -> notna (a - b) = true.
Proof.
  intros Ha Hb. unfold notna. apply negb_true_iff.
  destruct (is_nan (a - b)) eqn:E; [|reflexivity].
  apply is_nan_Prim2SF in E. rewrite sub_spec in E.
  exfalso. revert E. apply SF64sub_not_nan; apply Prim2SF_plain; assumption.
Qed.

Lemma finite_notna (a : float) : is_finite a = true -> notna a = true.
Proof.
  unfold is_finite, notna. rewrite negb_true_iff, orb_false_iff.
  intros [-> _]. reflexivity.
Qed.

(** ** Frames through a float64 column *)

Lemma digits2_pos_bounds (p : positive) :
  2 ^ (Zpos (digits2_pos p) - 1) <= Zpos p < 2 ^ Zpos (digits2_pos p).
Proof.
  induction p as [p IH | p IH |]; simpl digits2_pos.
  - rewrite Pos2Z.inj_succ.
    replace (Z.succ (Zpos (digits2_pos p)) - 1) with (Zpos (digits2_pos p)) by lia.
    rewrite Z.pow_succ_r by lia.
    replace (Zpos (digits2_pos p)) with ((Zpos (digits2_pos p) - 1) + 1) at 1 by lia.
    rewrite Z.pow_add_r by lia. lia.
  - rewrite Pos2Z.inj_succ.
    replace (Z.succ (Zpos (digits2_pos p)) - 1) with (Zpos (digits2_pos p)) by lia.
    rewrite Z.pow_succ_r by lia.
    replace (Zpos (digits2_pos p)) with ((Zpos (digits2_pos p) - 1) + 1) at 1 by lia.
    rewrite Z.pow_add_r by lia. lia.
  - simpl. lia.
Qed.

Lemma digits2_pos_le (p : positive) (k : Z) :
  Zpos p < 2 ^ k -> 0 <= k -> Zpos (digits2_pos p) <= k.
Proof.
  intros H Hk. destruct (Z.le_gt_cases (Zpos (digits2_pos p)) k) as [L | G]; [exact L|].
  pose proof (digits2_pos_bounds p) as [B _].
  assert (2 ^ k <= 2 ^ (Zpos (digits2_pos p) - 1)) by (apply Z.pow_le_mono_r; lia).
  lia.
Qed.

Lemma iter_xO_value (p k : positive) :
  Zpos (Pos.iter xO p k) = Zpos p * 2 ^ Zpos k.
Proof.
  induction k as [|k IH] using Pos.peano_ind.
  - simpl. lia.
  - rewrite Pos.iter_succ, Pos2Z.inj_succ, Z.pow_succ_r by lia.
    rewrite Pos2Z.inj_xO, IH. lia.
Qed.

Lemma iter_xO_digits (p k : positive) :
  digits2_pos (Pos.iter xO p k) = (digits2_pos p + k)%positive.
Proof.
  induction k as [|k IH] using Pos.peano_ind.
  - simpl. lia.
  - rewrite Pos.iter_succ. simpl. rewrite IH. lia.
Qed.

Lemma fexp_small (d : Z) : 1 <= d <= 53 -> fexp prec emax d = d - 53.
Proof. intros H. unfold fexp, SpecFloat.emin, prec, emax. lia. Qed.

Lemma binary_round_aux_exact (s : bool) (mz : positive) (ez : Z) :
  Zpos (digits2_pos mz) = 53 -> -52 <= ez <= 0 ->
  binary_round_aux prec emax s (Zpos mz) ez loc_Exact = S754_finite s mz ez.
Proof.
  intros Hd He. unfold binary_round_aux, shr_fexp.
  assert (F : fexp prec emax (53 + ez) - ez = 0)
    by (unfold fexp, SpecFloat.emin, prec, emax; lia).
  assert (L : (ez <=? emax - prec) = true)
    by (apply Z.leb_le; unfold emax, prec; lia).
  cbn [Zdigits2 shr_record_of_loc]. rewrite Hd, F. cbn [shr].
  cbn [shr_m shr_r shr_s loc_of_shr_record round_nearest_even
       shr_record_of_loc Zdigits2].
  rewrite Hd, F. cbn [shr shr_m]. rewrite L. reflexivity.
Qed.

Lemma binary_round_small (s : bool) (p : positive) :
  Zpos p < 2 ^ 53 ->
  exists mz ez,
    binary_round prec emax s p 0 = S754_finite s mz ez
    /\ ez <= 0 /\ Z.shiftl (Zpos mz) ez = Zpos p.
Proof.
  intros Hp.
  pose proof (digits2_pos_le p 53 Hp ltac:(lia)) as Hd.
  assert (Hd1 : 1 <= Zpos (digits2_pos p)) by lia.
  unfold binary_round. rewrite Z.add_0_r, fexp_small by lia.
  unfold shl_align.
  destruct (Zpos (digits2_pos p) - 53 - 0) as [|k|k] eqn:E; try lia.
  - exists p, 0. split; [|split; [lia | reflexivity]].
    apply binary_round_aux_exact; lia.
  - exists (Pos.iter xO p k), (Zpos (digits2_pos p) - 53).
    split; [|split; [lia|]].
    + apply binary_round_aux_exact; [|lia].
      rewrite iter_xO_digits. lia.
    + rewrite iter_xO_value.
      replace (Zpos (digits2_pos p) - 53) with (- Zpos k) by lia.
      rewrite Z.shiftl_opp_r, Z.shiftr_div_pow2 by lia.
      apply Z.div_mul. lia.
Qed.

Lemma float64_roundtrip_small (z : Z) :
  Z.abs z <= 2 ^ 53 -> float64_to_int64 (int64_to_float64 z) = z.
Proof.
  intros Hz. destruct (Z.eq_dec (Z.abs z) (2 ^ 53)) as [E | N].
  - destruct (Z.abs_eq_or_opp z) as [A | A]; rewrite A in E.
    + subst z. reflexivity.
    + replace z with (- 2 ^ 53) by lia. reflexivity.
  - unfold int64_to_float64, binary_normalize.
    destruct z as [|p|p]; [reflexivity | |].
    + destruct (binary_round_small false p ltac:(lia)) as [mz [ez [-> [He Hv]]]].
      cbn [float64_to_int64 cond_Zopp]. rewrite Hv.
      assert (B : in_int64 (Zpos p) = true).
      { apply andb_true_iff. split; [apply Z.leb_le | apply Z.ltb_lt]; lia. }
      rewrite B. reflexivity.
    + destruct (binary_round_small true p ltac:(lia)) as [mz [ez [-> [He Hv]]]].
      cbn [float64_to_int64 cond_Zopp]. rewrite Hv.
      change (- Zpos p) with (Zneg p).
      assert (B : in_int64 (Zneg p) = true).
      { apply andb_true_iff. split; [apply Z.leb_le | apply Z.ltb_lt]; lia. }
      rewrite B. reflexivity.
Qed.

Lemma shr_1_range (mrs : shr_record) :
  0 <= shr_m mrs -> 0 <= shr_m (shr_1 mrs) <= shr_m mrs.
Proof.
  destruct mrs as [m r s]. simpl.
  destruct m as [|p|p]; [| destruct p | ]; simpl; lia.
Qed.

Lemma iter_pos_shr_1_range (p : positive) (mrs : shr_record) :
  0 <= shr_m mrs -> 0 <= shr_m (iter_pos shr_1 p mrs) <= shr_m mrs.
Proof.
  revert mrs. induction p as [p IH | p IH |]; intros mrs H; simpl.
  - pose proof (shr_1_range mrs H) as H1.
    pose proof (IH _ (proj1 H1)) as H2.
    pose proof (IH _ (proj1 H2)) as H3. lia.
  - pose proof (IH _ H) as H2.
    pose proof (IH _ (proj1 H2)) as H3. lia.
  - apply shr_1_range, H.
Qed.

Lemma shr_fexp_range (m e : Z) (l : location) :
  0 <= m ->
  0 <= shr_m (fst (shr_fexp prec emax m e l)) <= m
  /\ snd (shr_fexp prec emax m e l)
     <= Z.max e (fexp prec emax (Zdigits2 m + e)).
Proof.
  intros H. unfold shr_fexp, shr.
  assert (H0 : shr_m (shr_record_of_loc m l) = m)
    by (destruct l as [|[]]; reflexivity).
  destruct (fexp prec emax (Zdigits2 m + e) - e) as [|p|p] eqn:E;
    cbn [fst snd]; rewrite ?H0; try lia.
  pose proof (iter_pos_shr_1_range p (shr_record_of_loc m l)) as R.
  rewrite H0 in R. specialize (R H). lia.
Qed.

Lemma Zdigits2_le (m k : Z) : 0 <= m < 2 ^ k -> 0 <= k -> Zdigits2 m <= k.
Proof.
  intros [H0 H1] Hk. destruct m as [|p|p]; simpl; try lia.
  apply digits2_pos_le; assumption.
Qed.

Lemma round_nearest_even_range (m : Z) (l : location) :
  0 <= m -> m <= round_nearest_even m l <= m + 1.
Proof.
  intros H. destruct l as [|[]]; simpl; try lia.
  destruct (Z.even m); lia.
Qed.

Lemma binary_round_aux_plain (s : bool) (mx ex : Z) (lx : location) :
  0 <= mx < 2 ^ 64 -> ex <= 0 ->
  SFplain (binary_round_aux prec emax s mx ex lx).
Proof.
  intros [H0 H1] He. unfold binary_round_aux.
  pose proof (shr_fexp_range mx ex lx H0) as [R1 E1].
  pose proof (Zdigits2_le mx 64 (conj H0 H1) ltac:(lia)) as D1.
  destruct (shr_fexp prec emax mx ex lx) as [mrs' e']. cbn [fst snd] in R1, E1.
  pose proof (round_nearest_even_range (shr_m mrs') (loc_of_shr_record mrs')
                                       (proj1 R1)) as R2.
  set (m1 := round_nearest_even (shr_m mrs') (loc_of_shr_record mrs')) in *.
  assert (H2 : 0 <= m1 < 2 ^ 65) by (change (2 ^ 65) with (2 * 2 ^ 64); lia).
  pose proof (shr_fexp_range m1 e' loc_Exact (proj1 H2)) as [R3 E3].
  pose proof (Zdigits2_le m1 65 H2 ltac:(lia)) as D2.
  destruct (shr_fexp prec emax m1 e' loc_Exact) as [mrs'' e''].
  cbn [fst snd] in R3, E3.
  assert (Hd0 : 0 <= Zdigits2 mx) by (destruct mx; simpl; lia).
  assert (Hd1 : 0 <= Zdigits2 m1) by (destruct m1; simpl; lia).
  unfold fexp, SpecFloat.emin, prec, emax in *.
  destruct (shr_m mrs'') as [|p|p]; [exact I | | lia].
  destruct (Z.leb_spec e'' (1024 - 53)); [exact I | lia].
Qed.

Lemma int64_to_float64_plain (z : Z) :
  - 2 ^ 63 <= z < 2 ^ 63 -> SFplain (int64_to_float64 z).
Proof.
  intros Hz. unfold int64_to_float64, binary_normalize.
  assert (G : forall s p, Zpos p <= 2 ^ 63 ->
                          SFplain (binary_round prec emax s p 0)).
  { intros s p Hp. unfold binary_round, shl_align.
    destruct (fexp prec emax (Zpos (digits2_pos p) + 0) - 0) as [|k|k] eqn:E.
    - apply binary_round_aux_plain; lia.
    - apply binary_round_aux_plain; lia.
    - assert (Hd : Zpos (digits2_pos p) < 53)
        by (unfold fexp, SpecFloat.emin, prec, emax in E; lia).
      apply binary_round_aux_plain;
        [|unfold fexp, SpecFloat.emin, prec, emax in *; lia].
      split; [lia|].
      pose proof (digits2_pos_bounds (Pos.iter xO p k)) as [_ B].
      rewrite iter_xO_digits in B.
      assert (Zpos (digits2_pos p + k) = 53)
        by (unfold fexp, SpecFloat.emin, prec, emax in E; lia).
      rewrite H in B.
      assert (2 ^ 53 < 2 ^ 64) by (apply Z.pow_lt_mono_r; lia). lia. }
  destruct z as [|p|p]; [exact I | apply G; lia | apply G; lia].
Qed.

Lemma int64_frame_finite (z : Z) :
  - 2 ^ 63 <= z < 2 ^ 63 -> is_finite_frame (int64_to_float64 z) = true.
Proof.
  intros Hz. pose proof (int64_to_float64_plain z Hz) as H.
  destruct (int64_to_float64 z); simpl in *; tauto.
Qed.

Lemma int64_frame_notna (z : Z) : notna_frame (int64_to_float64 z) = true.
Proof.
  unfold int64_to_float64.
  pose proof (binary_normalize_not_nan z 0 false) as H.
  destruct (binary_normalize prec emax z 0 false); simpl; congruence.
Qed.

(** ** From pairs to steps *)

Lemma finish_steps (tau : Z) (ps : list (Track.t * option Track.t)) :
  mapM astype_int
       (dropna (map (fun p => raw_step tau (fst p) (snd p)) ps))
  = mapM cast (filter step_notna (map (step_of_pair tau) (with_future ps))).
Proof.
  induction ps as [|[r [q|]] ps IH].
  - reflexivity.
  - unfold dropna in *. simpl map. simpl filter.
    unfold step_notna at 1. cbn [raw_step shifted shifted_frame fst snd
      RawStep.dx_um RawStep.dy_um RawStep.frame_end RawStep.t_end_min
      step_of_pair Step.dx_um Step.dy_um Step.t_end_min].
    rewrite int64_frame_notna, andb_true_r.
    destruct (notna (Track.x_um q - Track.x_um r)
              && notna (Track.y_um q - Track.y_um r)
              && notna (Track.t_min q)) eqn:E.
    + cbn [mapM]. rewrite IH. reflexivity.
    + exact IH.
  - unfold dropna in *. simpl map. simpl filter.
    cbn [raw_step shifted shifted_frame fst snd
      RawStep.dx_um RawStep.dy_um RawStep.frame_end RawStep.t_end_min
      notna_frame].
    rewrite andb_false_r. simpl. exact IH.
Qed.

Lemma mapM_cast (l : list Step.t) :
  forallb (fun s => is_finite_frame (int64_to_float64 (Step.frame_end s))) l
  = true ->
  mapM cast l = ret (map recast l).
Proof.
  intros H. apply mapM_total. intros s Hs.
  rewrite forallb_forall in H. unfold cast. rewrite (H s Hs). reflexivity.
Qed.

Lemma mapM_cast_ret (l steps : list Step.t) :
  mapM cast l = ret steps ->
  forallb (fun s => is_finite_frame (int64_to_float64 (Step.frame_end s))) l
  = true
  /\ steps = map recast l.
Proof.
  revert steps. induction l as [|s l IH]; intros steps H; simpl in *.
  - injection H as <-. auto.
  - unfold cast at 1 in H.
    destruct (is_finite_frame (int64_to_float64 (Step.frame_end s)));
      [|discriminate H].
    rewrite bind_ret in H.
    destruct (mapM cast l) as [e | steps']; [discriminate H|].
    destruct (IH steps' eq_refl) as [H1 ->].
    rewrite bind_ret in H. injection H as <-. auto.
Qed.

Lemma labels_unique_tracks_of (l : list Track.t) :
  labels_unique (tracks_of l).
Proof.
  intros c Hc. unfold REQUIRED_TRACK_COLS in Hc. simpl in Hc.
  destruct Hc as [<- | [<- | [<- | [<- | [<- | []]]]]]; reflexivity.
Qed.

Lemma labels_unique_extra : labels_unique extra_columns.
Proof.
  intros c Hc. unfold REQUIRED_TRACK_COLS in Hc. simpl in Hc.
  destruct Hc as [<- | [<- | [<- | [<- | [<- | []]]]]]; reflexivity.
Qed.

(** What the checks on the labels amount to. *)
Lemma labels_unique_iff (tracks : DataFrame) :
  labels_unique tracks
  <-> repeated "cell_id" (columns tracks) = false
      /\ repeated "frame" (columns tracks) = false
      /\ existsb (fun c => repeated c (columns tracks))
                 ["t_min"; "x_um"; "y_um"] = false.
Proof.
  unfold labels_unique, REQUIRED_TRACK_COLS. simpl.
  rewrite !orb_false_iff. split.
  - intros H. repeat split; apply H; auto 10.
  - intros [H1 [H2 [H3 [H4 [H5 _]]]]] c
           [<- | [<- | [<- | [<- | [<- | []]]]]]; assumption.
Qed.

(** Past its checks, the code casts the reference steps that [dropna]
    keeps. *)
Lemma compute_steps_for_tau_run (tracks : DataFrame) (tau : Z) :
  has_required_columns tracks -> labels_unique tracks -> lag_in_range tau ->
  compute_steps_for_tau tracks tau
  = mapM cast (filter step_notna (reference_steps (rows tracks) tau)).
Proof.
  intros Hreq Hlab [Htau Hmax]. unfold compute_steps_for_tau.
  rewrite (validate_ok tracks Hreq), bind_ret.
  destruct (Z.ltb_spec tau 1) as [Hlt | _]; [lia|].
  apply labels_unique_iff in Hlab. destruct Hlab as [L1 [L2 L3]].
  cbn [mapM]. unfold get_label. rewrite L1, L2, !bind_ret.
  destruct (Z.leb_spec (2 ^ 31) tau) as [Hbig | _]; [lia|].
  rewrite L3, finish_steps.
  change (with_future (combine (sort_values (rows tracks))
            (groupby_shift (Z.to_nat tau) (sort_values (rows tracks)))))
    with (shift_pairs (Z.to_nat tau) (sort_values (rows tracks))).
  rewrite shift_pairs_partition
    by (try lia; apply sort_values_cell_sorted).
  reflexivity.
Qed.

Lemma compute_steps_for_tau_eq (tracks : DataFrame) (tau : Z) :
  has_required_columns tracks -> labels_unique tracks -> lag_in_range tau ->
  castable (rows tracks) tau = true ->
  compute_steps_for_tau tracks tau
  = ret (map recast (filter step_notna (reference_steps (rows tracks) tau))).
Proof.
  intros Hreq Hlab Htau Hcast.
  rewrite compute_steps_for_tau_run by assumption.
  apply mapM_cast, Hcast.
Qed.

(** ** Worked examples *)

Example three_points_lag_1 :
  displacements (compute_steps_for_tau three_points 1)
  = [(1, 1, 1); (2, 2, 1)]%float.
Proof. reflexivity. Qed.

Example three_points_lag_2 :
  displacements (compute_steps_for_tau three_points 2) = [(3, 3, 2)]%float.
Proof. reflexivity. Qed.

Example nonuniform_lag_1 :
  displacements (compute_steps_for_tau nonuniform 1)
  = [(1, 1, 1.5); (2, 2, 0.5)]%float.
Proof. reflexivity. Qed.

Example interleaved_cells :
  map Step.cell_id (steps_of (compute_steps_for_tau interleaved 1))
  = [1; 1; 2].
Proof. reflexivity. Qed.

Example three_points_summary :
  summary_by_tau (steps_of (compute_steps_for_tau three_points 1))
  = [{| Summary.tau_frames := 1; Summary.n_steps := 2;
        Summary.n_cells := 1; Summary.median_tau_min := 1 |}].
Proof. reflexivity. Qed.

(** Frames through the float64 column: exact up to 2^53, rounded to even
    above, and the largest 64-bit integer comes back as the least. *)
Example frames_through_float64 :
  map (fun f => float64_to_int64 (int64_to_float64 f))
      [0; -5; 2 ^ 53; 2 ^ 53 + 1; 2 ^ 53 + 3; 2 ^ 63 - 1; - 2 ^ 63]
  = [0; -5; 2 ^ 53; 2 ^ 53; 2 ^ 53 + 4; - 2 ^ 63; - 2 ^ 63].
Proof. vm_compute. reflexivity. Qed.

Example lag_at_c_int_limit :
  compute_steps_for_tau three_points (2 ^ 31) = raise ShiftOverflow.
Proof. vm_compute. reflexivity. Qed.

(** ** What a reference pair is made of *)

Lemma combine_In_nth {A B : Type} (l : list A) (l' : list B) (a : A) (b : B) :
  In (a, b) (combine l l') <->
  exists i, nth_error l i = Some a /\ nth_error l' i = Some b.
Proof.
  revert l'. induction l as [|x l IH]; intros [|y l']; simpl.
  - split; [tauto | intros [[|i] [H _]]; discriminate H].
  - split; [tauto | intros [[|i] [H _]]; discriminate H].
  - split; [tauto | intros [[|i] [_ H]]; discriminate H].
  - rewrite IH. split.
    + intros [E | [i Hi]].
      * exists O. injection E as -> ->. auto.
      * exists (S i). exact Hi.
    + intros [[|i] [H1 H2]]; simpl in *.
      * left. congruence.
      * right. exists i. auto.
Qed.

Lemma pair_rows_In (n : nat) (p : list Track.t) (a b : Track.t) :
  In (a, b) (pair_rows n p) <->
  exists i, nth_error p i = Some a /\ nth_error p (i + n) = Some b.
Proof.
  unfold pair_rows. rewrite combine_In_nth.
  split; intros [i [H1 H2]]; exists i; split; try exact H1.
  - rewrite nth_error_skipn, Nat.add_comm in H2. exact H2.
  - rewrite nth_error_skipn, Nat.add_comm. exact H2.
Qed.

Lemma reference_pairs_In (l : list Track.t) (tau : Z) (a b : Track.t) :
  In (a, b) (reference_pairs l tau) ->
  exists c i,
    nth_error (trajectory c (sort_values l)) i = Some a
    /\ nth_error (trajectory c (sort_values l)) (i + Z.to_nat tau) = Some b.
Proof.
  unfold reference_pairs, partition_by_cell. intros H.
  apply in_flat_map in H. destruct H as [p [Hp Hab]].
  apply in_map_iff in Hp. destruct Hp as [c [<- _]].
  apply pair_rows_In in Hab. exists c. exact Hab.
Qed.

Lemma trajectory_nth_In (c : Z) (l : list Track.t) (i : nat) (r : Track.t) :
  nth_error (trajectory c (sort_values l)) i = Some r ->
  In r l /\ Track.cell_id r = c.
Proof.
  intros H. apply nth_error_In, trajectory_In in H.
  rewrite sort_values_In in H. exact H.
Qed.

(** A pair never joins two trajectories. *)
Lemma reference_pairs_same_cell (l : list Track.t) (tau : Z) (a b : Track.t) :
  In (a, b) (reference_pairs l tau) ->
  In a l /\ In b l /\ Track.cell_id a = Track.cell_id b.
Proof.
  intros H. apply reference_pairs_In in H. destruct H as [c [i [Ha Hb]]].
  apply trajectory_nth_In in Ha, Hb. intuition congruence.
Qed.

Lemma In_kept (tracks : DataFrame) (tau : Z) (s : Step.t) :
  In s (filter step_notna (reference_steps (rows tracks) tau)) ->
  exists a b, In (a, b) (reference_pairs (rows tracks) tau)
              /\ s = step_of_pair tau (a, b).
Proof.
  intros H. apply filter_In in H. destruct H as [H _].
  unfold reference_steps in H. apply in_map_iff in H.
  destruct H as [[a b] [E H]]. exists a, b. auto.
Qed.

(** On a table of finite values no reference step holds a NaN. *)
Lemma finite_rows_notna (l : list Track.t) (tau : Z) :
  forallb finite_row l = true ->
  forallb step_notna (reference_steps l tau) = true.
Proof.
  intros Hfin. rewrite forallb_forall in *. intros s Hs.
  unfold reference_steps in Hs. apply in_map_iff in Hs.
  destruct Hs as [[a b] [<- Hab]].
  apply reference_pairs_same_cell in Hab. destruct Hab as [Ha [Hb _]].
  apply Hfin in Ha, Hb. unfold finite_row in Ha, Hb.
  rewrite !andb_true_iff in Ha, Hb.
  destruct Ha as [[Hxa Hya] Hta], Hb as [[Hxb Hyb] Htb].
  unfold step_notna. simpl.
  rewrite !sub_finite_notna, finite_notna by assumption. reflexivity.
Qed.

Lemma In_returned (tracks : DataFrame) (tau : Z) (s : Step.t) :
  In s (map recast (filter step_notna (reference_steps (rows tracks) tau))) ->
  exists a b, In (a, b) (reference_pairs (rows tracks) tau)
              /\ s = recast (step_of_pair tau (a, b)).
Proof.
  intros H. apply in_map_iff in H. destruct H as [s0 [<- H]].
  apply In_kept in H. destruct H as [a [b [Hab ->]]]. exists a, b. auto.
Qed.

Lemma recast_exact (s : Step.t) :
  Z.abs (Step.frame_end s) <= 2 ^ 53 -> recast s = s.
Proof.
  intros H. destruct s. unfold recast. cbn [Step.frame_end] in *.
  rewrite float64_roundtrip_small by exact H. reflexivity.
Qed.

Lemma frames_exact_int64 (l : list Track.t) :
  frames_exact l -> frames_int64 l.
Proof.
  apply Forall_impl. intros r H.
  assert (2 ^ 53 < 2 ^ 63) by (apply Z.pow_lt_mono_r; lia). lia.
Qed.

Lemma kept_frame_end (P : Z -> Prop) (l : list Track.t) (tau : Z) (s : Step.t) :
  Forall (fun r => P (Track.frame r)) l ->
  In s (filter step_notna (reference_steps l tau)) ->
  P (Step.frame_end s).
Proof.
  intros HP Hs. apply (In_kept {| columns := []; rows := l |}) in Hs.
  destruct Hs as [a [b [Hab ->]]].
  apply reference_pairs_same_cell in Hab. destruct Hab as [_ [Hb _]].
  rewrite Forall_forall in HP. exact (HP b Hb).
Qed.

Lemma frames_int64_castable (l : list Track.t) (tau : Z) :
  frames_int64 l -> castable l tau = true.
Proof.
  intros H. unfold castable. apply forallb_forall. intros s Hs.
  apply int64_frame_finite.
  exact (kept_frame_end (fun f => - 2 ^ 63 <= f < 2 ^ 63) l tau s H Hs).
Qed.

Lemma frames_exact_recast (l : list Track.t) (tau : Z) :
  frames_exact l ->
  map recast (filter step_notna (reference_steps l tau))
  = filter step_notna (reference_steps l tau).
Proof.
  intros H. rewrite <- (map_id (filter step_notna (reference_steps l tau))) at 2.
  apply map_ext_in. intros s Hs. apply recast_exact.
  exact (kept_frame_end (fun f => Z.abs f <= 2 ^ 53) l tau s H Hs).
Qed.

(** C1. For a table with the required columns, none of them under a
    repeated label, frames that fit 64-bit integers and a lag from 1 to
    2^31 - 1, [compute_steps_for_tau] returns the steps of the reference
    definition (sort by (cell_id, frame), partition by cell_id, pair row i
    with row i + tau_frames) from which the steps whose dx_um, dy_um or
    t_end_min is NaN are removed, each with its [frame_end] taken through
    a float64 column; it returns exactly the reference steps when every
    time stamp and coordinate of the table is finite and every frame is at
    most 2^53 in magnitude.  Every returned step joins two rows of the
    table that carry the same cell_id, takes frame_start and the times from
    them, has dx_um, dy_um and tau_min equal to the differences end minus
    start, tau_frames equal to the argument, and for frame_end the frame
    of the later row rounded to float64. *)
Theorem compute_steps_for_tau_reference (tracks : DataFrame) (tau : Z) :
  has_required_columns tracks -> labels_unique tracks ->
  frames_int64 (rows tracks) -> lag_in_range tau ->
  compute_steps_for_tau tracks tau
  = ret (map recast (filter step_notna (reference_steps (rows tracks) tau)))
  /\ (forallb finite_row (rows tracks) = true -> frames_exact (rows tracks) ->
      compute_steps_for_tau tracks tau
      = ret (reference_steps (rows tracks) tau))
  /\ (forall steps s,
        compute_steps_for_tau tracks tau = ret steps -> In s steps ->
        exists a b,
          In a (rows tracks) /\ In b (rows tracks)
          /\ Track.cell_id a = Step.cell_id s
          /\ Track.cell_id b = Step.cell_id s
          /\ Step.frame_start s = Track.frame a
          /\ Step.frame_end s
             = float64_to_int64 (int64_to_float64 (Track.frame b))
          /\ (Z.abs (Track.frame b) <= 2 ^ 53 ->
              Step.frame_end s = Track.frame b)
          /\ Step.t_start_min s = Track.t_min a
          /\ Step.t_end_min s = Track.t_min b
          /\ Step.dx_um s = (Track.x_um b - Track.x_um a)%float
          /\ Step.dy_um s = (Track.y_um b - Track.y_um a)%float
          /\ Step.tau_min s = (Track.t_min b - Track.t_min a)%float
          /\ Step.tau_frames s = tau).
Proof.
  intros Hreq Hlab Hint Htau.
  pose proof (compute_steps_for_tau_eq tracks tau Hreq Hlab Htau
                (frames_int64_castable _ _ Hint)) as E.
  split; [exact E|]. split.
  - intros Hfin Hex.
    rewrite E, frames_exact_recast by exact Hex.
    rewrite forallb_filter_id by (apply finite_rows_notna, Hfin).
    reflexivity.
  - intros steps s Hs Hin. rewrite E in Hs. injection Hs as <-.
    apply In_returned in Hin. destruct Hin as [a [b [Hab ->]]].
    apply reference_pairs_same_cell in Hab. destruct Hab as [Ha [Hb Hc]].
    exists a, b. simpl.
    repeat (split; [solve [assumption | reflexivity | congruence]|]).
    split; [apply float64_roundtrip_small|].
    repeat (split; [reflexivity|]). reflexivity.
Qed.

Lemma compute_steps_for_tau_reference_witness :
  compute_steps_for_tau interleaved 1
  = ret (reference_steps (rows interleaved) 1).
Proof.
  refine (proj1 (proj2
            (compute_steps_for_tau_reference interleaved 1 _ _ _ _)) _ _).
  - intros c Hc. exact Hc.
  - apply labels_unique_tracks_of.
  - repeat constructor; vm_compute; discriminate.
  - split; lia.
  - reflexivity.
  - repeat constructor; vm_compute; discriminate.
Defined.

(** A row whose position is NaN is paired by the reference definition and
    dropped by the code: its partner exists. *)
Lemma reference_not_met_on_nan :
  has_required_columns nan_position /\ labels_unique nan_position
  /\ length (reference_steps (rows nan_position) 1) = 1%nat
  /\ compute_steps_for_tau nan_position 1 = ret [].
Proof.
  split; [intros c Hc; exact Hc|].
  split; [apply labels_unique_tracks_of|].
  split; reflexivity.
Qed.

(** ** Counting steps *)

Lemma filter_perm {A : Type} (p : A -> bool) (l l' : list A) :
  Permutation l l' -> Permutation (filter p l) (filter p l').
Proof.
  induction 1 as [|x l l' H IH|x y l|l l' l'' H1 IH1 H2 IH2]; simpl.
  - constructor.
  - destruct (p x); [apply perm_skip|]; exact IH.
  - destruct (p x), (p y); try apply Permutation_refl. apply perm_swap.
  - apply perm_trans with (filter p l'); assumption.
Qed.

Lemma trajectory_length_sorted (c : Z) (l : list Track.t) :
  length (trajectory c (sort_values l)) = length (trajectory c l).
Proof.
  apply Permutation_length, filter_perm, sort_values_perm.
Qed.

Lemma sumZ_perm (l l' : list Z) : Permutation l l' -> sumZ l = sumZ l'.
Proof.
  induction 1 as [|x l l' H IH|x y l|l l' l'' H1 IH1 H2 IH2];
    unfold sumZ in *; simpl; lia.
Qed.

Lemma distinct_cells_perm (l l' : list Track.t) :
  Permutation l l' ->
  Permutation (distinct (map Track.cell_id l)) (distinct (map Track.cell_id l')).
Proof.
  intros H. apply NoDup_Permutation; try apply distinct_NoDup.
  intros c. rewrite !distinct_In.
  split; apply Permutation_in; [|apply Permutation_sym];
    apply Permutation_map, H.
Qed.

Lemma length_flat_map_Z {A B : Type} (f : A -> list B) (l : list A) :
  Z.of_nat (length (flat_map f l))
  = sumZ (map (fun a => Z.of_nat (length (f a))) l).
Proof.
  induction l as [|a l IH]; simpl.
  - reflexivity.
  - rewrite length_app, Nat2Z.inj_add, IH. reflexivity.
Qed.

Lemma length_pair_rows (n : nat) (p : list Track.t) :
  length (pair_rows n p) = (length p - n)%nat.
Proof.
  unfold pair_rows. rewrite length_combine, length_skipn. lia.
Qed.

(** The reference definition yields as many steps as the row-count law
    says. *)
Lemma length_reference_steps (l : list Track.t) (k : Z) :
  1 <= k ->
  Z.of_nat (length (reference_steps l k)) = row_count_law l k.
Proof.
  intros Hk. unfold reference_steps, reference_pairs, partition_by_cell.
  rewrite length_map, length_flat_map_Z, map_map.
  unfold row_count_law. fold sumZ.
  rewrite (sumZ_perm _ _
             (Permutation_map _
                (distinct_cells_perm _ _ (sort_values_perm l)))).
  unfold sumZ. f_equal. apply map_ext. intros c.
  rewrite length_pair_rows, trajectory_length_sorted. lia.
Qed.

Lemma length_filter_le {A : Type} (p : A -> bool) (l : list A) :
  (length (filter p l) <= length l)%nat.
Proof.
  induction l as [|a l IH]; simpl; [lia|].
  destruct (p a); simpl; lia.
Qed.

(** C2. For a table with the required columns, none of them under a
    repeated label, frames that fit 64-bit integers and a lag [k] from 1
    to 2^31 - 1, [compute_steps_for_tau] returns at most as many rows as
    the sum over trajectories of [max(0, N_c - k)], and exactly that many
    when no paired rows give a NaN dx_um, dy_um or t_end_min, in
    particular when every time stamp and coordinate of the table is
    finite; a trajectory with fewer than [k + 1] rows contributes no
    step. *)
Theorem row_count_law_bound (tracks : DataFrame) (k : Z) :
  has_required_columns tracks -> labels_unique tracks ->
  frames_int64 (rows tracks) -> lag_in_range k ->
  exists steps,
    compute_steps_for_tau tracks k = ret steps
    /\ Z.of_nat (length steps) <= row_count_law (rows tracks) k
    /\ (forallb step_notna (reference_steps (rows tracks) k) = true ->
        Z.of_nat (length steps) = row_count_law (rows tracks) k)
    /\ (forallb finite_row (rows tracks) = true ->
        Z.of_nat (length steps) = row_count_law (rows tracks) k)
    /\ (forall c,
          Z.of_nat (length (trajectory c (rows tracks))) < k + 1 ->
          forall s, In s steps -> Step.cell_id s <> c).
Proof.
  intros Hreq Hlab Hint [Hk Hmax].
  exists (map recast (filter step_notna (reference_steps (rows tracks) k))).
  split.
  { apply compute_steps_for_tau_eq; try assumption; [split; assumption|].
    apply frames_int64_castable, Hint. }
  rewrite length_map.
  rewrite <- (length_reference_steps (rows tracks) k Hk).
  assert (Hall : forallb step_notna (reference_steps (rows tracks) k) = true ->
                 Z.of_nat (length (filter step_notna
                                          (reference_steps (rows tracks) k)))
                 = Z.of_nat (length (reference_steps (rows tracks) k))).
  { intros Hall. rewrite forallb_filter_id by exact Hall. reflexivity. }
  split; [|split; [exact Hall|split]].
  - apply inj_le, length_filter_le.
  - intros Hfin. apply Hall, finite_rows_notna, Hfin.
  - intros c Hlen s Hs Hc.
    apply In_returned in Hs. destruct Hs as [a [b [Hab ->]]].
    apply reference_pairs_In in Hab. destruct Hab as [c' [i [Ha Hb]]].
    simpl in Hc. apply trajectory_nth_In in Ha. destruct Ha as [_ Ha].
    assert (Hlt : (i + Z.to_nat k
                   < length (trajectory c' (sort_values (rows tracks))))%nat)
      by (apply nth_error_Some; congruence).
    rewrite trajectory_length_sorted in Hlt.
    replace c' with c in Hlt by congruence. lia.
Qed.

Lemma row_count_law_bound_witness :
  exists steps,
    compute_steps_for_tau interleaved 2 = ret steps
    /\ Z.of_nat (length steps) <= row_count_law (rows interleaved) 2
    /\ Z.of_nat (length steps) = row_count_law (rows interleaved) 2
    /\ (forall s, In s steps -> Step.cell_id s <> 2).
Proof.
  destruct (row_count_law_bound interleaved 2)
    as [steps [E [Hle [_ [Heq Hc]]]]].
  - intros c Hc. exact Hc.
  - apply labels_unique_tracks_of.
  - repeat constructor; vm_compute; discriminate.
  - split; lia.
  - exists steps. split; [exact E|]. split; [exact Hle|]. split.
    + apply Heq. reflexivity.
    + apply Hc. vm_compute. reflexivity.
Defined.

(** With a NaN position in the middle of a three-row trajectory the code
    returns one row where the law counts three. *)
Lemma row_count_law_not_met_on_nan :
  has_required_columns nan_middle /\ labels_unique nan_middle
  /\ row_count_law (rows nan_middle) 1 = 3
  /\ exists steps,
       compute_steps_for_tau nan_middle 1 = ret steps
       /\ length steps = 1%nat.
Proof.
  split; [intros c Hc; exact Hc|].
  split; [apply labels_unique_tracks_of|].
  split; [reflexivity|].
  eexists. split; [vm_compute; reflexivity|reflexivity].
Qed.

(** ** The lag precondition *)

Lemma compute_steps_for_tau_invalid (tracks : DataFrame) (tau : Z) :
  has_required_columns tracks -> tau < 1 ->
  compute_steps_for_tau tracks tau = raise InvalidLag.
Proof.
  intros Hreq Htau. unfold compute_steps_for_tau.
  rewrite (validate_ok tracks Hreq), bind_ret.
  destruct (Z.ltb_spec tau 1); [reflexivity | lia].
Qed.

Lemma mapM_raise_inv {A B : Type} (f : A -> result B) (l : list A)
      (e : error) :
  mapM f l = raise e -> exists a, In a l /\ f a = raise e.
Proof.
  induction l as [|a l IH]; simpl; [discriminate|].
  destruct (f a) as [e' | b] eqn:E.
  - intros H. injection H as ->. exists a. auto.
  - rewrite bind_ret. destruct (mapM f l) as [e' | bs]; [|discriminate].
    intros H. injection H as ->.
    destruct (IH eq_refl) as [a' [Ha' Ea']]. exists a'. auto.
Qed.

(** From a lag of 1 on, whatever goes wrong is not the lag. *)
Lemma compute_steps_for_tau_not_invalid (tracks : DataFrame) (tau : Z) :
  1 <= tau -> compute_steps_for_tau tracks tau <> raise InvalidLag.
Proof.
  intros Htau. unfold compute_steps_for_tau, validate_tracks.
  destruct (set_difference REQUIRED_TRACK_COLS (columns tracks));
    [|discriminate].
  rewrite bind_ret.
  destruct (Z.ltb_spec tau 1) as [Hlt | _]; [lia|].
  cbn [mapM]. unfold get_label.
  destruct (repeated "cell_id" (columns tracks)); [discriminate|].
  destruct (repeated "frame" (columns tracks)); [discriminate|].
  rewrite !bind_ret.
  destruct (2 ^ 31 <=? tau); [discriminate|].
  destruct (existsb _ _); [discriminate|].
  intros H. apply mapM_raise_inv in H. destruct H as [s [_ H]].
  unfold astype_int in H.
  destruct (is_finite_frame (RawStep.frame_end s)); discriminate H.
Qed.

Lemma has_required_columns_repeated_label :
  has_required_columns repeated_label.
Proof.
  intros c Hc. unfold REQUIRED_TRACK_COLS in Hc. simpl in Hc. simpl.
  intuition (subst; auto 10).
Qed.

(** C5. On a table with the required columns [compute_steps_for_tau] fails
    with [InvalidLag] exactly when the lag is below 1, and then returns no
    table at all.  In particular it fails at 0 and at -1; at 1 it returns
    a table when no required label names two columns and the frames fit
    64-bit integers. *)
Theorem invalid_lag_iff (tracks : DataFrame) (tau : Z) :
  has_required_columns tracks ->
  (compute_steps_for_tau tracks tau = raise InvalidLag <-> tau < 1)
  /\ (tau < 1 -> forall steps, compute_steps_for_tau tracks tau <> ret steps)
  /\ compute_steps_for_tau tracks 0 = raise InvalidLag
  /\ compute_steps_for_tau tracks (-1) = raise InvalidLag
  /\ (labels_unique tracks -> frames_int64 (rows tracks) ->
      exists steps, compute_steps_for_tau tracks 1 = ret steps).
Proof.
  intros Hreq.
  assert (Hbad : forall t, t < 1 ->
                           compute_steps_for_tau tracks t = raise InvalidLag)
    by (intros t; apply compute_steps_for_tau_invalid, Hreq).
  split; [|split; [|split; [|split]]].
  - split; [|apply Hbad].
    intros E. destruct (Z.lt_ge_cases tau 1) as [Hlt | Hge]; [exact Hlt|].
    contradiction (compute_steps_for_tau_not_invalid tracks tau Hge E).
  - intros Hlt steps E. rewrite (Hbad tau Hlt) in E. discriminate E.
  - apply Hbad. lia.
  - apply Hbad. lia.
  - intros Hlab Hint. eexists.
    apply compute_steps_for_tau_eq; try assumption; [split; lia|].
    apply frames_int64_castable, Hint.
Qed.

Lemma invalid_lag_iff_witness :
  (compute_steps_for_tau three_points (-3) = raise InvalidLag <-> -3 < 1)
  /\ compute_steps_for_tau three_points 0 = raise InvalidLag
  /\ compute_steps_for_tau three_points (-1) = raise InvalidLag
  /\ exists steps, compute_steps_for_tau three_points 1 = ret steps.
Proof.
  destruct (invalid_lag_iff three_points (-3) (fun c Hc => Hc))
    as [H1 [_ [H2 [H3 H4]]]].
  split; [exact H1|]. split; [exact H2|]. split; [exact H3|].
  apply H4.
  - apply labels_unique_tracks_of.
  - repeat constructor; vm_compute; discriminate.
Defined.

(** A table that holds every required column, [cell_id] twice: the call
    at lag 1 does not return, [sort_values] refuses the repeated label. *)
Lemma lag_one_fails_on_repeated_label :
  has_required_columns repeated_label
  /\ validate_tracks repeated_label = ret tt
  /\ compute_steps_for_tau repeated_label 1
     = raise (LabelNotUnique "cell_id").
Proof.
  split; [apply has_required_columns_repeated_label|].
  split; reflexivity.
Qed.

(** ** Multi-lag composition *)

Lemma collect_blocks (tracks : DataFrame) (taus : list Z) :
  has_required_columns tracks -> labels_unique tracks ->
  frames_int64 (rows tracks) ->
  Forall lag_in_range taus ->
  exists blocks,
    Forall2 (fun tau b => compute_steps_for_tau tracks tau = ret b) taus blocks
    /\ mapM (compute_steps_for_tau tracks) taus = ret blocks.
Proof.
  intros Hreq Hlab Hint Hall. induction Hall as [|tau taus Htau Hall IH].
  - exists []. split; [constructor | reflexivity].
  - destruct IH as [blocks [HF HM]].
    pose proof (compute_steps_for_tau_eq tracks tau Hreq Hlab Htau
                  (frames_int64_castable _ _ Hint)) as E.
    eexists (_ :: blocks). split.
    + constructor; [exact E | exact HF].
    + cbn [mapM]. rewrite E, HM. reflexivity.
Qed.

(** C3. On a table with the required columns, none of them under a
    repeated label, frames that fit 64-bit integers and lags that are all
    from 1 to 2^31 - 1, [compute_steps_multi_tau] runs
    [compute_steps_for_tau] once per lag, in the order given and repeated
    lags included, and returns the blocks concatenated in that order when
    there is at least one lag; with no lag at all it raises instead of
    returning the empty concatenation. *)
Theorem multi_tau_concatenates (tracks : DataFrame) (taus : list Z) :
  has_required_columns tracks -> labels_unique tracks ->
  frames_int64 (rows tracks) ->
  Forall lag_in_range taus ->
  exists blocks,
    Forall2 (fun tau b => compute_steps_for_tau tracks tau = ret b) taus blocks
    /\ compute_steps_multi_tau tracks taus
       = match taus with
         | [] => raise NoObjectsToConcatenate
         | _ :: _ => ret (List.concat blocks)
         end.
Proof.
  intros Hreq Hlab Hint Hall.
  destruct (collect_blocks tracks taus Hreq Hlab Hint Hall) as [blocks [HF HM]].
  exists blocks. split; [exact HF|].
  unfold compute_steps_multi_tau.
  rewrite (validate_ok tracks Hreq), bind_ret, HM, bind_ret.
  destruct HF; reflexivity.
Qed.

Lemma multi_tau_concatenates_witness :
  exists b1 b2 b3,
    compute_steps_for_tau three_points 1 = ret b1
    /\ compute_steps_for_tau three_points 2 = ret b2
    /\ compute_steps_for_tau three_points 1 = ret b3
    /\ compute_steps_multi_tau three_points [1; 2; 1] = ret (b1 ++ b2 ++ b3).
Proof.
  destruct (multi_tau_concatenates three_points [1; 2; 1])
    as [blocks [HF E]].
  - intros c Hc. exact Hc.
  - apply labels_unique_tracks_of.
  - repeat constructor; vm_compute; discriminate.
  - repeat constructor; lia.
  - inversion HF as [|t1 b1 l1 r1 H1 HF1]; subst.
    inversion HF1 as [|t2 b2 l2 r2 H2 HF2]; subst.
    inversion HF2 as [|t3 b3 l3 r3 H3 HF3]; subst.
    inversion HF3; subst.
    exists b1, b2, b3. simpl in E. rewrite app_nil_r in E. auto.
Defined.

(** C4. On a table with the required columns, [compute_steps_multi_tau]
    called with no lag raises the error of [pd.concat] on an empty list; it
    does not return an empty table. *)
Theorem multi_tau_empty_raises (tracks : DataFrame) :
  has_required_columns tracks ->
  compute_steps_multi_tau tracks [] = raise NoObjectsToConcatenate
  /\ forall steps, compute_steps_multi_tau tracks [] <> ret steps.
Proof.
  intros Hreq.
  assert (E : compute_steps_multi_tau tracks [] = raise NoObjectsToConcatenate).
  { unfold compute_steps_multi_tau.
    rewrite (validate_ok tracks Hreq). reflexivity. }
  split; [exact E|]. intros steps H. rewrite E in H. discriminate H.
Qed.

Lemma multi_tau_empty_raises_witness :
  compute_steps_multi_tau three_points [] = raise NoObjectsToConcatenate
  /\ forall steps, compute_steps_multi_tau three_points [] <> ret steps.
Proof.
  apply (multi_tau_empty_raises three_points).
  intros c Hc. exact Hc.
Defined.

(** ** Independence of the input order *)

Lemma key_sorted_strict (l : list Track.t) :
  KeySorted l -> NoDup (map key l) -> KeyStrict l.
Proof.
  unfold KeySorted, KeyStrict. induction 1 as [|a l Hs IH Hall]; intros Hnd.
  - constructor.
  - simpl in Hnd. apply NoDup_cons_iff in Hnd. destruct Hnd as [Hout Hnd].
    constructor; [apply IH, Hnd|].
    rewrite Forall_forall in *. intros x Hx.
    apply key_le_neq_lt; [apply Hall, Hx|].
    intros E. apply Hout. rewrite E. apply in_map, Hx.
Qed.

(** A strictly ascending table is the only strictly ascending arrangement
    of its rows. *)
Lemma key_strict_unique (l1 l2 : list Track.t) :
  KeyStrict l1 -> KeyStrict l2 -> Permutation l1 l2 -> l1 = l2.
Proof.
  unfold KeyStrict. intros H1. revert l2.
  induction H1 as [|a l1 Hs1 IH Hall1]; intros l2 H2 Hp.
  - apply Permutation_nil in Hp. congruence.
  - destruct H2 as [|b l2 Hs2 Hall2].
    + apply Permutation_sym, Permutation_nil in Hp. discriminate Hp.
    + rewrite Forall_forall in Hall1, Hall2.
      assert (E : a = b).
      { pose proof (Permutation_in a Hp (or_introl eq_refl)) as Ha.
        pose proof (Permutation_in b (Permutation_sym Hp) (or_introl eq_refl))
          as Hb.
        destruct Ha as [Ha | Ha]; [congruence|].
        destruct Hb as [Hb | Hb]; [congruence|].
        exfalso. apply (key_lt_asym a b); [apply Hall1, Hb | apply Hall2, Ha]. }
      subst b. f_equal. apply IH; [exact Hs2|].
      apply Permutation_cons_inv with a, Hp.
Qed.

Lemma sort_values_perm_eq (l l' : list Track.t) :
  Permutation l l' -> NoDup (map key l) -> sort_values l' = sort_values l.
Proof.
  intros Hp Hnd.
  assert (Hp' : Permutation (sort_values l') (sort_values l)).
  { apply perm_trans with l'; [apply sort_values_perm|].
    apply perm_trans with l; [apply Permutation_sym, Hp|].
    apply Permutation_sym, sort_values_perm. }
  apply key_strict_unique; [| | exact Hp'].
  - apply key_sorted_strict; [apply sort_values_sorted|].
    apply Permutation_NoDup with (map key l); [|exact Hnd].
    apply Permutation_map.
    apply perm_trans with l'; [exact Hp|].
    apply Permutation_sym, sort_values_perm.
  - apply key_sorted_strict; [apply sort_values_sorted|].
    apply Permutation_NoDup with (map key l); [|exact Hnd].
    apply Permutation_map, Permutation_sym, sort_values_perm.
Qed.

(** C8. When no two rows share a (cell_id, frame) pair, a table whose rows
    are listed in any other order sorts to the same table, so
    [compute_steps_for_tau] returns on it what it returns on the original
    and on the sorted table: the same rows in the same order. *)
Theorem shuffle_independence (tracks tracks' : DataFrame) (tau : Z) :
  columns tracks' = columns tracks ->
  Permutation (rows tracks) (rows tracks') ->
  NoDup (map key (rows tracks)) ->
  compute_steps_for_tau tracks' tau
  = compute_steps_for_tau
      {| columns := columns tracks; rows := sort_values (rows tracks) |} tau
  /\ compute_steps_for_tau tracks' tau = compute_steps_for_tau tracks tau.
Proof.
  intros Hcols Hp Hnd.
  assert (E1 : sort_values (rows tracks') = sort_values (rows tracks))
    by (apply sort_values_perm_eq; assumption).
  assert (E2 : sort_values (sort_values (rows tracks))
               = sort_values (rows tracks))
    by (apply sort_values_perm_eq;
        [apply Permutation_sym, sort_values_perm | exact Hnd]).
  unfold compute_steps_for_tau, validate_tracks. simpl columns. simpl rows.
  rewrite Hcols, E1, E2. split; reflexivity.
Qed.

Lemma shuffle_independence_witness :
  compute_steps_for_tau interleaved 1
  = compute_steps_for_tau interleaved_sorted 1.
Proof.
  refine (proj2 (shuffle_independence interleaved_sorted interleaved 1 _ _ _)).
  - reflexivity.
  - apply sort_values_perm.
  - vm_compute. repeat (constructor; [simpl; intuition discriminate|]).
    constructor.
Defined.

(** ** Frames of a step *)

Lemma strongly_sorted_nth {A : Type} (R : A -> A -> Prop) (l : list A) :
  StronglySorted R l ->
  forall i j a b, (i < j)%nat ->
                  nth_error l i = Some a -> nth_error l j = Some b -> R a b.
Proof.
  induction 1 as [|x l Hs IH Hall]; intros i j a b Hij Ha Hb.
  - destruct i; discriminate Ha.
  - destruct j as [|j]; [lia|]. simpl in Hb. destruct i as [|i].
    + simpl in Ha. injection Ha as <-.
      rewrite Forall_forall in Hall. apply Hall.
      apply nth_error_In with j, Hb.
    + simpl in Ha. apply (IH i j); [lia | exact Ha | exact Hb].
Qed.

Lemma trajectory_frame_strict (c : Z) (l : list Track.t) :
  NoDup (map key l) -> FrameStrict (trajectory c (sort_values l)).
Proof.
  intros Hnd.
  apply StronglySorted_weaken with (R := fun a b => key_lt a b = true).
  - intros a b Ha Hb Hlt. apply trajectory_In in Ha, Hb.
    destruct Ha as [_ Ha], Hb as [_ Hb]. key_cases.
  - apply StronglySorted_filter, key_sorted_strict.
    + apply sort_values_sorted.
    + apply Permutation_NoDup with (map key l); [|exact Hnd].
      apply Permutation_map, Permutation_sym, sort_values_perm.
Qed.

Lemma nth_error_defined {A : Type} (l : list A) (i j : nat) (b : A) :
  (i <= j)%nat -> nth_error l j = Some b -> exists a, nth_error l i = Some a.
Proof.
  intros Hij Hb. destruct (nth_error l i) as [a|] eqn:E; [eauto|].
  apply nth_error_None in E.
  assert (j < length l)%nat by (apply nth_error_Some; congruence). lia.
Qed.

(** Rows [n] places apart in a trajectory are at least [n] frames apart. *)
Lemma frames_apart (p : list Track.t) (n i : nat) (a b : Track.t) :
  FrameStrict p ->
  nth_error p i = Some a -> nth_error p (i + n) = Some b ->
  Track.frame a + Z.of_nat n <= Track.frame b.
Proof.
  intros Hp. revert b. induction n as [|n IH]; intros b Ha Hb.
  - rewrite Nat.add_0_r in Hb. assert (a = b) by congruence. subst. lia.
  - destruct (nth_error_defined p (i + n) (i + S n) b ltac:(lia) Hb) as [m Hm].
    pose proof (IH m Ha Hm) as H1.
    pose proof (strongly_sorted_nth _ p Hp (i + n) (i + S n) m b
                                    ltac:(lia) Hm Hb) as H2.
    simpl in H2. lia.
Qed.

Lemma frame_strict_index (p : list Track.t) (i j : nat) (a b : Track.t) :
  FrameStrict p ->
  nth_error p i = Some a -> nth_error p j = Some b ->
  Track.frame a < Track.frame b -> (i < j)%nat.
Proof.
  intros Hp Ha Hb Hlt.
  destruct (Nat.lt_trichotomy i j) as [H | [H | H]]; [exact H | |].
  - subst j. assert (a = b) by congruence. subst. lia.
  - pose proof (strongly_sorted_nth _ p Hp j i b a H Hb Ha) as H'.
    simpl in H'. lia.
Qed.

(** Rows [n] places apart are exactly [n] frames apart when, and only when,
    every frame between theirs is recorded in the trajectory. *)
Lemma frames_consecutive (p : list Track.t) (n i : nat) (a b : Track.t) :
  FrameStrict p ->
  nth_error p i = Some a -> nth_error p (i + n) = Some b ->
  (Track.frame b = Track.frame a + Z.of_nat n
   <-> forall f, Track.frame a <= f <= Track.frame b ->
                 exists r, In r p /\ Track.frame r = f).
Proof.
  intros Hp Ha Hb. split.
  - intros E f Hf.
    assert (Hj : exists j, (j <= n)%nat /\ f = Track.frame a + Z.of_nat j)
      by (exists (Z.to_nat (f - Track.frame a)); lia).
    destruct Hj as [j [Hjn ->]].
    destruct (nth_error_defined p (i + j) (i + n) b ltac:(lia) Hb) as [r Hr].
    exists r. split; [apply nth_error_In with (i + j)%nat, Hr|].
    pose proof (frames_apart p j i a r Hp Ha Hr) as H1.
    replace (i + n)%nat with ((i + j) + (n - j))%nat in Hb by lia.
    pose proof (frames_apart p (n - j) (i + j) r b Hp Hr Hb) as H2.
    lia.
  - revert i a Ha Hb. induction n as [|n IH]; intros i a Ha Hb Hall.
    + rewrite Nat.add_0_r in Hb. assert (a = b) by congruence. subst. lia.
    + destruct (nth_error_defined p (S i) (i + S n) b ltac:(lia) Hb) as [m Hm].
      replace (i + S n)%nat with (S i + n)%nat in Hb by lia.
      pose proof (frames_apart p n (S i) m b Hp Hm Hb) as Hmb.
      pose proof (strongly_sorted_nth _ p Hp i (S i) a m ltac:(lia) Ha Hm)
        as Ham. simpl in Ham.
      destruct (Hall (Track.frame a + 1) ltac:(lia)) as [r [Hr Hfr]].
      apply In_nth_error in Hr. destruct Hr as [j Hr].
      assert (Hij : (i < j)%nat)
        by (apply (frame_strict_index p i j a r Hp Ha Hr); lia).
      assert (Hjm : ~ (S i < j)%nat).
      { intros Hlt.
        pose proof (strongly_sorted_nth _ p Hp (S i) j m r Hlt Hm Hr) as H'.
        simpl in H'. lia. }
      assert (j = S i) by lia. subst j.
      assert (r = m) by congruence. subst r.
      assert (E : Track.frame b = Track.frame m + Z.of_nat n).
      { apply (IH (S i) m Hm Hb). intros f Hf. apply Hall. lia. }
      lia.
Qed.

(** C10. On a table with the required columns, none of them under a
    repeated label, in which no two rows share a (cell_id, frame) pair and
    every frame is at most 2^53 in magnitude, and for a lag from 1 to
    2^31 - 1, the code returns a table each of whose steps ends at least
    [tau_frames] frames after it starts, hence strictly later, and exactly
    [tau_frames] frames later when, and only when, the trajectory holds a
    row for every frame from [frame_start] to [frame_end]. *)
Theorem frame_end_lower_bound (tracks : DataFrame) (tau : Z) :
  has_required_columns tracks -> labels_unique tracks ->
  frames_exact (rows tracks) -> lag_in_range tau ->
  NoDup (map key (rows tracks)) ->
  exists steps,
    compute_steps_for_tau tracks tau = ret steps
    /\ forall s, In s steps ->
         Step.frame_start s + tau <= Step.frame_end s
         /\ Step.frame_start s < Step.frame_end s
         /\ (Step.frame_end s = Step.frame_start s + tau
             <-> forall f, Step.frame_start s <= f <= Step.frame_end s ->
                   exists r, In r (rows tracks)
                             /\ Track.cell_id r = Step.cell_id s
                             /\ Track.frame r = f).
Proof.
  intros Hreq Hlab Hex [Htau Hmax] Hnd.
  exists (filter step_notna (reference_steps (rows tracks) tau)).
  split.
  { rewrite <- (frames_exact_recast _ tau Hex).
    apply compute_steps_for_tau_eq; try assumption; [split; assumption|].
    apply frames_int64_castable, frames_exact_int64, Hex. }
  intros s Hs. apply In_kept in Hs. destruct Hs as [a [b [Hab ->]]].
  apply reference_pairs_In in Hab. destruct Hab as [c [i [Ha Hb]]].
  pose proof (trajectory_frame_strict c (rows tracks) Hnd) as Hp.
  pose proof (frames_apart _ _ _ a b Hp Ha Hb) as Hge.
  pose proof (frames_consecutive _ _ _ a b Hp Ha Hb) as Hiff.
  pose proof (trajectory_nth_In _ _ _ _ Ha) as [_ Hc].
  rewrite Z2Nat.id in Hge, Hiff by lia.
  simpl. split; [exact Hge|]. split; [lia|].
  rewrite Hiff. split; intros H f Hf; destruct (H f Hf) as [r Hr]; exists r.
  - destruct Hr as [Hr <-]. apply trajectory_In in Hr.
    rewrite sort_values_In in Hr. intuition congruence.
  - destruct Hr as [Hr [Hcr <-]]. split; [|reflexivity].
    apply trajectory_In. rewrite sort_values_In. split; congruence.
Qed.

Lemma frame_end_lower_bound_witness :
  exists steps,
    compute_steps_for_tau gapped 1 = ret steps
    /\ forall s, In s steps ->
         Step.frame_start s + 1 <= Step.frame_end s
         /\ Step.frame_start s < Step.frame_end s
         /\ (Step.frame_end s = Step.frame_start s + 1
             <-> forall f, Step.frame_start s <= f <= Step.frame_end s ->
                   exists r, In r (rows gapped)
                             /\ Track.cell_id r = Step.cell_id s
                             /\ Track.frame r = f).
Proof.
  apply (frame_end_lower_bound gapped 1).
  - intros c Hc. exact Hc.
  - apply labels_unique_tracks_of.
  - repeat constructor; vm_compute; discriminate.
  - split; lia.
  - vm_compute. repeat (constructor; [simpl; intuition discriminate|]).
    constructor.
Defined.

(** Frames 2^53 and 2^53 + 1 of one trajectory: the step at lag 1 ends, as
    returned, at the frame at which it starts. *)
Lemma frame_end_not_after_frame_start :
  has_required_columns late_frames /\ labels_unique late_frames
  /\ NoDup (map key (rows late_frames))
  /\ exists s,
       compute_steps_for_tau late_frames 1 = ret [s]
       /\ Step.frame_start s = 2 ^ 53
       /\ Step.frame_end s = 2 ^ 53.
Proof.
  split; [intros c Hc; exact Hc|].
  split; [apply labels_unique_tracks_of|].
  split.
  - vm_compute. repeat (constructor; [simpl; intuition discriminate|]).
    constructor.
  - eexists. split; [vm_compute; reflexivity|]. split; reflexivity.
Qed.

(** ** The order of floats *)

Lemma SFltb_rank (x y : spec_float) :
  x <> S754_nan -> y <> S754_nan ->
  SFltb x y = rank_ltb (SFrank x) (SFrank y).
Proof.
  intros Hx Hy. unfold SFltb, SFcompare.
  destruct x as [sx|sx| |sx mx ex], y as [sy|sy| |sy my ey];
    try congruence; try (destruct sx); try (destruct sy); try reflexivity;
    unfold SFrank, rank_ltb.
  - change (PosDef.Pos.compare_cont Eq mx my) with (Pos.compare mx my).
    change (-1 <? -1) with false. change (-1 =? -1) with true. cbn [orb andb].
    destruct (Z.compare_spec ex ey) as [E | L | G];
      destruct (Z.ltb_spec (- ex) (- ey)), (Z.eqb_spec (- ex) (- ey));
      try lia; cbn [orb andb]; try reflexivity.
  - change (PosDef.Pos.compare_cont Eq mx my) with (Pos.compare mx my).
    change (1 <? 1) with false. change (1 =? 1) with true. cbn [orb andb].
    destruct (Z.compare_spec ex ey) as [E | L | G];
      destruct (Z.ltb_spec ex ey), (Z.eqb_spec ex ey);
      try lia; cbn [orb andb]; try reflexivity.
Qed.

Lemma Prim2SF_not_nan (x : float) :
  is_nan x = false -> Prim2SF x <> S754_nan.
Proof.
  intros H. unfold Prim2SF. rewrite H.
  destruct (is_zero x); [discriminate|].
  destruct (is_infinity x); [discriminate|].
  destruct (Z.frexp x) as [r e].
  destruct (shr_fexp _ _ _ _ _) as [s e'].
  destruct (shr_m s); discriminate.
Qed.

Lemma ltb_rank (x y : float) :
  is_nan x = false -> is_nan y = false ->
  (x <? y)%float = rank_ltb (frank x) (frank y).
Proof.
  intros Hx Hy. rewrite ltb_spec.
  apply SFltb_rank; apply Prim2SF_not_nan; assumption.
Qed.

Ltac rank_cases :=
  unfold rank_ltb in *;
  repeat match goal with
         | H : context [?a <? ?b] |- _ => destruct (Z.ltb_spec a b)
         | |- context [?a <? ?b] => destruct (Z.ltb_spec a b)
         | H : context [?a =? ?b] |- _ => destruct (Z.eqb_spec a b)
         | |- context [?a =? ?b] => destruct (Z.eqb_spec a b)
         end;
  simpl in *; try congruence; try lia.

Lemma rank_ltb_irrefl (a : Z * Z * Z) : rank_ltb a a = false.
Proof. destruct a as [[a1 a2] a3]. rank_cases. Qed.

Lemma rank_ltb_asym (a b : Z * Z * Z) : rank_ltb a b = true -> rank_ltb b a = false.
Proof. destruct a as [[a1 a2] a3], b as [[b1 b2] b3]. rank_cases. Qed.

Lemma rank_ltb_negtrans (a b c : Z * Z * Z) :
  rank_ltb b a = false -> rank_ltb c b = false -> rank_ltb c a = false.
Proof.
  destruct a as [[a1 a2] a3], b as [[b1 b2] b3], c as [[c1 c2] c3]. rank_cases.
Qed.

(** ** Arrays *)

Lemma fltb_irrefl (x : float) : is_nan x = false -> (x <? x)%float = false.
Proof. intros H. rewrite ltb_rank by assumption. apply rank_ltb_irrefl. Qed.

Lemma fltb_asym (x y : float) :
  is_nan x = false -> is_nan y = false ->
  (x <? y)%float = true -> (y <? x)%float = false.
Proof.
  intros Hx Hy. rewrite !ltb_rank by assumption. apply rank_ltb_asym.
Qed.

Lemma fltb_negtrans (a b c : float) :
  is_nan a = false -> is_nan b = false -> is_nan c = false ->
  (b <? a)%float = false -> (c <? b)%float = false -> (c <? a)%float = false.
Proof.
  intros Ha Hb Hc. rewrite !ltb_rank by assumption. apply rank_ltb_negtrans.
Qed.

Lemma length_set_nth (n : nat) (v : float) (arr : list float) :
  length (set_nth n v arr) = length arr.
Proof.
  revert n. induction arr as [|h t IH]; intros n; [reflexivity|].
  destruct n; simpl; [reflexivity|]. now rewrite IH.
Qed.

Lemma nth_set_nth (n p : nat) (v : float) (arr : list float) :
  (n < length arr)%nat ->
  nth p (set_nth n v arr) nan = if Nat.eqb p n then v else nth p arr nan.
Proof.
  revert n p. induction arr as [|h t IH]; intros n p Hn; simpl in Hn; [lia|].
  destruct n, p; simpl; try reflexivity.
  apply IH. lia.
Qed.

Lemma length_put (arr : list float) (i : Z) (v : float) :
  length (put arr i v) = length arr.
Proof. unfold put. destruct (i <? 0); [reflexivity|apply length_set_nth]. Qed.

Lemma length_swap (arr : list float) (i j : Z) :
  length (swap arr i j) = length arr.
Proof. unfold swap. now rewrite !length_put. Qed.

Lemma get_nth (arr : list float) (p : nat) :
  get arr (Z.of_nat p) = nth p arr nan.
Proof.
  unfold get. destruct (Z.ltb_spec (Z.of_nat p) 0); [lia|].
  now rewrite Nat2Z.id.
Qed.

Lemma get_outside (arr : list float) (p : Z) :
  p < 0 \/ Z.of_nat (length arr) <= p -> get arr p = nan.
Proof.
  intros H. unfold get. destruct (Z.ltb_spec p 0); [reflexivity|].
  apply nth_overflow. lia.
Qed.

Lemma get_put (arr : list float) (i p : Z) (v : float) :
  0 <= i < Z.of_nat (length arr) ->
  get (put arr i v) p = if p =? i then v else get arr p.
Proof.
  intros Hi. unfold get, put.
  destruct (Z.ltb_spec i 0); [lia|].
  destruct (Z.ltb_spec p 0).
  - destruct (Z.eqb_spec p i); [lia|reflexivity].
  - rewrite nth_set_nth by lia.
    destruct (Z.eqb_spec p i) as [->|Hne].
    + now rewrite Nat.eqb_refl.
    + destruct (Nat.eqb_spec (Z.to_nat p) (Z.to_nat i)); [lia|reflexivity].
Qed.

Lemma get_swap (arr : list float) (i j p : Z) :
  0 <= i < Z.of_nat (length arr) -> 0 <= j < Z.of_nat (length arr) ->
  get (swap arr i j) p =
    if p =? i then get arr j else if p =? j then get arr i else get arr p.
Proof.
  intros Hi Hj. unfold swap.
  rewrite get_put by (rewrite length_put; lia).
  rewrite get_put by lia.
  destruct (Z.eqb_spec p j) as [Ej|Ej]; destruct (Z.eqb_spec p i) as [Ei|Ei];
    try reflexivity.
  now rewrite <- Ej, Ei.
Qed.

Lemma get_notna (arr : list float) (p : Z) :
  NoNaN arr -> 0 <= p < Z.of_nat (length arr) -> is_nan (get arr p) = false.
Proof.
  intros H Hp. unfold get. destruct (Z.ltb_spec p 0); [lia|].
  unfold NoNaN in H. rewrite Forall_forall in H. apply H, nth_In. lia.
Qed.

Lemma get_In (arr : list float) (p : Z) :
  0 <= p < Z.of_nat (length arr) -> In (get arr p) arr.
Proof.
  intros Hp. unfold get. destruct (Z.ltb_spec p 0); [lia|]. apply nth_In. lia.
Qed.

Lemma swap_perm (arr : list float) (i j : Z) :
  0 <= i < Z.of_nat (length arr) -> 0 <= j < Z.of_nat (length arr) ->
  Permutation (swap arr i j) arr.
Proof.
  intros Hi Hj.
  apply Permutation_sym.
  apply (proj2 (Permutation_nth_error arr (swap arr i j))).
  split; [symmetry; apply length_swap|].
  exists (fun p => if Nat.eqb p (Z.to_nat i) then Z.to_nat j
                   else if Nat.eqb p (Z.to_nat j) then Z.to_nat i else p).
  split.
  - intros p q.
    destruct (Nat.eqb_spec p (Z.to_nat i)); destruct (Nat.eqb_spec q (Z.to_nat i));
    destruct (Nat.eqb_spec p (Z.to_nat j)); destruct (Nat.eqb_spec q (Z.to_nat j));
      lia.
  - intros p.
    destruct (Nat.lt_ge_cases p (length arr)) as [Hp|Hp].
    + rewrite (nth_error_nth' _ nan) by (rewrite length_swap; lia).
      rewrite <- get_nth, get_swap by assumption.
      destruct (Z.eqb_spec (Z.of_nat p) i) as [E|E].
      * destruct (Nat.eqb_spec p (Z.to_nat i)); [|lia].
        rewrite (nth_error_nth' _ nan) by lia.
        rewrite <- get_nth, Z2Nat.id by lia. reflexivity.
      * destruct (Nat.eqb_spec p (Z.to_nat i)); [lia|].
        destruct (Z.eqb_spec (Z.of_nat p) j) as [E'|E'].
        -- destruct (Nat.eqb_spec p (Z.to_nat j)); [|lia].
           rewrite (nth_error_nth' _ nan) by lia.
           rewrite <- get_nth, Z2Nat.id by lia. reflexivity.
        -- destruct (Nat.eqb_spec p (Z.to_nat j)); [lia|].
           rewrite (nth_error_nth' _ nan) by lia.
           rewrite <- get_nth. reflexivity.
    + destruct (Nat.eqb_spec p (Z.to_nat i)); [lia|].
      destruct (Nat.eqb_spec p (Z.to_nat j)); [lia|].
      rewrite (proj2 (nth_error_None _ _)) by (rewrite length_swap; lia).
      rewrite (proj2 (nth_error_None _ _)) by lia. reflexivity.
Qed.

Lemma NoNaN_perm (a b : list float) : Permutation a b -> NoNaN b -> NoNaN a.
Proof.
  intros P H. unfold NoNaN in *. rewrite Forall_forall in *.
  intros v Hv. apply H. eapply Permutation_in; eauto.
Qed.

(** The two scans stop at a sentinel. *)
Lemma scan_up_spec (fuel : nat) (arr : list float) (x : float) :
  forall i q,
  i <= q -> q - i < Z.of_nat fuel -> (get arr q <? x)%float = false ->
  i <= scan_up fuel arr x i <= q /\
  (get arr (scan_up fuel arr x i) <? x)%float = false /\
  forall p, i <= p < scan_up fuel arr x i -> (get arr p <? x)%float = true.
Proof.
  induction fuel as [|f IH]; intros i q Hiq Hf Hq; [simpl in Hf; lia|].
  cbn [scan_up]. destruct (get arr i <? x)%float eqn:E.
  - assert (i <> q) by (intros ->; congruence).
    destruct (IH (i + 1) q) as (H1 & H2 & H3); [lia|lia|assumption|].
    split; [lia|]. split; [assumption|].
    intros p Hp. destruct (Z.eq_dec p i) as [->|]; [assumption|].
    apply H3. lia.
  - split; [lia|]. split; [assumption|]. intros p Hp. lia.
Qed.

Lemma scan_down_spec (fuel : nat) (arr : list float) (x : float) :
  forall j p,
  p <= j -> j - p < Z.of_nat fuel -> (x <? get arr p)%float = false ->
  p <= scan_down fuel arr x j <= j /\
  (x <? get arr (scan_down fuel arr x j))%float = false /\
  forall q, scan_down fuel arr x j < q <= j -> (x <? get arr q)%float = true.
Proof.
  induction fuel as [|f IH]; intros j p Hpj Hf Hp; [simpl in Hf; lia|].
  cbn [scan_down]. destruct (x <? get arr j)%float eqn:E.
  - assert (j <> p) by (intros ->; congruence).
    destruct (IH (j - 1) p) as (H1 & H2 & H3); [lia|lia|assumption|].
    split; [lia|]. split; [assumption|].
    intros q Hq. destruct (Z.eq_dec q j) as [->|]; [assumption|].
    apply H3. lia.
  - split; [lia|]. split; [assumption|]. intros q Hq. lia.
Qed.

Lemma partition_loop_spec (x : float) (left m : Z) (fuel : nat) :
  forall arr i j,
  NoNaN arr -> is_nan x = false ->
  0 <= left -> m < Z.of_nat (length arr) -> left <= i -> j <= m -> i <= j ->
  j - i < Z.of_nat fuel ->
  (exists q, i <= q <= m /\ (get arr q <? x)%float = false) ->
  (exists p, left <= p <= j /\ (x <? get arr p)%float = false) ->
  (forall p, left <= p < i -> (x <? get arr p)%float = false) ->
  (forall q, j < q <= m -> (get arr q <? x)%float = false) ->
  partitioned arr x left m i j (partition_loop fuel arr x i j).
Proof.
  induction fuel as [|f IH];
    intros arr i j Hnn Hx Hl Hm Hli Hjm Hij Hf (q & Hq & Hqx) (p & Hp & Hpx) P2 P3;
    [simpl in Hf; lia|].
  cbn [partition_loop].
  destruct (scan_up_spec (length arr) arr x i q) as (U1 & U2 & U3);
    [lia|lia|assumption|].
  destruct (scan_down_spec (length arr) arr x j p) as (D1 & D2 & D3);
    [lia|lia|assumption|].
  set (i1 := scan_up (length arr) arr x i) in *.
  set (j1 := scan_down (length arr) arr x j) in *.
  assert (NA : forall r, 0 <= r < Z.of_nat (length arr) -> is_nan (get arr r) = false)
    by (intros r Hr; now apply get_notna).
  destruct (Z.leb_spec i1 j1) as [Hle|Hgt].
  - (* swap *)
    assert (Hi1 : 0 <= i1 < Z.of_nat (length arr)) by lia.
    assert (Hj1 : 0 <= j1 < Z.of_nat (length arr)) by lia.
    assert (G : forall r, get (swap arr i1 j1) r =
              if r =? i1 then get arr j1 else if r =? j1 then get arr i1 else get arr r)
      by (intros r; now apply get_swap).
    assert (SP := swap_perm arr i1 j1 Hi1 Hj1).
    assert (P2' : forall r, left <= r < i1 + 1 -> (x <? get (swap arr i1 j1) r)%float = false).
    { intros r Hr. rewrite G.
      destruct (Z.eqb_spec r i1); [assumption|].
      destruct (Z.eqb_spec r j1); [lia|].
      destruct (Z_lt_le_dec r i) as [Hlt|Hge]; [apply P2; lia|].
      apply fltb_asym; [apply NA; lia|assumption|apply U3; lia]. }
    assert (P3' : forall r, j1 - 1 < r <= m -> (get (swap arr i1 j1) r <? x)%float = false).
    { intros r Hr. rewrite G.
      destruct (Z.eqb_spec r i1) as [->|].
      - assert (i1 = j1) by lia. congruence.
      - destruct (Z.eqb_spec r j1); [assumption|].
        destruct (Z_lt_le_dec j r) as [Hlt|Hge]; [apply P3; lia|].
        apply fltb_asym; [assumption|apply NA; lia|apply D3; lia]. }
    assert (OUT : forall r, r < left \/ m < r -> get (swap arr i1 j1) r = get arr r).
    { intros r Hr. rewrite G.
      destruct (Z.eqb_spec r i1); [lia|]. destruct (Z.eqb_spec r j1); [lia|]. reflexivity. }
    assert (INS : forall r, left <= r <= m ->
                  exists r0, left <= r0 <= m /\ get (swap arr i1 j1) r = get arr r0).
    { intros r Hr. rewrite G.
      destruct (Z.eqb_spec r i1); [exists j1; split; [lia|reflexivity]|].
      destruct (Z.eqb_spec r j1); [exists i1; split; [lia|reflexivity]|].
      exists r; split; [lia|reflexivity]. }
    destruct (Z.ltb_spec (j1 - 1) (i1 + 1)) as [Hstop|Hcont].
    + unfold partitioned. repeat split; try assumption; try lia.
    + assert (R : partitioned (swap arr i1 j1) x left m (i1 + 1) (j1 - 1)
                    (partition_loop f (swap arr i1 j1) x (i1 + 1) (j1 - 1))).
      { apply IH; try assumption; try lia.
        - eapply NoNaN_perm; eauto.
        - rewrite length_swap. lia.
        - exists j1. split; [lia|]. apply P3'. lia.
        - exists i1. split; [lia|]. apply P2'. lia. }
      destruct (partition_loop f (swap arr i1 j1) x (i1 + 1) (j1 - 1)) as [[arr' i'] j'].
      unfold partitioned in *.
      destruct R as (R1 & R2 & R3 & R4 & R5 & R6 & R7 & R8 & _).
      split; [eapply Permutation_trans; eauto|].
      split; [intros r Hr; rewrite R2 by assumption; now apply OUT|].
      split.
      { intros r Hr. destruct (R3 r Hr) as (r0 & Hr0 & E0).
        destruct (INS r0 Hr0) as (r1 & Hr1 & E1).
        exists r1. split; [assumption|congruence]. }
      repeat split; try assumption; try lia.
  - (* no swap *)
    destruct (Z.ltb_spec j1 i1) as [_|]; [|lia].
    unfold partitioned. split; [apply Permutation_refl|].
    split; [reflexivity|].
    split; [intros r Hr; exists r; split; [assumption|reflexivity]|].
    split; [lia|]. split; [lia|]. split; [lia|].
    split.
    { intros r Hr. destruct (Z_lt_le_dec r i) as [Hlt|Hge]; [apply P2; lia|].
      apply fltb_asym; [apply NA; lia|assumption|apply U3; lia]. }
    split.
    { intros r Hr. destruct (Z_lt_le_dec j r) as [Hlt|Hge]; [apply P3; lia|].
      apply fltb_asym; [assumption|apply NA; lia|apply D3; lia]. }
    intros (k & Hk & K1 & K2).
    destruct (scan_up_spec (length arr) arr x i k) as (U1' & _); [lia|lia|assumption|].
    destruct (scan_down_spec (length arr) arr x j k) as (D1' & _); [lia|lia|assumption|].
    fold i1 in U1'. fold j1 in D1'. lia.
Qed.

Lemma select_loop_done (fuel : nat) (arr : list float) (k left m : Z) :
  m <= left -> select_loop fuel arr k left m = arr.
Proof.
  intros H. destruct fuel; [reflexivity|]. cbn [select_loop].
  destruct (Z.ltb_spec left m); [lia|reflexivity].
Qed.

Lemma select_loop_spec (k : Z) (fuel : nat) :
  forall arr left m,
  NoNaN arr -> 0 <= left -> m < Z.of_nat (length arr) -> left <= k <= m ->
  m - left < Z.of_nat fuel ->
  settled_left arr left -> settled_right arr m ->
  Permutation (select_loop fuel arr k left m) arr /\
  selected (select_loop fuel arr k left m) k.
Proof.
  induction fuel as [|f IH]; intros arr left m Hnn Hl Hm Hk Hf I1 I2;
    [simpl in Hf; lia|].
  cbn [select_loop].
  destruct (Z.ltb_spec left m) as [Hlt|Hge].
  2:{ split; [apply Permutation_refl|].
      assert (left = k) by lia. assert (m = k) by lia. subst left m.
      split; [intros p Hp; apply I1; lia|intros q Hq; apply I2; lia]. }
  assert (Hx : is_nan (get arr k) = false) by (apply get_notna; [assumption|lia]).
  assert (R : partitioned arr (get arr k) left m left m
                (partition_loop (length arr) arr (get arr k) left m)).
  { apply partition_loop_spec; try assumption; try lia.
    - exists k. split; [lia|]. now apply fltb_irrefl.
    - exists k. split; [lia|]. now apply fltb_irrefl. }
  destruct (partition_loop (length arr) arr (get arr k) left m) as [[arr1 i'] j'].
  unfold partitioned in R.
  destruct R as (R1 & R2 & R3 & R4 & R5 & R6 & R7 & R8 & R9).
  destruct R9 as [R9 R10].
  { exists k. split; [lia|]. split; now apply fltb_irrefl. }
  set (x := get arr k) in *.
  assert (Hlen : length arr1 = length arr) by now apply Permutation_length.
  assert (Hnn1 : NoNaN arr1) by (eapply NoNaN_perm; eauto).
  assert (NA : forall r, 0 <= r < Z.of_nat (length arr) -> is_nan (get arr r) = false)
    by (intros r Hr; now apply get_notna).
  assert (NA1 : forall r, 0 <= r < Z.of_nat (length arr) -> is_nan (get arr1 r) = false)
    by (intros r Hr; apply get_notna; [assumption|lia]).
  (* how an element of the new array compares with one of the old *)
  assert (I1' : forall p q, 0 <= p < left -> left <= q < Z.of_nat (length arr) ->
                (get arr1 q <? get arr1 p)%float = false).
  { intros p q Hp Hq. rewrite (R2 p) by lia.
    destruct (Z_le_gt_dec q m) as [Hqm|Hqm].
    - destruct (R3 q) as (q0 & Hq0 & ->); [lia|]. apply I1; lia.
    - rewrite (R2 q) by lia. apply I1; lia. }
  assert (I2' : forall p q, 0 <= p <= m -> m < q < Z.of_nat (length arr) ->
                (get arr1 q <? get arr1 p)%float = false).
  { intros p q Hp Hq. rewrite (R2 q) by lia.
    destruct (Z_lt_le_dec p left) as [Hpl|Hpl].
    - rewrite (R2 p) by lia. apply I2; lia.
    - destruct (R3 p) as (p0 & Hp0 & ->); [lia|]. apply I2; lia. }
  assert (MID : forall p q, left <= p < i' -> j' < q <= m ->
                (get arr1 q <? get arr1 p)%float = false).
  { intros p q Hp Hq.
    apply (fltb_negtrans (get arr1 p) x (get arr1 q));
      [apply NA1; lia|assumption|apply NA1; lia|apply R7; lia|apply R8; lia]. }
  destruct (Z.ltb_spec j' k) as [Hjk|Hjk]; destruct (Z.ltb_spec k i') as [Hki|Hki].
  - (* both bounds move: the window is empty *)
    rewrite select_loop_done by lia.
    split; [assumption|]. split.
    + intros p Hp. destruct (Z_lt_le_dec p left); [apply I1'; lia|apply MID; lia].
    + rewrite Hlen. intros q Hq.
      destruct (Z_le_gt_dec q m); [apply MID; lia|apply I2'; lia].
  - (* left moves *)
    destruct (IH arr1 i' m) as [Q1 Q2]; try assumption; try lia.
    + intros p q Hp Hq. rewrite Hlen in Hq.
      destruct (Z_lt_le_dec p left); [apply I1'; lia|].
      destruct (Z_le_gt_dec q m); [apply MID; lia|apply I2'; lia].
    + intros p q Hp Hq. rewrite Hlen in Hq. apply I2'; lia.
    + split; [eapply Permutation_trans; eauto|assumption].
  - (* right moves *)
    destruct (IH arr1 left j') as [Q1 Q2]; try assumption; try lia.
    + intros p q Hp Hq. rewrite Hlen in Hq. apply I1'; lia.
    + intros p q Hp Hq. rewrite Hlen in Hq.
      destruct (Z_le_gt_dec q m); [|apply I2'; lia].
      destruct (Z_lt_le_dec p left); [apply I1'; lia|apply MID; lia].
    + split; [eapply Permutation_trans; eauto|assumption].
  - lia.
Qed.

(** Counting by position. *)
Lemma count_from (f : float -> bool) (l : list float) :
  forall k, (forall p, (k <= p < length l)%nat -> f (nth p l nan) = false) ->
  (length (filter f l) <= k)%nat.
Proof.
  induction l as [|h t IH]; intros k H; [simpl; lia|].
  destruct k as [|k'].
  - assert (E : f h = false) by (apply (H 0%nat); simpl; lia).
    simpl. rewrite E.
    apply IH. intros p Hp. apply (H (S p)). simpl. lia.
  - assert (length (filter f t) <= k')%nat.
    { apply IH. intros p Hp. apply (H (S p)). simpl. lia. }
    simpl. destruct (f h); simpl; lia.
Qed.

Lemma count_upto (f : float -> bool) (l : list float) :
  forall k, (k <= length l)%nat ->
  (forall p, (p < k)%nat -> f (nth p l nan) = false) ->
  (length (filter f l) + k <= length l)%nat.
Proof.
  induction l as [|h t IH]; intros k Hk H; [simpl in *; lia|].
  destruct k as [|k'].
  - assert (L := filter_length_le f (h :: t)). lia.
  - assert (E : f h = false) by (apply (H 0%nat); lia).
    simpl. rewrite E.
    assert (length (filter f t) + k' <= length t)%nat.
    { apply IH; [simpl in Hk; lia|]. intros p Hp. apply (H (S p)). lia. }
    lia.
Qed.

Lemma selected_order_stat (arr : list float) (k : Z) :
  NoNaN arr -> 0 <= k < Z.of_nat (length arr) -> selected arr k ->
  order_stat arr k (get arr k).
Proof.
  intros Hnn Hk [S1 S2]. split; [now apply get_In|]. split.
  - assert (length (filter (fun u => (u <? get arr k)%float) arr) <= Z.to_nat k)%nat; [|lia].
    apply count_from. intros p Hp. rewrite <- get_nth.
    destruct (Z.eq_dec (Z.of_nat p) k) as [->|].
    + apply fltb_irrefl, get_notna; [assumption|lia].
    + apply S2. lia.
  - assert (length (filter (fun u => (get arr k <? u)%float) arr) + S (Z.to_nat k)
            <= length arr)%nat; [|lia].
    apply count_upto; [lia|]. intros p Hp. rewrite <- get_nth.
    destruct (Z.eq_dec (Z.of_nat p) k) as [->|].
    + apply fltb_irrefl, get_notna; [assumption|lia].
    + apply S1. lia.
Qed.

Lemma order_stat_perm (a b : list float) (k : Z) (v : float) :
  Permutation a b -> order_stat a k v -> order_stat b k v.
Proof.
  intros P (H1 & H2 & H3).
  assert (F : forall f, length (filter f b) = length (filter f a)).
  { intros f. apply Permutation_length, Permutation_sym.
    clear -P. induction P; simpl; try destruct (f x); try destruct (f y);
      eauto using Permutation. }
  split; [eapply Permutation_in; eauto|].
  rewrite !F, <- (Permutation_length P). auto.
Qed.

Lemma kth_smallest_c_spec (arr : list float) (k : Z) :
  NoNaN arr -> 0 <= k < Z.of_nat (length arr) ->
  Permutation (snd (kth_smallest_c arr k (Z.of_nat (length arr)))) arr /\
  order_stat arr k (fst (kth_smallest_c arr k (Z.of_nat (length arr)))).
Proof.
  intros Hnn Hk. unfold kth_smallest_c. cbn [fst snd].
  rewrite Nat2Z.id.
  destruct (select_loop_spec k (length arr) arr 0 (Z.of_nat (length arr) - 1))
    as [P S]; try assumption; try lia.
  - intros p q Hp Hq. lia.
  - intros p q Hp Hq. lia.
  - split; [assumption|].
    apply (order_stat_perm _ _ _ _ P).
    apply selected_order_stat.
    + eapply NoNaN_perm; eauto.
    + rewrite (Permutation_length P). assumption.
    + assumption.
Qed.

(** The median aggregation returns a statistical median of the values
    that are not NaN. *)
Lemma median_spec (col : list float) :
  is_median (filter notna col) (median col).
Proof.
  unfold median.
  set (tmp := filter notna col).
  assert (Hnn : NoNaN tmp).
  { unfold NoNaN, tmp. apply Forall_forall. intros v Hv.
    apply filter_In in Hv. destruct Hv as [_ Hv].
    unfold notna in Hv. now destruct (is_nan v). }
  clearbody tmp. destruct tmp as [|t0 t']; [reflexivity|].
  unfold is_median, calc_median_linear.
  set (tmp := t0 :: t') in *.
  set (n := Z.of_nat (length tmp)).
  assert (Hn : 0 < n) by (unfold n, tmp; simpl; lia).
  destruct (Z.odd n) eqn:Hodd.
  - apply kth_smallest_c_spec; [assumption|].
    split; [apply Z.div_pos; lia|apply Z.div_lt_upper_bound; lia].
  - assert (n <> 1) by (intros E; rewrite E in Hodd; discriminate).
    destruct (kth_smallest_c_spec tmp (n / 2) Hnn) as [P1 O1].
    { split; [apply Z.div_pos; lia|apply Z.div_lt_upper_bound; lia]. }
    fold n in P1, O1.
    destruct (kth_smallest_c tmp (n / 2) n) as [hi a1]. cbn [fst snd] in *.
    assert (Hlen : Z.of_nat (length a1) = n)
      by (unfold n; now rewrite (Permutation_length P1)).
    destruct (kth_smallest_c_spec a1 (n / 2 - 1)) as [_ O2].
    { eapply NoNaN_perm; eauto. }
    { rewrite Hlen. assert (1 <= n / 2) by (apply Z.div_le_lower_bound; lia).
      assert (n / 2 < n) by (apply Z.div_lt_upper_bound; lia). lia. }
    rewrite Hlen in O2.
    destruct (kth_smallest_c a1 (n / 2 - 1) n) as [lo a2]. cbn [fst] in *.
    exists hi, lo. split; [assumption|]. split; [|reflexivity].
    eapply order_stat_perm; eauto.
Qed.

(** ** Summarizer *)

Lemma insert_key_In (x k : Z) (l : list Z) :
  In k (insert_key x l) <-> k = x \/ In k l.
Proof.
  induction l as [|h l IH]; simpl.
  - intuition.
  - destruct (Z.ltb_spec x h); [simpl; intuition|].
    destruct (Z.eqb_spec x h); simpl; [subst; intuition|].
    rewrite IH. intuition.
Qed.

Lemma insert_key_sorted (x : Z) (l : list Z) :
  StronglySorted Z.lt l -> StronglySorted Z.lt (insert_key x l).
Proof.
  induction 1 as [|h l Hs IH Hall]; simpl.
  - repeat constructor.
  - destruct (Z.ltb_spec x h).
    + constructor; [constructor; assumption|].
      constructor; [assumption|].
      rewrite Forall_forall in *. intros y Hy. specialize (Hall y Hy). lia.
    + destruct (Z.eqb_spec x h); [constructor; assumption|].
      constructor; [exact IH|].
      rewrite Forall_forall in *. intros y Hy.
      apply insert_key_In in Hy. destruct Hy as [-> | Hy]; [lia|].
      apply Hall, Hy.
Qed.

Lemma group_keys_sorted (steps_all : list Step.t) :
  StronglySorted Z.lt (group_keys steps_all).
Proof.
  unfold group_keys. induction steps_all as [|s l IH]; simpl.
  - constructor.
  - apply insert_key_sorted, IH.
Qed.

Lemma group_keys_In (steps_all : list Step.t) (k : Z) :
  In k (group_keys steps_all)
  <-> exists s, In s steps_all /\ Step.tau_frames s = k.
Proof.
  unfold group_keys. induction steps_all as [|s l IH]; simpl.
  - split; [tauto | intros [s [[] _]]].
  - rewrite insert_key_In, IH. split.
    + intros [-> | [s' [H1 H2]]]; [exists s; auto | exists s'; auto].
    + intros [s' [[<- | H1] H2]]; [left; auto | right; exists s'; auto].
Qed.

Lemma summary_keys (steps_all : list Step.t) :
  map Summary.tau_frames (summary_by_tau steps_all) = group_keys steps_all.
Proof.
  unfold summary_by_tau. rewrite map_map. simpl. apply map_id.
Qed.

Lemma notna_five_nan : (5 <> nan)%float.
Proof.
  intros H. apply (f_equal is_nan) in H. vm_compute in H. discriminate H.
Qed.

(** C7. [summary_by_tau] returns one row per distinct [tau_frames] value of
    its input, in ascending order of [tau_frames]; in each row [n_steps] is
    the number of steps of that lag, [n_cells] the number of distinct
    [cell_id] values among them, and [median_tau_min] a statistical median
    (value of middle rank, or mean of the two values of middle rank) of
    their [tau_min] values that are not NaN, hence of all of them when none
    is NaN, and NaN when all are.  An empty table gives an empty summary. *)
Theorem summary_by_tau_groups (steps_all : list Step.t) :
  StronglySorted Z.lt (map Summary.tau_frames (summary_by_tau steps_all))
  /\ (forall k, In k (map Summary.tau_frames (summary_by_tau steps_all))
                <-> exists s, In s steps_all /\ Step.tau_frames s = k)
  /\ (forall row, In row (summary_by_tau steps_all) ->
        let g := get_group (Summary.tau_frames row) steps_all in
        Summary.n_steps row = length g
        /\ (exists cells,
              NoDup cells
              /\ (forall c, In c cells
                            <-> exists s, In s g /\ Step.cell_id s = c)
              /\ Summary.n_cells row = length cells)
        /\ is_median (filter notna (map Step.tau_min g))
                     (Summary.median_tau_min row)
        /\ (forallb notna (map Step.tau_min g) = true ->
            is_median (map Step.tau_min g) (Summary.median_tau_min row)))
  /\ summary_by_tau [] = [].
Proof.
  rewrite summary_keys.
  split; [apply group_keys_sorted|].
  split; [apply group_keys_In|].
  split; [|reflexivity].
  intros row Hrow. unfold summary_by_tau in Hrow.
  apply in_map_iff in Hrow. destruct Hrow as [k [<- _]]. simpl.
  split; [reflexivity|]. split; [|split].
  - exists (nodup Z.eq_dec (map Step.cell_id (get_group k steps_all))).
    split; [apply NoDup_nodup|]. split; [|reflexivity].
    intros c. rewrite nodup_In, in_map_iff. split.
    + intros [s [H1 H2]]. exists s. auto.
    + intros [s [H1 H2]]. exists s. auto.
  - apply median_spec.
  - intros Hall.
    rewrite <- (forallb_filter_id notna _ Hall) at 1.
    apply median_spec.
Qed.

Lemma summary_by_tau_groups_witness :
  Forall (fun row =>
            is_median
              (map Step.tau_min
                   (get_group (Summary.tau_frames row) uneven_steps))
              (Summary.median_tau_min row))
         (summary_by_tau uneven_steps).
Proof.
  apply Forall_forall. intros row Hrow.
  pose proof (proj1 (proj2 (proj2 (summary_by_tau_groups uneven_steps)))
                    row Hrow) as H.
  apply H. vm_compute in Hrow.
  destruct Hrow as [<- | [<- | []]]; reflexivity.
Defined.

(** The medians of [uneven_steps]: 1.5 among 1.5, 0.5 and 2; the mean of 2
    and 2.5. *)
Example uneven_medians :
  map (fun row => (Summary.tau_frames row, Summary.n_steps row,
                   Summary.median_tau_min row))
      (summary_by_tau uneven_steps)
  = [(1, 3%nat, 1.5%float); (2, 2%nat, 2.25%float)].
Proof. reflexivity. Qed.

(** The two zeros are equal as numbers; of a negative and a positive zero
    the two selections both return the negative one. *)
Example median_of_zeros : median [(-0)%float; 0%float] = (-0)%float.
Proof. reflexivity. Qed.

(** A step whose start time is NaN keeps a NaN [tau_min]: the lag has two
    steps, the code reports the median 5, the mean of the two values is
    NaN. *)
Lemma median_not_met_on_nan :
  exists row,
    summary_by_tau nan_steps = [row]
    /\ Summary.n_steps row = 2%nat
    /\ map Step.tau_min (get_group (Summary.tau_frames row) nan_steps)
       = [nan; 5%float]
    /\ Summary.median_tau_min row = 5%float
    /\ ((nan + 5) / 2)%float = nan
    /\ (5 <> nan)%float.
Proof.
  eexists. split; [vm_compute; reflexivity|].
  repeat split; try reflexivity. apply notna_five_nan.
Qed.

(** * Further properties of the code *)

(** ** What a successful call went through *)

Lemma validate_ret_iff (tracks : DataFrame) :
  validate_tracks tracks = ret tt <-> has_required_columns tracks.
Proof.
  split; [|apply validate_ok].
  intros H c Hc.
  destruct (in_dec string_dec c (columns tracks)) as [Hin | Hout];
    [exact Hin|].
  assert (Hm : In c (set_difference REQUIRED_TRACK_COLS (columns tracks)))
    by (apply missing_iff; split; assumption).
  unfold validate_tracks in H.
  destruct (set_difference REQUIRED_TRACK_COLS (columns tracks));
    [contradiction | discriminate H].
Qed.

Lemma compute_steps_for_tau_ret_inv (tracks : DataFrame) (tau : Z)
      (steps : list Step.t) :
  compute_steps_for_tau tracks tau = ret steps ->
  has_required_columns tracks /\ labels_unique tracks /\ lag_in_range tau
  /\ castable (rows tracks) tau = true
  /\ steps = map recast (filter step_notna (reference_steps (rows tracks) tau)).
Proof.
  intros H.
  assert (Hreq : has_required_columns tracks).
  { apply validate_ret_iff. unfold compute_steps_for_tau in H.
    destruct (validate_tracks tracks) as [e | []]; [discriminate H|].
    reflexivity. }
  assert (G : labels_unique tracks /\ lag_in_range tau).
  { unfold compute_steps_for_tau in H.
    rewrite (validate_ok tracks Hreq), bind_ret in H.
    destruct (Z.ltb_spec tau 1) as [Hlt | Hge]; [discriminate H|].
    cbn [mapM] in H. unfold get_label in H.
    destruct (repeated "cell_id" (columns tracks)) eqn:L1; [discriminate H|].
    destruct (repeated "frame" (columns tracks)) eqn:L2; [discriminate H|].
    rewrite !bind_ret in H.
    destruct (Z.leb_spec (2 ^ 31) tau) as [Hbig | Hsmall]; [discriminate H|].
    destruct (existsb (fun c => repeated c (columns tracks))
                      ["t_min"; "x_um"; "y_um"]) eqn:L3; [discriminate H|].
    split; [apply labels_unique_iff; auto|split; assumption]. }
  destruct G as [Hlab Htau].
  rewrite (compute_steps_for_tau_run tracks tau Hreq Hlab Htau) in H.
  apply mapM_cast_ret in H. destruct H as [Hc ->]. auto.
Qed.

Lemma compute_steps_for_tau_ret_kept (tracks : DataFrame) (tau : Z)
      (steps : list Step.t) :
  compute_steps_for_tau tracks tau = ret steps ->
  has_required_columns tracks /\ 1 <= tau
  /\ steps = map recast (filter step_notna (reference_steps (rows tracks) tau)).
Proof.
  intros H. apply compute_steps_for_tau_ret_inv in H.
  destruct H as [Hreq [_ [[Htau _] [_ E]]]]. auto.
Qed.

(** ** The multi-lag composer stops at an invalid lag *)

(** [mapM] raises the error of the first element that fails. *)
Lemma mapM_raise_first {A B : Type} (f : A -> result B) (l : list A)
      (e : error) :
  mapM f l = raise e
  <-> exists pre a post,
        l = pre ++ a :: post /\ f a = raise e
        /\ Forall (fun x => exists b, f x = ret b) pre.
Proof.
  split.
  - induction l as [|a l IH]; simpl; [discriminate|].
    destruct (f a) as [e' | b] eqn:E.
    + intros H. injection H as ->.
      exists [], a, l. split; [reflexivity|]. split; [exact E|constructor].
    + rewrite bind_ret. destruct (mapM f l) as [e' | bs]; [|discriminate].
      intros H. injection H as ->.
      destruct (IH eq_refl) as [pre [a' [post [-> [Ea' Hpre]]]]].
      exists (a :: pre), a', post. split; [reflexivity|].
      split; [exact Ea'|]. constructor; [exists b; exact E|exact Hpre].
  - intros [pre [a [post [-> [Ea Hpre]]]]].
    induction Hpre as [|x pre [b Hx] _ IH]; simpl.
    + rewrite Ea. reflexivity.
    + rewrite Hx, bind_ret, IH. reflexivity.
Qed.

(** X1. On a table with the required columns, [compute_steps_multi_tau]
    raises [InvalidLag] exactly when the loop reaches a lag below 1: when
    some lag of the list is below 1 and [compute_steps_for_tau] returns a
    table for every lag that stands before it.  No table is returned for
    those lags.  On a table without a repeated required label and with
    frames that fit 64-bit integers, the lags before it are all reached
    when they are from 1 to 2^31 - 1. *)
Theorem multi_tau_invalid_lag (tracks : DataFrame) (taus : list Z) :
  has_required_columns tracks ->
  (compute_steps_multi_tau tracks taus = raise InvalidLag
   <-> exists pre tau post,
         taus = pre ++ tau :: post /\ tau < 1
         /\ Forall (fun t => exists b, compute_steps_for_tau tracks t = ret b)
                   pre)
  /\ (labels_unique tracks -> frames_int64 (rows tracks) ->
      forall pre tau post,
        taus = pre ++ tau :: post -> tau < 1 -> Forall lag_in_range pre ->
        compute_steps_multi_tau tracks taus = raise InvalidLag).
Proof.
  intros Hreq.
  assert (M : compute_steps_multi_tau tracks taus = raise InvalidLag
              <-> mapM (compute_steps_for_tau tracks) taus = raise InvalidLag).
  { unfold compute_steps_multi_tau.
    rewrite (validate_ok tracks Hreq), bind_ret.
    destruct (mapM (compute_steps_for_tau tracks) taus) as [e | blocks].
    - unfold bind, raise. split; intros H; injection H as ->; reflexivity.
    - split; [|discriminate].
      destruct blocks; discriminate. }
  assert (R : compute_steps_multi_tau tracks taus = raise InvalidLag
   <-> exists pre tau post,
         taus = pre ++ tau :: post /\ tau < 1
         /\ Forall (fun t => exists b, compute_steps_for_tau tracks t = ret b)
                   pre).
  { rewrite M, mapM_raise_first. split.
    - intros [pre [tau [post [E [Ht Hpre]]]]]. exists pre, tau, post.
      split; [exact E|]. split; [|exact Hpre].
      destruct (Z.lt_ge_cases tau 1) as [Hlt | Hge]; [exact Hlt|].
      contradiction (compute_steps_for_tau_not_invalid tracks tau Hge Ht).
    - intros [pre [tau [post [E [Ht Hpre]]]]]. exists pre, tau, post.
      split; [exact E|]. split; [|exact Hpre].
      apply compute_steps_for_tau_invalid; assumption. }
  split; [exact R|].
  intros Hlab Hint pre tau post E Ht Hpre. apply R.
  exists pre, tau, post. split; [exact E|]. split; [exact Ht|].
  apply Forall_impl with (2 := Hpre). intros t Hrange. eexists.
  apply compute_steps_for_tau_eq; try assumption.
  apply frames_int64_castable, Hint.
Qed.

Lemma multi_tau_invalid_lag_witness :
  compute_steps_multi_tau three_points [1; 2; 0; 1] = raise InvalidLag.
Proof.
  apply (proj2 (proj1 (multi_tau_invalid_lag three_points [1; 2; 0; 1]
                         (fun c Hc => Hc)))).
  exists [1; 2], 0, [1]. split; [reflexivity|]. split; [lia|].
  repeat constructor; eexists; vm_compute; reflexivity.
Defined.

(** ** Validation reads the column names only *)

(** X2. [validate_tracks] depends on nothing but the set of column names:
    two tables whose column lists hold the same names, in any order, with
    any repetition and with any rows, are accepted or rejected alike, and
    rejected with the same names. *)
Theorem validate_tracks_column_set (t1 t2 : DataFrame) :
  (forall c, In c (columns t1) <-> In c (columns t2)) ->
  validate_tracks t1 = validate_tracks t2.
Proof.
  intros Hsame. unfold validate_tracks.
  replace (set_difference REQUIRED_TRACK_COLS (columns t2))
    with (set_difference REQUIRED_TRACK_COLS (columns t1)); [reflexivity|].
  unfold set_difference. apply filter_ext. intros c. f_equal.
  destruct (mem c (columns t1)) eqn:E1, (mem c (columns t2)) eqn:E2;
    try reflexivity.
  - apply mem_In, Hsame, mem_In in E1. congruence.
  - apply mem_In, Hsame, mem_In in E2. congruence.
Qed.

Lemma validate_tracks_column_set_witness :
  validate_tracks extra_columns
  = validate_tracks
      {| columns := ["area"; "cell_id"; "frame"; "t_min"; "x_um"; "y_um";
                     "label"; "cell_id"];
         rows := [] |}.
Proof.
  apply validate_tracks_column_set.
  intros c. simpl. intuition.
Defined.

(** ** What the returned steps never hold *)

(** X3. No step of a table returned by [compute_steps_for_tau] has a NaN
    [dx_um], [dy_um] or [t_end_min]: what [dropna] lets through is free of
    NaN in these columns, whatever the input holds. *)
Theorem returned_steps_notna (tracks : DataFrame) (tau : Z)
        (steps : list Step.t) :
  compute_steps_for_tau tracks tau = ret steps ->
  Forall (fun s => is_nan (Step.dx_um s) = false
                   /\ is_nan (Step.dy_um s) = false
                   /\ is_nan (Step.t_end_min s) = false) steps.
Proof.
  intros H. apply compute_steps_for_tau_ret_kept in H.
  destruct H as [_ [_ ->]]. apply Forall_forall. intros s Hs.
  apply in_map_iff in Hs. destruct Hs as [s0 [<- Hs]].
  apply filter_In in Hs. destruct Hs as [_ Hs]. unfold step_notna, notna in Hs.
  rewrite !andb_true_iff, !negb_true_iff in Hs. simpl. tauto.
Qed.

Lemma returned_steps_notna_witness :
  Forall (fun s => is_nan (Step.dx_um s) = false
                   /\ is_nan (Step.dy_um s) = false
                   /\ is_nan (Step.t_end_min s) = false)
         (steps_of (compute_steps_for_tau nan_middle 1)).
Proof.
  apply (returned_steps_notna nan_middle 1). reflexivity.
Defined.

(** ** Order of the returned steps *)

Lemma shift_pairs_fst_In (n : nat) (l : list Track.t) (p : Track.t * Track.t) :
  In p (shift_pairs n l) -> In (fst p) l.
Proof.
  induction l as [|r l IH]; [intros []|].
  rewrite shift_pairs_cons. intros H. apply in_app_or in H.
  destruct H as [H | H].
  - destruct (nth_error _ n) as [q|]; [|destruct H].
    destruct H as [<- | []]. left. reflexivity.
  - right. apply IH, H.
Qed.

Lemma shift_pairs_sorted (R : Track.t -> Track.t -> Prop) (n : nat)
      (l : list Track.t) :
  StronglySorted R l ->
  StronglySorted (fun p q => R (fst p) (fst q)) (shift_pairs n l).
Proof.
  induction 1 as [|r l Hs IH Hall]; [constructor|].
  rewrite shift_pairs_cons.
  destruct (nth_error _ n) as [q|]; [|exact IH].
  simpl. constructor; [exact IH|].
  rewrite Forall_forall in *. intros p Hp.
  apply Hall, (shift_pairs_fst_In n), Hp.
Qed.

Lemma StronglySorted_map {A B : Type} (f : A -> B) (R : B -> B -> Prop)
      (l : list A) :
  StronglySorted (fun x y => R (f x) (f y)) l -> StronglySorted R (map f l).
Proof.
  induction 1 as [|a l Hs IH Hall]; simpl; constructor; [exact IH|].
  rewrite Forall_forall in *. intros y Hy.
  apply in_map_iff in Hy. destruct Hy as [x [<- Hx]]. apply Hall, Hx.
Qed.

Lemma reference_steps_sorted (R : Track.t -> Track.t -> Prop)
      (S : Step.t -> Step.t -> Prop) (l : list Track.t) (tau : Z) :
  1 <= tau ->
  (forall a a' b b', R a b ->
                     S (recast (step_of_pair tau (a, a')))
                       (recast (step_of_pair tau (b, b')))) ->
  StronglySorted R (sort_values l) ->
  StronglySorted S (map recast (filter step_notna (reference_steps l tau))).
Proof.
  intros Htau HRS Hs. apply StronglySorted_map, StronglySorted_filter.
  unfold reference_steps, reference_pairs.
  rewrite <- shift_pairs_partition
    by (try lia; apply sort_values_cell_sorted).
  apply StronglySorted_map.
  apply StronglySorted_weaken
    with (R := fun p q => R (fst p) (fst q));
    [|apply shift_pairs_sorted, Hs].
  intros [a a'] [b b'] _ _. apply HRS.
Qed.

(** X4. The steps [compute_steps_for_tau] returns are listed by ascending
    [(cell_id, frame_start)]: trajectory after trajectory, in frame order
    inside each.  When no two rows of the table share a (cell_id, frame)
    pair the order is strict: no two steps start at the same row. *)
Theorem returned_steps_sorted (tracks : DataFrame) (tau : Z)
        (steps : list Step.t) :
  compute_steps_for_tau tracks tau = ret steps ->
  StronglySorted step_key_le steps
  /\ (NoDup (map key (rows tracks)) -> StronglySorted step_key_lt steps).
Proof.
  intros H. apply compute_steps_for_tau_ret_kept in H.
  destruct H as [_ [Htau ->]]. split.
  - apply reference_steps_sorted
      with (R := fun a b => key_le a b = true);
      [exact Htau | | apply sort_values_sorted].
    intros a a' b b' Hle. unfold step_key_le. simpl. key_cases.
  - intros Hnd.
    apply reference_steps_sorted
      with (R := fun a b => key_lt a b = true); [exact Htau | |].
    + intros a a' b b' Hlt. unfold step_key_lt. simpl. key_cases.
    + apply key_sorted_strict; [apply sort_values_sorted|].
      apply Permutation_NoDup with (map key (rows tracks)); [|exact Hnd].
      apply Permutation_map, Permutation_sym, sort_values_perm.
Qed.

Lemma returned_steps_sorted_witness :
  StronglySorted step_key_le (steps_of (compute_steps_for_tau interleaved 1))
  /\ StronglySorted step_key_lt
                    (steps_of (compute_steps_for_tau interleaved 1)).
Proof.
  destruct (returned_steps_sorted
              interleaved 1
              (steps_of (compute_steps_for_tau interleaved 1)) eq_refl)
    as [Hle Hlt].
  split; [exact Hle|]. apply Hlt.
  vm_compute. repeat (constructor; [simpl; intuition discriminate|]).
  constructor.
Defined.

(** ** Row order matters through ties only *)

Lemma key_le_antisym (a b : Track.t) :
  key_le a b = true -> key_le b a = true -> key a = key b.
Proof. intros H1 H2. unfold key. f_equal; key_cases. Qed.

Lemma key_eqb_refl (a : Track.t) : key_eqb (key a) a = true.
Proof. apply key_eqb_iff. reflexivity. Qed.

Lemma sort_values_filter_key (k : Z * Z) (l : list Track.t) :
  filter (key_eqb k) (sort_values l) = filter (key_eqb k) l.
Proof.
  induction l as [|r l IH]; [reflexivity|].
  simpl sort_values. rewrite insert_row_stable. simpl. rewrite IH.
  reflexivity.
Qed.

Lemma filter_head_In {A : Type} (p : A -> bool) (l : list A) (a : A)
      (t : list A) :
  filter p l = a :: t -> In a l.
Proof.
  intros H. assert (Ha : In a (filter p l)) by (rewrite H; left; reflexivity).
  apply filter_In in Ha. tauto.
Qed.

(** A sorted table is determined by its groups of tied rows. *)
Lemma key_sorted_determined (l1 l2 : list Track.t) :
  KeySorted l1 -> KeySorted l2 ->
  (forall k, filter (key_eqb k) l1 = filter (key_eqb k) l2) ->
  l1 = l2.
Proof.
  unfold KeySorted. intros H1. revert l2.
  induction H1 as [|a l1 Hs1 IH Hall1]; intros l2 H2 Hf.
  - destruct l2 as [|b l2]; [reflexivity|].
    specialize (Hf (key b)). simpl in Hf. rewrite key_eqb_refl in Hf.
    discriminate Hf.
  - destruct H2 as [|b l2 Hs2 Hall2].
    + specialize (Hf (key a)). simpl in Hf. rewrite key_eqb_refl in Hf.
      discriminate Hf.
    + rewrite Forall_forall in Hall1, Hall2.
      pose proof (Hf (key a)) as Fa. pose proof (Hf (key b)) as Fb.
      simpl in Fa, Fb. rewrite key_eqb_refl in Fa, Fb.
      assert (Hab : key_le a b = true).
      { destruct (key_eqb (key b) a) eqn:E.
        - apply key_eqb_iff in E. unfold key in E. injection E as E1 E2.
          key_cases.
        - apply filter_head_In in Fb. apply Hall1, Fb. }
      assert (Hba : key_le b a = true).
      { destruct (key_eqb (key a) b) eqn:E.
        - apply key_eqb_iff in E. unfold key in E. injection E as E1 E2.
          key_cases.
        - symmetry in Fa. apply filter_head_In in Fa. apply Hall2, Fa. }
      pose proof (key_le_antisym a b Hab Hba) as Ek.
      assert (E : key_eqb (key a) b = true) by (apply key_eqb_iff; congruence).
      rewrite E in Fa. injection Fa as Eab Ft. subst b.
      f_equal. apply IH; [exact Hs2|].
      intros k. specialize (Hf k). simpl in Hf.
      destruct (key_eqb k a); [injection Hf as Hf|]; exact Hf.
Qed.

Lemma sort_values_ties (l l' : list Track.t) :
  (forall k, filter (key_eqb k) l' = filter (key_eqb k) l) ->
  sort_values l' = sort_values l.
Proof.
  intros Hf. apply key_sorted_determined; try apply sort_values_sorted.
  intros k. rewrite !sort_values_filter_key. apply Hf.
Qed.

Lemma compute_steps_for_tau_same_sort (tracks tracks' : DataFrame) (tau : Z) :
  columns tracks' = columns tracks ->
  sort_values (rows tracks') = sort_values (rows tracks) ->
  compute_steps_for_tau tracks' tau = compute_steps_for_tau tracks tau.
Proof.
  intros Hcols Hsort. unfold compute_steps_for_tau, validate_tracks.
  rewrite Hcols, Hsort. reflexivity.
Qed.

(** X5. The order of the rows of the input table matters to
    [compute_steps_for_tau] only through the relative order of the rows
    that share a (cell_id, frame) pair: two tables with the same columns
    that list, for every such pair, the same rows in the same order give
    the same result, error or table. *)
Theorem order_matters_through_ties (tracks tracks' : DataFrame) (tau : Z) :
  columns tracks' = columns tracks ->
  (forall k, filter (key_eqb k) (rows tracks')
             = filter (key_eqb k) (rows tracks)) ->
  compute_steps_for_tau tracks' tau = compute_steps_for_tau tracks tau.
Proof.
  intros Hcols Hf.
  apply compute_steps_for_tau_same_sort; [exact Hcols|].
  apply sort_values_ties, Hf.
Qed.

Lemma order_matters_through_ties_witness :
  compute_steps_for_tau tied_moved 1 = compute_steps_for_tau tied 1.
Proof.
  apply (order_matters_through_ties tied tied_moved 1 eq_refl).
  intros [c f]. unfold key_eqb, tied, tied_moved, tracks_of, pt.
  cbn [rows filter Track.cell_id Track.frame fst snd].
  destruct (Z.eqb_spec 1 c), (Z.eqb_spec 2 c), (Z.eqb_spec 0 f),
    (Z.eqb_spec 1 f); cbn [andb]; try reflexivity; lia.
Defined.

(** X6. Sorting the table by (cell_id, frame) with a stable sort before
    the call never changes what [compute_steps_for_tau] returns, tied rows
    or not. *)
Theorem presorted_same_result (tracks : DataFrame) (tau : Z) :
  compute_steps_for_tau
    {| columns := columns tracks; rows := sort_values (rows tracks) |} tau
  = compute_steps_for_tau tracks tau.
Proof.
  apply compute_steps_for_tau_same_sort; [reflexivity|].
  apply sort_values_ties. intros k. apply sort_values_filter_key.
Qed.

(** ** Trajectories do not influence one another *)

Lemma insert_row_head (r : Track.t) (l : list Track.t) :
  Forall (fun x => key_le r x = true) l -> insert_row r l = r :: l.
Proof.
  intros H. destruct H as [|h l Hh _]; [reflexivity|].
  simpl. rewrite Hh. reflexivity.
Qed.

Lemma filter_insert_row (p : Track.t -> bool) (r : Track.t)
      (l : list Track.t) :
  KeySorted l ->
  filter p (insert_row r l)
  = if p r then insert_row r (filter p l) else filter p l.
Proof.
  unfold KeySorted. induction 1 as [|h l Hs IH Hall].
  - simpl. destruct (p r); reflexivity.
  - simpl insert_row. destruct (key_le r h) eqn:E.
    + change (filter p (r :: h :: l))
        with (if p r then r :: filter p (h :: l) else filter p (h :: l)).
      destruct (p r); [|reflexivity].
      symmetry. apply insert_row_head.
      apply Forall_forall. intros x Hx. apply filter_In in Hx.
      destruct Hx as [[<- | Hx] _]; [exact E|].
      rewrite Forall_forall in Hall.
      apply key_le_trans with h; [exact E | apply Hall, Hx].
    + simpl filter. rewrite IH.
      destruct (p h), (p r); try reflexivity.
      simpl insert_row. rewrite E. reflexivity.
Qed.

(** The stable sort commutes with the selection of rows. *)
Lemma sort_values_filter (p : Track.t -> bool) (l : list Track.t) :
  filter p (sort_values l) = sort_values (filter p l).
Proof.
  induction l as [|r l IH]; [reflexivity|].
  simpl sort_values. rewrite filter_insert_row by apply sort_values_sorted.
  simpl filter. destruct (p r); rewrite IH; reflexivity.
Qed.

Lemma filter_flat_map {A B : Type} (f : B -> bool) (g : A -> list B)
      (l : list A) :
  filter f (flat_map g l) = flat_map (fun x => filter f (g x)) l.
Proof.
  induction l as [|a l IH]; simpl; [reflexivity|].
  rewrite filter_app, IH. reflexivity.
Qed.

Lemma filter_of_map {A B : Type} (f : B -> bool) (g : A -> B) (l : list A) :
  filter f (map g l) = map g (filter (fun x => f (g x)) l).
Proof.
  induction l as [|a l IH]; simpl; [reflexivity|].
  destruct (f (g a)); simpl; rewrite IH; reflexivity.
Qed.

Lemma filter_swap {A : Type} (f g : A -> bool) (l : list A) :
  filter f (filter g l) = filter g (filter f l).
Proof.
  induction l as [|a l IH]; simpl; [reflexivity|].
  destruct (f a) eqn:Ef, (g a) eqn:Eg; simpl; rewrite ?Ef, ?Eg, IH;
    reflexivity.
Qed.

Lemma filter_none {A : Type} (f : A -> bool) (l : list A) :
  (forall x, In x l -> f x = false) -> filter f l = [].
Proof.
  induction l as [|a l IH]; intros H; simpl; [reflexivity|].
  rewrite (H a) by (left; reflexivity).
  apply IH. intros x Hx. apply H. right. exact Hx.
Qed.

Lemma flat_map_pick {A : Type} (D : list Z) (c : Z) (X : list A) :
  NoDup D ->
  flat_map (fun d => if d =? c then X else []) D
  = if in_dec Z.eq_dec c D then X else [].
Proof.
  induction 1 as [|d D Hd Hnd IH]; [reflexivity|].
  simpl flat_map. rewrite IH.
  destruct (Z.eqb_spec d c) as [-> | N].
  - destruct (in_dec Z.eq_dec c D) as [Hin | _]; [contradiction|].
    destruct (in_dec Z.eq_dec c (c :: D)) as [_ | Hout].
    + apply app_nil_r.
    + contradiction Hout. left. reflexivity.
  - simpl app.
    destruct (in_dec Z.eq_dec c D) as [Hin | Hout],
             (in_dec Z.eq_dec c (d :: D)) as [Hin' | Hout'];
      try reflexivity.
    + contradiction Hout'. right. exact Hin.
    + destruct Hin' as [E | Hin']; [contradiction | contradiction].
Qed.

Lemma pair_rows_fst_In (n : nat) (p : list Track.t)
      (ab : Track.t * Track.t) :
  In ab (pair_rows n p) -> In (fst ab) p.
Proof.
  destruct ab as [a b]. unfold pair_rows. apply in_combine_l.
Qed.

(** Among the pairs of a table, those that start in trajectory [c] are the
    pairs of that trajectory. *)
Lemma pairs_of_cell (n : nat) (c : Z) (l : list Track.t) :
  filter (fun ab => Track.cell_id (fst ab) =? c)
         (flat_map (pair_rows n) (partition_by_cell l))
  = pair_rows n (trajectory c l).
Proof.
  unfold partition_by_cell.
  rewrite filter_flat_map, flat_map_concat_map, map_map,
    <- flat_map_concat_map.
  rewrite flat_map_ext
    with (g := fun d => if d =? c then pair_rows n (trajectory c l) else []).
  - rewrite flat_map_pick by apply distinct_NoDup.
    destruct (in_dec Z.eq_dec c (distinct (map Track.cell_id l)))
      as [_ | Hout]; [reflexivity|].
    rewrite distinct_In in Hout. rewrite (trajectory_nil c l Hout).
    reflexivity.
  - intros d. destruct (Z.eqb_spec d c) as [-> | N].
    + apply forallb_filter_id, forallb_forall. intros ab Hab.
      apply pair_rows_fst_In, trajectory_In in Hab.
      apply Z.eqb_eq. tauto.
    + apply filter_none. intros ab Hab.
      apply pair_rows_fst_In, trajectory_In in Hab.
      apply Z.eqb_neq. destruct Hab as [_ E]. congruence.
Qed.

Lemma trajectory_idem (c : Z) (l : list Track.t) :
  trajectory c (trajectory c l) = trajectory c l.
Proof.
  unfold trajectory. apply forallb_filter_id, forallb_forall.
  intros r Hr. apply filter_In in Hr. tauto.
Qed.

Lemma steps_of_cell_reference (l : list Track.t) (tau : Z) (c : Z) :
  steps_of_cell c (filter step_notna (reference_steps l tau))
  = filter step_notna
      (map (step_of_pair tau)
           (pair_rows (Z.to_nat tau) (trajectory c (sort_values l)))).
Proof.
  unfold steps_of_cell, reference_steps, reference_pairs.
  rewrite filter_swap, filter_of_map. f_equal. f_equal.
  rewrite <- pairs_of_cell. apply filter_ext. intros [a b]. reflexivity.
Qed.

Lemma reference_pairs_trajectory (l : list Track.t) (tau : Z) (c : Z) :
  reference_pairs (trajectory c l) tau
  = pair_rows (Z.to_nat tau) (trajectory c (sort_values l)).
Proof.
  unfold reference_pairs.
  replace (sort_values (trajectory c l)) with (trajectory c (sort_values l))
    by apply sort_values_filter.
  rewrite <- (trajectory_idem c (sort_values l)) at 2.
  rewrite <- pairs_of_cell. symmetry.
  apply forallb_filter_id, forallb_forall. intros ab Hab.
  apply in_flat_map in Hab. destruct Hab as [p [Hp Hab]].
  unfold partition_by_cell in Hp. apply in_map_iff in Hp.
  destruct Hp as [d [<- _]].
  apply pair_rows_fst_In, trajectory_In in Hab. destruct Hab as [Hab _].
  apply trajectory_In in Hab. apply Z.eqb_eq. tauto.
Qed.

Lemma steps_of_cell_recast (c : Z) (l : list Step.t) :
  steps_of_cell c (map recast l) = map recast (steps_of_cell c l).
Proof.
  unfold steps_of_cell. induction l as [|s l IH]; [reflexivity|].
  simpl. destruct (Step.cell_id s =? c); simpl; now rewrite IH.
Qed.

(** X7. The steps of a trajectory depend on the rows of that trajectory
    alone: when [compute_steps_for_tau] returns a table, calling it on the
    table reduced to the rows of one [cell_id] returns exactly the steps of
    that [cell_id], in the same order.  Rows of other trajectories,
    wherever they stand in the table, add and remove nothing. *)
Theorem trajectories_independent (tracks : DataFrame) (tau c : Z)
        (steps : list Step.t) :
  compute_steps_for_tau tracks tau = ret steps ->
  compute_steps_for_tau (restrict_to_cell c tracks) tau
  = ret (steps_of_cell c steps).
Proof.
  intros H. apply compute_steps_for_tau_ret_inv in H.
  destruct H as [Hreq [Hlab [Htau [Hcast ->]]]].
  assert (E : filter step_notna
                     (reference_steps (rows (restrict_to_cell c tracks)) tau)
              = steps_of_cell
                  c (filter step_notna (reference_steps (rows tracks) tau))).
  { rewrite steps_of_cell_reference. unfold reference_steps.
    simpl rows. rewrite reference_pairs_trajectory. reflexivity. }
  rewrite steps_of_cell_recast, <- E.
  apply compute_steps_for_tau_eq; try assumption.
  unfold castable in *. rewrite E. rewrite forallb_forall in *.
  intros s Hs. apply Hcast. unfold steps_of_cell in Hs.
  apply filter_In in Hs. tauto.
Qed.

Lemma trajectories_independent_witness :
  compute_steps_for_tau (restrict_to_cell 2 interleaved) 1
  = ret (steps_of_cell 2 (steps_of (compute_steps_for_tau interleaved 1))).
Proof.
  apply (trajectories_independent interleaved 1 2). reflexivity.
Defined.

Lemma steps_of_cell_count (l : list Track.t) (tau c : Z) :
  1 <= tau ->
  Z.of_nat (length (steps_of_cell
                      c (filter step_notna (reference_steps l tau))))
  <= Z.max 0 (Z.of_nat (length (trajectory c l)) - tau)
  /\ (forallb finite_row l = true ->
      Z.of_nat (length (steps_of_cell
                          c (filter step_notna (reference_steps l tau))))
      = Z.max 0 (Z.of_nat (length (trajectory c l)) - tau)).
Proof.
  intros Htau.
  assert (Hlen : Z.of_nat
                   (length (map (step_of_pair tau)
                                (pair_rows (Z.to_nat tau)
                                   (trajectory c (sort_values l)))))
                 = Z.max 0 (Z.of_nat (length (trajectory c l)) - tau)).
  { rewrite length_map, length_pair_rows, trajectory_length_sorted. lia. }
  split.
  - rewrite steps_of_cell_reference, <- Hlen.
    apply inj_le, length_filter_le.
  - intros Hfin. rewrite <- Hlen.
    rewrite <- (forallb_filter_id step_notna
                  (map (step_of_pair tau)
                       (pair_rows (Z.to_nat tau)
                          (trajectory c (sort_values l))))).
    + rewrite steps_of_cell_reference. reflexivity.
    + apply forallb_forall. intros s Hs.
      pose proof (finite_rows_notna l tau Hfin) as Hall.
      rewrite forallb_forall in Hall. apply Hall.
      unfold reference_steps, reference_pairs.
      apply in_map_iff in Hs. destruct Hs as [ab [<- Hab]].
      apply in_map. rewrite <- pairs_of_cell in Hab.
      apply filter_In in Hab. tauto.
Qed.

(** X8. The row-count law holds trajectory by trajectory: in a returned
    table the steps of a [cell_id] with [N_c] rows number at most
    [max(0, N_c - tau_frames)], and exactly that many when every time
    stamp and coordinate of the table is finite. *)
Theorem row_count_per_trajectory (tracks : DataFrame) (tau c : Z)
        (steps : list Step.t) :
  compute_steps_for_tau tracks tau = ret steps ->
  Z.of_nat (length (steps_of_cell c steps))
  <= Z.max 0 (Z.of_nat (length (trajectory c (rows tracks))) - tau)
  /\ (forallb finite_row (rows tracks) = true ->
      Z.of_nat (length (steps_of_cell c steps))
      = Z.max 0 (Z.of_nat (length (trajectory c (rows tracks))) - tau)).
Proof.
  intros H. apply compute_steps_for_tau_ret_kept in H.
  destruct H as [_ [Htau ->]].
  rewrite steps_of_cell_recast, length_map.
  apply steps_of_cell_count, Htau.
Qed.

Lemma row_count_per_trajectory_witness :
  Z.of_nat (length (steps_of_cell
                      1 (steps_of (compute_steps_for_tau interleaved 2))))
  = Z.max 0 (Z.of_nat (length (trajectory 1 (rows interleaved))) - 2).
Proof.
  apply (row_count_per_trajectory interleaved 2 1); reflexivity.
Defined.

(** X9. A returned table is empty as soon as no trajectory has more than
    [tau_frames] rows, the empty input table included: the call succeeds
    with no step, it does not raise.  On a table whose time stamps and
    coordinates are all finite the converse holds: an empty result means
    that no trajectory has more than [tau_frames] rows. *)
Theorem empty_result_iff_short_trajectories (tracks : DataFrame) (tau : Z)
        (steps : list Step.t) :
  compute_steps_for_tau tracks tau = ret steps ->
  ((forall c, Z.of_nat (length (trajectory c (rows tracks))) <= tau) ->
   steps = [])
  /\ (forallb finite_row (rows tracks) = true -> steps = [] ->
      forall c, Z.of_nat (length (trajectory c (rows tracks))) <= tau).
Proof.
  intros H. apply compute_steps_for_tau_ret_kept in H.
  destruct H as [_ [Htau ->]]. split.
  - intros Hshort.
    destruct (filter step_notna (reference_steps (rows tracks) tau))
      as [|s steps] eqn:E; [reflexivity|].
    pose proof (proj1 (steps_of_cell_count (rows tracks) tau
                                           (Step.cell_id s) Htau)) as Hc.
    rewrite E in Hc. unfold steps_of_cell in Hc. simpl in Hc.
    rewrite Z.eqb_refl in Hc. simpl length in Hc.
    specialize (Hshort (Step.cell_id s)). lia.
  - intros Hfin Hnil c. apply map_eq_nil in Hnil.
    pose proof (proj2 (steps_of_cell_count (rows tracks) tau c Htau) Hfin)
      as Hc.
    rewrite Hnil in Hc. simpl in Hc. lia.
Qed.

Lemma empty_result_iff_short_trajectories_witness :
  steps_of (compute_steps_for_tau three_points 3) = [].
Proof.
  apply (proj1 (empty_result_iff_short_trajectories
                  three_points 3
                  (steps_of (compute_steps_for_tau three_points 3))
                  eq_refl)).
  intros c. unfold trajectory, three_points, tracks_of, pt.
  cbn [rows filter Track.cell_id].
  destruct (Z.eqb_spec 1 c); simpl; lia.
Defined.

(** ** Lists of lags *)

Lemma mapM_ret_inv {A B : Type} (f : A -> result B) (l : list A)
      (bs : list B) :
  mapM f l = ret bs -> Forall2 (fun a b => f a = ret b) l bs.
Proof.
  revert bs. induction l as [|a l IH]; intros bs H.
  - injection H as <-. constructor.
  - cbn [mapM] in H. destruct (f a) as [e | b] eqn:Ea; [discriminate H|].
    rewrite bind_ret in H.
    destruct (mapM f l) as [e | bs'] eqn:El; [discriminate H|].
    injection H as <-. constructor; [exact Ea | apply IH; reflexivity].
Qed.

Lemma mapM_Forall2 {A B : Type} (f : A -> result B) (l : list A)
      (bs : list B) :
  Forall2 (fun a b => f a = ret b) l bs -> mapM f l = ret bs.
Proof.
  induction 1 as [|a b l bs Ha _ IH]; [reflexivity|].
  cbn [mapM]. rewrite Ha, IH. reflexivity.
Qed.

Lemma multi_tau_ret_iff (tracks : DataFrame) (taus : list Z)
      (steps_all : list Step.t) :
  compute_steps_multi_tau tracks taus = ret steps_all
  <-> has_required_columns tracks
      /\ taus <> []
      /\ exists blocks,
           Forall2 (fun tau b => compute_steps_for_tau tracks tau = ret b)
                   taus blocks
           /\ steps_all = List.concat blocks.
Proof.
  unfold compute_steps_multi_tau. split.
  - intros H.
    destruct (validate_tracks tracks) as [e | []] eqn:Ev; [discriminate H|].
    rewrite bind_ret in H.
    destruct (mapM (compute_steps_for_tau tracks) taus) as [e | blocks] eqn:Em;
      [discriminate H|].
    rewrite bind_ret in H. apply mapM_ret_inv in Em.
    split; [apply validate_ret_iff, Ev|].
    destruct Em as [|tau b taus blocks Hb Hrest]; [discriminate H|].
    split; [discriminate|].
    exists (b :: blocks). split; [constructor; assumption|].
    injection H as <-. reflexivity.
  - intros [Hreq [Hne [blocks [HF ->]]]].
    rewrite (validate_ok tracks Hreq), bind_ret.
    rewrite (mapM_Forall2 _ _ _ HF), bind_ret.
    destruct HF; [contradiction | reflexivity].
Qed.

(** X10. With a single lag [compute_steps_multi_tau] is
    [compute_steps_for_tau]: the same table, or the same error, whatever
    the table and the lag. *)
Theorem multi_tau_single_lag (tracks : DataFrame) (tau : Z) :
  compute_steps_multi_tau tracks [tau] = compute_steps_for_tau tracks tau.
Proof.
  unfold compute_steps_multi_tau. cbn [mapM].
  destruct (validate_tracks tracks) as [e | []] eqn:Ev.
  - unfold compute_steps_for_tau. rewrite Ev. reflexivity.
  - rewrite bind_ret.
    destruct (compute_steps_for_tau tracks tau) as [e | b]; [reflexivity|].
    simpl. rewrite app_nil_r. reflexivity.
Qed.

(** X11. [compute_steps_multi_tau] distributes over the concatenation of
    lag lists: when it returns a table for each of two lists, it returns
    for the two lists put end to end the first table followed by the
    second. *)
Theorem multi_tau_app (tracks : DataFrame) (taus1 taus2 : list Z)
        (s1 s2 : list Step.t) :
  compute_steps_multi_tau tracks taus1 = ret s1 ->
  compute_steps_multi_tau tracks taus2 = ret s2 ->
  compute_steps_multi_tau tracks (taus1 ++ taus2) = ret (s1 ++ s2).
Proof.
  intros H1 H2. apply multi_tau_ret_iff in H1, H2.
  destruct H1 as [Hreq [Hne1 [b1 [HF1 ->]]]].
  destruct H2 as [_ [_ [b2 [HF2 ->]]]].
  apply multi_tau_ret_iff. split; [exact Hreq|]. split.
  - intros E. apply app_eq_nil in E. tauto.
  - exists (b1 ++ b2). split; [apply Forall2_app; assumption|].
    rewrite concat_app. reflexivity.
Qed.

Lemma multi_tau_app_witness :
  compute_steps_multi_tau three_points ([1; 2] ++ [1])
  = ret (steps_of (compute_steps_multi_tau three_points [1; 2])
         ++ steps_of (compute_steps_multi_tau three_points [1])).
Proof.
  apply (multi_tau_app three_points [1; 2] [1]); reflexivity.
Defined.

(** ** What the summary counts *)

Lemma strictly_sorted_NoDup (l : list Z) : StronglySorted Z.lt l -> NoDup l.
Proof.
  induction 1 as [|a l Hs IH Hall]; constructor; [|exact IH].
  intros Hin. rewrite Forall_forall in Hall. specialize (Hall a Hin). lia.
Qed.

Lemma list_sum_indicator (x : Z) (K : list Z) :
  NoDup K -> In x K ->
  list_sum (map (fun k => if x =? k then 1%nat else 0%nat) K) = 1%nat.
Proof.
  induction 1 as [|k K Hk Hnd IH]; intros Hin; [destruct Hin|].
  simpl. destruct (Z.eqb_spec x k) as [-> | N].
  - f_equal. clear IH Hin Hnd.
    induction K as [|k' K IH]; [reflexivity|].
    simpl. destruct (Z.eqb_spec k k') as [-> | _].
    + contradiction Hk. left. reflexivity.
    + apply IH. intros H. apply Hk. right. exact H.
  - destruct Hin as [E | Hin]; [congruence|]. apply IH, Hin.
Qed.

Lemma list_sum_map_add {A : Type} (f g : A -> nat) (l : list A) :
  list_sum (map (fun a => f a + g a)%nat l)
  = (list_sum (map f l) + list_sum (map g l))%nat.
Proof.
  induction l as [|a l IH]; simpl; [reflexivity|]. rewrite IH. lia.
Qed.

(** Groups over keys that cover the table share out its rows. *)
Lemma groups_share_out (K : list Z) (l : list Step.t) :
  NoDup K ->
  (forall s, In s l -> In (Step.tau_frames s) K) ->
  list_sum (map (fun k => length (get_group k l)) K) = length l.
Proof.
  intros Hnd. induction l as [|s l IH]; intros Hcov.
  - clear. induction K as [|k K IHK]; [reflexivity | exact IHK].
  - rewrite map_ext
      with (g := fun k => Nat.add (if Step.tau_frames s =? k
                                   then 1%nat else 0%nat)
                                  (length (get_group k l))).
    + rewrite list_sum_map_add, list_sum_indicator, IH.
      * reflexivity.
      * intros s' Hs'. apply Hcov. right. exact Hs'.
      * exact Hnd.
      * apply Hcov. left. reflexivity.
    + intros k. unfold get_group. simpl.
      destruct (Step.tau_frames s =? k); reflexivity.
Qed.

Lemma length_nodup_le (l : list Z) :
  (length (nodup Z.eq_dec l) <= length l)%nat.
Proof.
  induction l as [|a l IH]; simpl; [lia|].
  destruct (in_dec Z.eq_dec a l); simpl; lia.
Qed.

(** X12. [summary_by_tau] accounts for every step exactly once: the
    [n_steps] of its rows add up to the number of rows of the input table,
    and every row of the summary stands for at least one step and counts
    at least one cell and at most as many cells as steps. *)
Theorem summary_accounts_for_steps (steps_all : list Step.t) :
  list_sum (map Summary.n_steps (summary_by_tau steps_all))
  = length steps_all
  /\ Forall (fun row => (1 <= Summary.n_cells row <= Summary.n_steps row)%nat)
            (summary_by_tau steps_all).
Proof.
  split.
  - unfold summary_by_tau. rewrite map_map. simpl. unfold size.
    apply groups_share_out.
    + apply strictly_sorted_NoDup, group_keys_sorted.
    + intros s Hs. apply group_keys_In. exists s. auto.
  - apply Forall_forall. intros row Hrow. unfold summary_by_tau in Hrow.
    apply in_map_iff in Hrow. destruct Hrow as [k [<- Hk]]. simpl.
    unfold nunique, size. split.
    + apply group_keys_In in Hk. destruct Hk as [s [Hs Ek]].
      assert (Hin : In (Step.cell_id s)
                       (nodup Z.eq_dec
                              (map Step.cell_id (get_group k steps_all)))).
      { apply nodup_In, in_map. unfold get_group. apply filter_In.
        split; [exact Hs | apply Z.eqb_eq, Ek]. }
      destruct (nodup Z.eq_dec _); [destruct Hin | simpl; lia].
    + rewrite <- (length_map Step.cell_id (get_group k steps_all)).
      apply length_nodup_le.
Qed.

(** ** The summary of a multi-lag table *)

Lemma block_tau_frames (tracks : DataFrame) (tau : Z) (b : list Step.t) :
  compute_steps_for_tau tracks tau = ret b ->
  forall s, In s b -> Step.tau_frames s = tau.
Proof.
  intros H s Hs. apply compute_steps_for_tau_ret_kept in H.
  destruct H as [_ [_ ->]].
  apply (In_returned tracks) in Hs. destruct Hs as [a [a' [_ ->]]].
  reflexivity.
Qed.

Lemma get_group_block (tracks : DataFrame) (tau k : Z) (b : list Step.t) :
  compute_steps_for_tau tracks tau = ret b ->
  get_group k b = if tau =? k then b else [].
Proof.
  intros H. pose proof (block_tau_frames tracks tau b H) as Hb.
  unfold get_group. destruct (Z.eqb_spec tau k) as [<- | N].
  - apply forallb_filter_id, forallb_forall. intros s Hs.
    apply Z.eqb_eq, Hb, Hs.
  - apply filter_none. intros s Hs. apply Z.eqb_neq.
    rewrite (Hb s Hs). exact N.
Qed.

Lemma group_of_blocks (tracks : DataFrame) (k : Z) (block : list Step.t)
      (taus : list Z) (blocks : list (list Step.t)) :
  compute_steps_for_tau tracks k = ret block ->
  Forall2 (fun tau b => compute_steps_for_tau tracks tau = ret b)
          taus blocks ->
  length (get_group k (List.concat blocks))
  = (count_occ Z.eq_dec taus k * length block)%nat.
Proof.
  intros Hk. induction 1 as [|tau b taus blocks Hb _ IH]; [reflexivity|].
  simpl List.concat. unfold get_group in *. rewrite filter_app, length_app, IH.
  fold (get_group k b). rewrite (get_group_block tracks tau k b Hb).
  destruct (Z.eqb_spec tau k) as [-> | N].
  - rewrite count_occ_cons_eq by reflexivity.
    assert (b = block) by (rewrite Hk in Hb; injection Hb; auto).
    subst b. simpl. lia.
  - rewrite count_occ_cons_neq by exact N. reflexivity.
Qed.

(** X13. In the summary of a table returned by [compute_steps_multi_tau],
    every row is for a lag of the list, and its [n_steps] is the number of
    steps [compute_steps_for_tau] returns for that lag multiplied by the
    number of times the lag occurs in the list: a repeated lag is counted
    as many times as it is repeated.  Conversely every lag of the list
    whose own table is not empty has a row. *)
Theorem summary_of_multi_tau (tracks : DataFrame) (taus : list Z)
        (steps_all : list Step.t) :
  compute_steps_multi_tau tracks taus = ret steps_all ->
  (forall row, In row (summary_by_tau steps_all) ->
     In (Summary.tau_frames row) taus
     /\ exists block,
          compute_steps_for_tau tracks (Summary.tau_frames row) = ret block
          /\ Summary.n_steps row
             = (count_occ Z.eq_dec taus (Summary.tau_frames row)
                * length block)%nat)
  /\ (forall tau s block,
        In tau taus -> compute_steps_for_tau tracks tau = ret block ->
        In s block ->
        In tau (map Summary.tau_frames (summary_by_tau steps_all))).
Proof.
  intros H. apply multi_tau_ret_iff in H.
  destruct H as [_ [_ [blocks [HF ->]]]]. split.
  - intros row Hrow. unfold summary_by_tau in Hrow.
    apply in_map_iff in Hrow. destruct Hrow as [k [<- Hk]]. simpl.
    apply group_keys_In in Hk. destruct Hk as [s [Hs Ek]].
    apply in_concat in Hs. destruct Hs as [b [Hb Hs]].
    assert (Hblock : exists tau, In tau taus
                                 /\ compute_steps_for_tau tracks tau = ret b).
    { clear - HF Hb. induction HF as [|tau b' taus blocks Hb' _ IH].
      - destruct Hb.
      - destruct Hb as [-> | Hb].
        + exists tau. split; [left; reflexivity | exact Hb'].
        + destruct (IH Hb) as [t [Ht Hc]]. exists t. split; [right|]; auto. }
    destruct Hblock as [tau [Htau Hc]].
    assert (tau = k) by (rewrite <- Ek; symmetry;
                         apply (block_tau_frames tracks tau b Hc), Hs).
    subst tau. split; [exact Htau|].
    exists b. split; [exact Hc|].
    unfold size. apply (group_of_blocks tracks k b taus blocks Hc HF).
  - intros tau s block Htau Hc Hs. rewrite summary_keys.
    apply group_keys_In. exists s. split.
    + apply in_concat. exists block. split; [|exact Hs].
      clear - HF Htau Hc. induction HF as [|t b taus blocks Hb _ IH].
      * destruct Htau.
      * destruct Htau as [-> | Htau].
        -- left. rewrite Hc in Hb. injection Hb. auto.
        -- right. apply IH, Htau.
    + apply (block_tau_frames tracks tau block Hc), Hs.
Qed.

Lemma summary_of_multi_tau_witness :
  Forall (fun row =>
            In (Summary.tau_frames row) [1; 2; 1]
            /\ exists block,
                 compute_steps_for_tau three_points (Summary.tau_frames row)
                 = ret block
                 /\ Summary.n_steps row
                    = Nat.mul (count_occ Z.eq_dec [1; 2; 1]
                                         (Summary.tau_frames row))
                              (length block))
         (summary_by_tau sample_steps).
Proof.
  apply Forall_forall.
  apply (proj1 (summary_of_multi_tau three_points [1; 2; 1] sample_steps
                                     eq_refl)).
Defined.

(** ** The summary of a single-lag table *)

Lemma group_keys_single (tau : Z) (steps : list Step.t) :
  (forall s, In s steps -> Step.tau_frames s = tau) ->
  steps <> [] -> group_keys steps = [tau].
Proof.
  unfold group_keys. induction steps as [|s steps IH]; intros Hall Hne.
  - contradiction.
  - simpl. rewrite (Hall s) by (left; reflexivity).
    destruct steps as [|s' steps].
    + reflexivity.
    + rewrite IH; [|intros x Hx; apply Hall; right; exact Hx | discriminate].
      simpl. rewrite Z.ltb_irrefl, Z.eqb_refl. reflexivity.
Qed.

Lemma get_group_all (tau : Z) (steps : list Step.t) :
  (forall s, In s steps -> Step.tau_frames s = tau) ->
  get_group tau steps = steps.
Proof.
  intros Hall. unfold get_group. apply forallb_filter_id, forallb_forall.
  intros s Hs. apply Z.eqb_eq, Hall, Hs.
Qed.

Lemma steps_of_cell_In (c : Z) (steps : list Step.t) (s : Step.t) :
  In s (steps_of_cell c steps) <-> In s steps /\ Step.cell_id s = c.
Proof. unfold steps_of_cell. rewrite filter_In, Z.eqb_eq. tauto. Qed.

(** The cells that occur in the steps are the trajectories long enough. *)
Lemma contributing_cells (l : list Track.t) (tau c : Z) :
  1 <= tau -> forallb finite_row l = true ->
  In c (map Step.cell_id (filter step_notna (reference_steps l tau)))
  <-> In c (long_trajectories tau l).
Proof.
  intros Htau Hfin.
  destruct (steps_of_cell_count l tau c Htau) as [_ Hcount].
  specialize (Hcount Hfin).
  unfold long_trajectories. rewrite filter_In, distinct_In, Z.ltb_lt.
  split.
  - intros Hin. apply in_map_iff in Hin. destruct Hin as [s [Ec Hs]].
    assert (Hs' : In s (steps_of_cell
                          c (filter step_notna (reference_steps l tau))))
      by (apply steps_of_cell_In; auto).
    destruct (steps_of_cell c _) as [|s0 rest]; [destruct Hs'|].
    simpl length in Hcount.
    assert (Hlong : tau < Z.of_nat (length (trajectory c l))) by lia.
    split; [|exact Hlong].
    destruct (trajectory c l) as [|r g] eqn:E; [simpl in Hlong; lia|].
    assert (Hr : In r (trajectory c l)) by (rewrite E; left; reflexivity).
    apply trajectory_In in Hr. destruct Hr as [Hr <-]. apply in_map, Hr.
  - intros [_ Hlong].
    destruct (steps_of_cell c (filter step_notna (reference_steps l tau)))
      as [|s rest] eqn:E; [simpl in Hcount; lia|].
    assert (Hs : In s (steps_of_cell
                         c (filter step_notna (reference_steps l tau))))
      by (rewrite E; left; reflexivity).
    apply steps_of_cell_In in Hs. destruct Hs as [Hs <-]. apply in_map, Hs.
Qed.

Lemma map_cell_id_recast (l : list Step.t) :
  map Step.cell_id (map recast l) = map Step.cell_id l.
Proof. rewrite map_map. reflexivity. Qed.

(** X14. The summary of a table returned by [compute_steps_for_tau] is
    empty when the table is, and otherwise a single row: its [tau_frames]
    is the lag of the call, its [n_steps] the number of rows of the table,
    its median a statistical median of the elapsed times that are not NaN;
    when every time stamp and coordinate of the tracks is finite its
    [n_cells] is the number of trajectories that have more than
    [tau_frames] rows. *)
Theorem summary_of_single_lag (tracks : DataFrame) (tau : Z)
        (steps : list Step.t) :
  compute_steps_for_tau tracks tau = ret steps ->
  (steps = [] -> summary_by_tau steps = [])
  /\ (steps <> [] ->
      exists row,
        summary_by_tau steps = [row]
        /\ Summary.tau_frames row = tau
        /\ Summary.n_steps row = length steps
        /\ is_median (filter notna (map Step.tau_min steps))
                     (Summary.median_tau_min row)
        /\ (forallb finite_row (rows tracks) = true ->
            Summary.n_cells row
            = length (long_trajectories tau (rows tracks)))).
Proof.
  intros H. pose proof (block_tau_frames tracks tau steps H) as Hall.
  apply compute_steps_for_tau_ret_kept in H. destruct H as [_ [Htau E]].
  split; [intros ->; reflexivity|].
  intros Hne. unfold summary_by_tau.
  rewrite (group_keys_single tau steps Hall Hne). simpl map.
  rewrite (get_group_all tau steps Hall).
  eexists. split; [reflexivity|]. simpl.
  split; [reflexivity|]. split; [reflexivity|].
  split; [apply median_spec|].
  intros Hfin. unfold nunique. apply Permutation_length.
  apply NoDup_Permutation.
  - apply NoDup_nodup.
  - unfold long_trajectories. apply NoDup_filter, distinct_NoDup.
  - intros c. rewrite nodup_In, E, map_cell_id_recast.
    apply contributing_cells; assumption.
Qed.

Lemma summary_of_single_lag_witness :
  exists row,
    summary_by_tau (steps_of (compute_steps_for_tau interleaved 2)) = [row]
    /\ Summary.tau_frames row = 2
    /\ Summary.n_steps row
       = length (steps_of (compute_steps_for_tau interleaved 2))
    /\ is_median
         (filter notna
                 (map Step.tau_min
                      (steps_of (compute_steps_for_tau interleaved 2))))
         (Summary.median_tau_min row)
    /\ Summary.n_cells row = length (long_trajectories 2 (rows interleaved)).
Proof.
  destruct (proj2 (summary_of_single_lag
                     interleaved 2
                     (steps_of (compute_steps_for_tau interleaved 2))
                     eq_refl))
    as [row [E [H1 [H2 [H3 H4]]]]].
  - vm_compute. discriminate.
  - exists row. split; [exact E|]. split; [exact H1|]. split; [exact H2|].
    split; [exact H3|]. apply H4. reflexivity.
Defined.

(** ** Steps chain *)

Lemma reference_pairs_intro (l : list Track.t) (tau c : Z) (i : nat)
      (a b : Track.t) :
  nth_error (trajectory c (sort_values l)) i = Some a ->
  nth_error (trajectory c (sort_values l)) (i + Z.to_nat tau) = Some b ->
  In (a, b) (reference_pairs l tau).
Proof.
  intros Ha Hb. unfold reference_pairs, partition_by_cell.
  apply in_flat_map. exists (trajectory c (sort_values l)). split.
  - apply in_map_iff. exists c. split; [reflexivity|].
    apply distinct_In.
    apply nth_error_In, trajectory_In in Ha. destruct Ha as [Ha <-].
    apply in_map, Ha.
  - apply pair_rows_In. exists i. auto.
Qed.

Lemma frame_strict_position (p : list Track.t) (i j : nat) (a b : Track.t) :
  FrameStrict p ->
  nth_error p i = Some a -> nth_error p j = Some b ->
  Track.frame a = Track.frame b -> i = j.
Proof.
  intros Hp Ha Hb E.
  destruct (Nat.lt_trichotomy i j) as [H | [H | H]]; [|exact H|].
  - pose proof (strongly_sorted_nth _ p Hp i j a b H Ha Hb) as H'.
    simpl in H'. lia.
  - pose proof (strongly_sorted_nth _ p Hp j i b a H Hb Ha) as H'.
    simpl in H'. lia.
Qed.

(** X15. Steps chain.  On a table without two rows for the same
    (cell_id, frame), with finite time stamps and coordinates and frames of
    at most 2^53 in magnitude, a step at lag [k1] followed, in the same
    trajectory, by a step at lag [k2] that starts at the frame where the
    first ends, spans a step at lag [k1 + k2], when that lag is below 2^31:
    the table returned for [k1 + k2] holds a step of that trajectory with
    the start of the first and the end of the second. *)
Theorem steps_chain (tracks : DataFrame) (k1 k2 : Z)
        (steps1 steps2 : list Step.t) (s1 s2 : Step.t) :
  compute_steps_for_tau tracks k1 = ret steps1 ->
  compute_steps_for_tau tracks k2 = ret steps2 ->
  NoDup (map key (rows tracks)) ->
  forallb finite_row (rows tracks) = true ->
  frames_exact (rows tracks) ->
  k1 + k2 < 2 ^ 31 ->
  In s1 steps1 -> In s2 steps2 ->
  Step.cell_id s2 = Step.cell_id s1 ->
  Step.frame_start s2 = Step.frame_end s1 ->
  exists steps s,
    compute_steps_for_tau tracks (k1 + k2) = ret steps
    /\ In s steps
    /\ Step.cell_id s = Step.cell_id s1
    /\ Step.frame_start s = Step.frame_start s1
    /\ Step.t_start_min s = Step.t_start_min s1
    /\ Step.frame_end s = Step.frame_end s2
    /\ Step.t_end_min s = Step.t_end_min s2
    /\ Step.tau_frames s = k1 + k2.
Proof.
  intros H1 H2 Hnd Hfin Hex Hsum Hs1 Hs2 Ecell Eframe.
  apply compute_steps_for_tau_ret_inv in H1, H2.
  destruct H1 as [Hreq [Hlab [[Hk1 _] [_ ->]]]], H2 as [_ [_ [[Hk2 _] [_ ->]]]].
  rewrite frames_exact_recast in Hs1, Hs2 by exact Hex.
  apply In_kept in Hs1, Hs2.
  destruct Hs1 as [a [b [Hab ->]]], Hs2 as [b' [d [Hbd ->]]].
  simpl in Ecell, Eframe.
  apply reference_pairs_In in Hab, Hbd.
  destruct Hab as [c [i [Ha Hb]]], Hbd as [c' [j [Hb' Hd]]].
  pose proof (trajectory_nth_In _ _ _ _ Ha) as [_ Eca].
  pose proof (trajectory_nth_In _ _ _ _ Hb') as [_ Ecb'].
  assert (Ec : c' = c) by congruence. rewrite Ec in Hb', Hd.
  pose proof (trajectory_frame_strict c (rows tracks) Hnd) as Hp.
  assert (Ej : j = (i + Z.to_nat k1)%nat)
    by (apply (frame_strict_position _ _ _ b' b Hp Hb' Hb Eframe)).
  subst j.
  assert (Hd' : nth_error (trajectory c (sort_values (rows tracks)))
                          (i + Z.to_nat (k1 + k2)) = Some d).
  { rewrite <- Hd. f_equal. lia. }
  exists (filter step_notna (reference_steps (rows tracks) (k1 + k2))),
         (step_of_pair (k1 + k2) (a, d)).
  split.
  { rewrite <- (frames_exact_recast _ (k1 + k2) Hex).
    apply compute_steps_for_tau_eq; try assumption; [split; lia|].
    apply frames_int64_castable, frames_exact_int64, Hex. }
  split.
  - rewrite forallb_filter_id by (apply finite_rows_notna, Hfin).
    unfold reference_steps. apply in_map.
    apply (reference_pairs_intro _ _ c i); assumption.
  - simpl. repeat split; reflexivity.
Qed.

Lemma steps_chain_witness :
  exists steps s,
    compute_steps_for_tau three_points (1 + 1) = ret steps
    /\ In s steps
    /\ Step.cell_id s = 1
    /\ Step.frame_start s = 0
    /\ Step.t_start_min s = 0%float
    /\ Step.frame_end s = 2
    /\ Step.t_end_min s = 2%float
    /\ Step.tau_frames s = 1 + 1.
Proof.
  apply (steps_chain
           three_points 1 1
           (steps_of (compute_steps_for_tau three_points 1))
           (steps_of (compute_steps_for_tau three_points 1))
           (step_of_pair 1 (pt 1 0 0 0 0, pt 1 1 1 1 1)%float)
           (step_of_pair 1 (pt 1 1 1 1 1, pt 1 2 2 3 3)%float)
           eq_refl eq_refl).
  - vm_compute. repeat (constructor; [simpl; intuition discriminate|]).
    constructor.
  - reflexivity.
  - repeat constructor; vm_compute; discriminate.
  - lia.
  - left. reflexivity.
  - right. left. reflexivity.
  - reflexivity.
  - reflexivity.
Defined.

(** ** When a call returns *)



(** X17. On a table whose frames fit 64-bit integers,
    [compute_steps_for_tau] returns a table exactly when the table holds
    every required column, no required label names two columns, and the
    lag is from 1 to 2^31 - 1; in every other case it raises. *)
Theorem returns_iff (tracks : DataFrame) (tau : Z) :
  frames_int64 (rows tracks) ->
  ((exists steps, compute_steps_for_tau tracks tau = ret steps)
   <-> has_required_columns tracks /\ labels_unique tracks
       /\ lag_in_range tau).
Proof.
  intros Hint. split.
  - intros [steps H]. apply compute_steps_for_tau_ret_inv in H. tauto.
  - intros [Hreq [Hlab Htau]]. eexists.
    apply compute_steps_for_tau_eq; try assumption.
    apply frames_int64_castable, Hint.
Qed.

Lemma returns_iff_witness :
  (exists steps, compute_steps_for_tau repeated_label 1 = ret steps)
  <-> has_required_columns repeated_label /\ labels_unique repeated_label
      /\ lag_in_range 1.
Proof.
  apply (returns_iff repeated_label 1).
  repeat constructor; vm_compute; discriminate.
Defined.
